(** * PTD save-protocol core: a shallow embedding of [ptd_server_v2.py]

    The development follows the layout of the Python module:
    the numeric codec ([decode_int_string], [encode_int], [read_int],
    [read_int2], [read_string] and the two length-prefixed writers), the
    ProfileID function, the delta parser [parse_delta_save] and the
    key/value blob codec.

    Modelling conventions.
    - A Python [str] is a [list ascii]; [len], indexing and slicing are
      written out below.  (Characters beyond Latin-1 are not represented;
      the codec treats them like any other character outside its
      alphabet.)
    - The integers handled by the codec are naturals: [decode_int_string]
      only ever produces values [>= 0], cursors are offsets into a blob that
      start at 0 and only grow, and every field of a roster record is a
      non-negative integer.  They are modelled in [N] (binary naturals,
      unbounded like Python's [int]).  [trainer_id] of the ProfileID
      function is an arbitrary integer and is modelled in [Z].
    - [str(n)] and [int(digits)] are first given as the unbounded decimal
      conversions ([str], [int_of_digits]): the value a conversion has when
      it returns.  The interpreter raises [ValueError] for a conversion of
      more than 4300 digits ([max_str_digits]); [str_checked],
      [int_checked] and the [_checked] variants of the codec functions
      carry that exception.  The round trips of the codec are stated on
      the [_checked] functions, or for numbers within the limit.
    - Record dicts are mutable objects: they live in an object store
      ([heap]) and are referred to by address, so that aliasing between the
      caller's roster and the parser's working set is visible.
    - [print] calls are omitted. *)

From Stdlib Require Import NArith ZArith List Ascii String Lia Bool.
From Stdlib Require Import Sorting.Sorted Sorting.Permutation.
From stdpp Require Import base list.
Import ListNotations.

Local Open Scope N_scope.

(** ** Python strings *)

Abbreviation pystr := (list ascii).

Definition lit (s : string) : pystr := list_ascii_of_string s.

Definition len {A} (s : list A) : N := N.of_nat (length s).

(** [s[a:b]] for offsets [a], [b] (out-of-range bounds are clamped, an
    empty range gives the empty string). *)
Definition slice (s : pystr) (a b : N) : pystr :=
  take (N.to_nat (b - a)) (drop (N.to_nat a) s).

(** [s[i]] as a one-character string, for [i < len s]. *)
Definition char_at (s : pystr) (i : N) : pystr := slice s i (i + 1).

(** [s[i]] where the index may be out of range: [None] is [IndexError]. *)
Definition py_index (s : pystr) (i : N) : option pystr :=
  if i <? len s then Some (char_at s i) else None.

(** ** Decimal conversions of the interpreter *)

Definition digit_char (d : N) : ascii := ascii_of_N (48 + d).
Definition digit_val (c : ascii) : N := N_of_ascii c - 48.

Fixpoint str_fuel (fuel : nat) (n : N) : pystr :=
  match fuel with
  | O => []
  | S f =>
      if n <? 10 then [digit_char n]
      else str_fuel f (n / 10) ++ [digit_char (n mod 10)]
  end.

(** [str(n)] for [n >= 0]; the fuel exceeds the number of digits. *)
Definition str (n : N) : pystr := str_fuel (S (N.to_nat (N.log2 n))) n.

(** [str(z)] for an arbitrary integer. *)
Definition str_Z (z : Z) : pystr :=
  if (z <? 0)%Z then lit "-" ++ str (Z.to_N (- z)) else str (Z.to_N z).

(** [int(s)] for a string of decimal digits. *)
Definition int_of_digits (s : pystr) : N :=
  fold_left (fun acc c => 10 * acc + digit_val c) s 0.

Definition is_digit (c : ascii) : bool :=
  (48 <=? N_of_ascii c) && (N_of_ascii c <=? 57).

(** [int(c)] for a one-character string; [None] is [ValueError]. *)
Definition int_of_char (c : ascii) : option N :=
  if is_digit c then Some (digit_val c) else None.

(** ** PTD encoding and decoding (lines 44-122) *)

Definition enumerate {A} (l : list A) : list (N * A) :=
  combine (map N.of_nat (seq 0 (length l))) l.

Fixpoint assoc {B} (k : ascii) (d : list (ascii * B)) : option B :=
  match d with
  | [] => None
  | (k', v) :: d' => if Ascii.eqb k k' then Some v else assoc k d'
  end.

Definition LETTER_LIST : list ascii := lit "mywcqapreo".

Definition LETTER_TO_DIGIT : list (ascii * ascii) :=
  map (fun '(i, c) => (c, digit_char i)) (enumerate LETTER_LIST).

Definition DIGIT_TO_LETTER : list (ascii * ascii) :=
  map (fun '(i, c) => (digit_char i, c)) (enumerate LETTER_LIST).

(** The [for ch in s] loop of [decode_int_string]: [None] is the early
    [return 0] on a character outside the alphabet. *)
Fixpoint decode_loop (s : pystr) (digits : pystr) : option pystr :=
  match s with
  | [] => Some digits
  | ch :: s' =>
      match assoc ch LETTER_TO_DIGIT with
      | Some d => decode_loop s' (digits ++ [d])
      | None => None
      end
  end.

Definition decode_int_string (s : pystr) : N :=
  match s with
  | [] => 0
  | _ =>
      match decode_loop s [] with
      | None => 0
      | Some [] => 0
      | Some digits => int_of_digits digits
      end
  end.

(** [DIGIT_TO_LETTER[digit]]; the table has an entry for every decimal
    digit ([digit_to_letter_total] below), so the [KeyError] branch is
    never taken on [str n]. *)
Definition digit_to_letter (digit : ascii) : ascii :=
  match assoc digit DIGIT_TO_LETTER with
  | Some c => c
  | None => digit
  end.

Definition encode_int (n : N) : pystr :=
  fold_left (fun result digit => result ++ [digit_to_letter digit]) (str n) [].

Definition read_int (blob : pystr) (i : N) : N * N :=
  if len blob <=? i then (0, i)
  else
    let length := decode_int_string (char_at blob i) in
    let i := i + 1 in
    if len blob <? i + length then (0, i)
    else (decode_int_string (slice blob i (i + length)), i + length).

Definition read_int2 (blob : pystr) (i : N) : N * N :=
  if len blob <=? i then (0, i)
  else
    let len_len := decode_int_string (char_at blob i) in
    let i := i + 1 in
    if len blob <? i + len_len then (0, i)
    else
      let length := decode_int_string (slice blob i (i + len_len)) in
      let i := i + len_len in
      if len blob <? i + length then (0, i)
      else (decode_int_string (slice blob i (i + length)), i + length).

Definition encode_with_length (n : N) : pystr :=
  let encoded := encode_int n in
  let length := encode_int (len encoded) in
  length ++ encoded.

Definition encode_with_double_length (n : N) : pystr :=
  let encoded := encode_int n in
  let len1 := encode_int (len encoded) in
  let len2 := encode_int (len len1) in
  len2 ++ len1 ++ encoded.

Definition read_string (blob : pystr) (i : N) : pystr * N :=
  if len blob <=? i then ([], i)
  else
    let length := decode_int_string (char_at blob i) in
    let i := i + 1 in
    if len blob <? i + length then ([], i)
    else (slice blob i (i + length), i + length).

(** ** ProfileID computation (lines 129-174) *)

Definition char_to_value_mapping : list (ascii * N) :=
  [("a", 1); ("1", 1); ("b", 2); ("2", 2); ("c", 3); ("3", 3); ("d", 4);
   ("4", 4); ("e", 5); ("5", 5); ("f", 6); ("6", 6); ("g", 7); ("7", 7);
   ("h", 8); ("8", 8); ("i", 9); ("9", 9); ("j", 10); ("k", 11); ("l", 12);
   ("m", 13); ("n", 14); ("o", 15); ("p", 16); ("q", 17); ("r", 18);
   ("s", 19); ("t", 20); ("u", 21); ("v", 22); ("w", 23); ("x", 24);
   ("y", 25); ("z", 26)]%char.

Definition char_to_value (c : ascii) : N :=
  match assoc c char_to_value_mapping with
  | Some v => v
  | None => 0
  end.

Definition num_to_letter (n : N) : pystr :=
  let letters := lit "abcdefghijklmnopqrstuvwxyz" in
  if n <? 26 then char_at letters n else [].

(** What a call does: it returns a value, or an exception escapes. *)
Inductive outcome (A : Type) : Type :=
  | Returned (v : A)
  | Raised.
Arguments Returned {A} v.
Arguments Raised {A}.

Definition py_sum (l : list N) : N := fold_left N.add l 0.

(** The [for c in result_str] loop; [None] is the [ValueError] of
    [int(c)]. *)
Fixpoint profile_loop (s : pystr) (first_digit : N) (profile_id : pystr)
  : option pystr :=
  match s with
  | [] => Some profile_id
  | c :: s' =>
      match int_of_char c with
      | None => None
      | Some v =>
          let digit := v + first_digit in
          profile_loop s' first_digit (profile_id ++ num_to_letter digit)
      end
  end.

(** [Returned None] is the Python [None]. *)
Definition compute_profile_id (current_save : pystr) (trainer_id : Z)
  : outcome (option pystr) :=
  if negb (len current_save =? 14) then Returned None
  else
    let char_sum := Z.of_N (py_sum (map char_to_value current_save)) in
    if (char_sum =? 0)%Z || (trainer_id <? 333)%Z || (99999 <? trainer_id)%Z
    then Returned None
    else
      let result := (trainer_id * char_sum * 14)%Z in
      let result_str := str_Z result in
      match result_str with
      | [] => Raised
      | c0 :: _ =>
          match int_of_char c0 with
          | None => Raised
          | Some first_digit =>
              match profile_loop result_str first_digit [] with
              | None => Raised
              | Some profile_id => Returned (Some profile_id)
              end
          end
      end.

(** ** Roster records and the object store (lines 181-198) *)

Record pokemon : Type := mk_pokemon {
  poke_id : N;
  species : N;
  experience : N;
  level : N;
  move1 : N;
  move2 : N;
  move3 : N;
  move4 : N;
  moveSelected : N;
  targetType : N;
  myID : N;
  position : N;
  shiny : N;
  tag : pystr
}.

Definition default_pokemon (poke_id : N) : pokemon :=
  {| poke_id := poke_id; species := 1; experience := 0; level := 5;
     move1 := 33; move2 := 0; move3 := 0; move4 := 0;
     moveSelected := 1; targetType := 1; myID := poke_id;
     position := poke_id; shiny := 0; tag := [] |}.

(** Item assignment [poke[key] = v], one function per key. *)
Definition set_species (v : N) (p : pokemon) : pokemon :=
  mk_pokemon (poke_id p) v (experience p) (level p) (move1 p) (move2 p)
    (move3 p) (move4 p) (moveSelected p) (targetType p) (myID p)
    (position p) (shiny p) (tag p).
Definition set_experience (v : N) (p : pokemon) : pokemon :=
  mk_pokemon (poke_id p) (species p) v (level p) (move1 p) (move2 p)
    (move3 p) (move4 p) (moveSelected p) (targetType p) (myID p)
    (position p) (shiny p) (tag p).
Definition set_level (v : N) (p : pokemon) : pokemon :=
  mk_pokemon (poke_id p) (species p) (experience p) v (move1 p) (move2 p)
    (move3 p) (move4 p) (moveSelected p) (targetType p) (myID p)
    (position p) (shiny p) (tag p).
Definition set_move1 (v : N) (p : pokemon) : pokemon :=
  mk_pokemon (poke_id p) (species p) (experience p) (level p) v (move2 p)
    (move3 p) (move4 p) (moveSelected p) (targetType p) (myID p)
    (position p) (shiny p) (tag p).
Definition set_move2 (v : N) (p : pokemon) : pokemon :=
  mk_pokemon (poke_id p) (species p) (experience p) (level p) (move1 p) v
    (move3 p) (move4 p) (moveSelected p) (targetType p) (myID p)
    (position p) (shiny p) (tag p).
Definition set_move3 (v : N) (p : pokemon) : pokemon :=
  mk_pokemon (poke_id p) (species p) (experience p) (level p) (move1 p)
    (move2 p) v (move4 p) (moveSelected p) (targetType p) (myID p)
    (position p) (shiny p) (tag p).
Definition set_move4 (v : N) (p : pokemon) : pokemon :=
  mk_pokemon (poke_id p) (species p) (experience p) (level p) (move1 p)
    (move2 p) (move3 p) v (moveSelected p) (targetType p) (myID p)
    (position p) (shiny p) (tag p).
Definition set_moveSelected (v : N) (p : pokemon) : pokemon :=
  mk_pokemon (poke_id p) (species p) (experience p) (level p) (move1 p)
    (move2 p) (move3 p) (move4 p) v (targetType p) (myID p)
    (position p) (shiny p) (tag p).
Definition set_targetType (v : N) (p : pokemon) : pokemon :=
  mk_pokemon (poke_id p) (species p) (experience p) (level p) (move1 p)
    (move2 p) (move3 p) (move4 p) (moveSelected p) v (myID p)
    (position p) (shiny p) (tag p).
Definition set_myID (v : N) (p : pokemon) : pokemon :=
  mk_pokemon (poke_id p) (species p) (experience p) (level p) (move1 p)
    (move2 p) (move3 p) (move4 p) (moveSelected p) (targetType p) v
    (position p) (shiny p) (tag p).
Definition set_position (v : N) (p : pokemon) : pokemon :=
  mk_pokemon (poke_id p) (species p) (experience p) (level p) (move1 p)
    (move2 p) (move3 p) (move4 p) (moveSelected p) (targetType p) (myID p)
    v (shiny p) (tag p).
Definition set_shiny (v : N) (p : pokemon) : pokemon :=
  mk_pokemon (poke_id p) (species p) (experience p) (level p) (move1 p)
    (move2 p) (move3 p) (move4 p) (moveSelected p) (targetType p) (myID p)
    (position p) v (tag p).
Definition set_tag (v : pystr) (p : pokemon) : pokemon :=
  mk_pokemon (poke_id p) (species p) (experience p) (level p) (move1 p)
    (move2 p) (move3 p) (move4 p) (moveSelected p) (targetType p) (myID p)
    (position p) (shiny p) v.

(** The object store: a record dict is an object at an address; a Python
    variable holding a record holds its address.  Allocation ([p.copy()],
    [default_pokemon(..)]) appends a new object. *)
Abbreviation loc := nat.
Abbreviation heap := (list pokemon).

#[global] Instance pokemon_inhabited : Inhabited pokemon :=
  populate (default_pokemon 0).

Definition deref (h : heap) (l : loc) : pokemon := h !!! l.
Definition store (h : heap) (l : loc) (p : pokemon) : heap := <[l := p]> h.
Definition alloc (h : heap) (p : pokemon) : loc * heap := (length h, h ++ [p]).

(** ** Insertion-ordered dicts with integer keys *)

Section Dict.
Context {V : Type}.

Fixpoint dict_get (d : list (N * V)) (k : N) : option V :=
  match d with
  | [] => None
  | (k', v) :: d' => if k =? k' then Some v else dict_get d' k
  end.

(** [d[k] = v]: an existing key keeps its place, a new key goes last. *)
Fixpoint dict_set (d : list (N * V)) (k : N) (v : V) : list (N * V) :=
  match d with
  | [] => [(k, v)]
  | (k', v') :: d' =>
      if k =? k' then (k, v) :: d' else (k', v') :: dict_set d' k v
  end.

(** [del d[k]] *)
Definition dict_del (d : list (N * V)) (k : N) : list (N * V) :=
  List.filter (fun kv => negb (fst kv =? k)) d.

Definition dict_keys (d : list (N * V)) : list N := map fst d.
Definition dict_values (d : list (N * V)) : list V := map snd d.
End Dict.

Abbreviation pdict := (list (N * loc)).

(** [max(keys)] of a non-empty sequence. *)
Definition py_max (l : list N) : N :=
  match l with
  | [] => 0
  | k :: ks => fold_left N.max ks k
  end.

(** [sorted(l, key=key)]: a stable sort, here by insertion. *)
Section StableSort.
Context {A : Type} (key : A -> N).

Fixpoint insert_sorted (x : A) (l : list A) : list A :=
  match l with
  | [] => [x]
  | y :: l' =>
      if key x <=? key y then x :: y :: l' else y :: insert_sorted x l'
  end.

Definition sorted (l : list A) : list A := foldr insert_sorted [] l.
End StableSort.

(** ** Delta save parser (lines 205-484) *)

Definition in_list (x : N) (l : list N) : bool := existsb (N.eqb x) l.

(** The dict comprehension [{p["myID"]: p.copy() for p in existing_pokemon}]
    of line 242: every record of the caller's list is copied into a new
    object, and the working set refers to the copies. *)
Fixpoint copy_roster (existing_pokemon : list loc) (pokemon_by_id : pdict)
    (h : heap) : pdict * heap :=
  match existing_pokemon with
  | [] => (pokemon_by_id, h)
  | p :: rest =>
      let key := myID (deref h p) in
      let '(c, h) := alloc h (deref h p) in
      copy_roster rest (dict_set pokemon_by_id key c) h
  end.

(** [max(pokemon_by_id.keys()) if pokemon_by_id else 0] (line 295). *)
Definition max_id (pokemon_by_id : pdict) : N :=
  match pokemon_by_id with
  | [] => 0
  | _ => py_max (dict_keys pokemon_by_id)
  end.

(** [for _ in range(n): _, i = read_int(extra, i) if _ not in doubles
    else read_int2(extra, i)] (lines 308-309, 316-317, 323-324). *)
Definition skip_fields (extra : pystr) (n : nat) (doubles : list N) (i : N)
  : N :=
  fold_left
    (fun i idx =>
       if negb (in_list idx doubles) then snd (read_int extra i)
       else snd (read_int2 extra i))
    (map N.of_nat (seq 0 n)) i.

(** Payload skipping of the [should_skip] branch (lines 307-324). *)
Definition skip_payload (extra : pystr) (change_type i : N) : N :=
  if change_type =? 1 then
    let i := skip_fields extra 11 [1; 9] i in
    snd (read_string extra i)
  else if change_type =? 2 then snd (read_int extra i)
  else if change_type =? 3 then snd (read_int2 extra i)
  else if change_type =? 4 then skip_fields extra 4 [] i
  else if in_list change_type [5; 6; 7; 8] then snd (read_int extra i)
  else if change_type =? 9 then snd (read_string extra i)
  else if change_type =? 10 then skip_fields extra 10 [1] i
  else i.

(** Payload skipping of the unknown-myID branch (lines 365-370). *)
Definition skip_unknown_payload (extra : pystr) (ct i : N) : N :=
  if ct =? 2 then snd (read_int extra i)
  else if ct =? 3 then snd (read_int2 extra i)
  else if ct =? 4 then skip_fields extra 4 [] i
  else if in_list ct [5; 6; 7; 8] then snd (read_int extra i)
  else if ct =? 9 then snd (read_string extra i)
  else i.

(** [for _ in range(change_count): change_type, i = read_int(extra, i);
    <skip the payload>] (lines 305-306 and 363-364). *)
Fixpoint skip_loop (payload : pystr -> N -> N -> N) (n : nat) (extra : pystr)
    (i : N) : N :=
  match n with
  | O => i
  | S n' =>
      let '(change_type, i) := read_int extra i in
      skip_loop payload n' extra (payload extra change_type i)
  end.

(** The search of lines 344-352: the first item, in insertion order, whose
    position or key equals [new_position]. *)
Fixpoint find_reassign (items : pdict) (h : heap) (new_position : N)
  : option (N * loc) :=
  match items with
  | [] => None
  | (old_id, poke) :: rest =>
      if (position (deref h poke) =? new_position) || (old_id =? new_position)
      then Some (old_id, poke)
      else find_reassign rest h new_position
  end.

(** The body of one change (lines 385-471), on the record [poke]. *)
Definition apply_change (extra : pystr) (change_type i : N) (poke : pokemon)
  : pokemon * N :=
  if change_type =? 1 then
    let '(v, i) := read_int extra i in let poke := set_species v poke in
    let '(v, i) := read_int2 extra i in let poke := set_experience v poke in
    let '(v, i) := read_int extra i in let poke := set_level v poke in
    let '(v, i) := read_int extra i in let poke := set_move1 v poke in
    let '(v, i) := read_int extra i in let poke := set_move2 v poke in
    let '(v, i) := read_int extra i in let poke := set_move3 v poke in
    let '(v, i) := read_int extra i in let poke := set_move4 v poke in
    let '(v, i) := read_int extra i in let poke := set_moveSelected v poke in
    let '(v, i) := read_int extra i in let poke := set_targetType v poke in
    let '(v, i) := read_int extra i in let poke := set_position v poke in
    let '(extra_rarity, i) := read_int extra i in
    let '(v, i) := read_string extra i in let poke := set_tag v poke in
    let poke :=
      if in_list extra_rarity [1; 2; 3; 4; 5; 6; 151; 153; 168; 182; 854]
      then set_shiny 1 poke
      else if in_list extra_rarity [180; 555; 855] then set_shiny 2 poke
      else if extra_rarity =? species poke then set_shiny 1 poke
      else set_shiny 0 poke in
    (poke, i)
  else if change_type =? 2 then
    let '(v, i) := read_int extra i in (set_level v poke, i)
  else if change_type =? 3 then
    let '(v, i) := read_int2 extra i in (set_experience v poke, i)
  else if change_type =? 4 then
    let '(v, i) := read_int extra i in let poke := set_move1 v poke in
    let '(v, i) := read_int extra i in let poke := set_move2 v poke in
    let '(v, i) := read_int extra i in let poke := set_move3 v poke in
    let '(v, i) := read_int extra i in let poke := set_move4 v poke in
    (poke, i)
  else if change_type =? 5 then
    let '(v, i) := read_int extra i in (set_moveSelected v poke, i)
  else if change_type =? 6 then
    let '(v, i) := read_int extra i in (set_species v poke, i)
  else if change_type =? 7 then
    let '(v, i) := read_int extra i in (set_targetType v poke, i)
  else if change_type =? 8 then
    let '(v, i) := read_int extra i in (set_position v poke, i)
  else if change_type =? 9 then
    let '(v, i) := read_string extra i in (set_tag v poke, i)
  else if change_type =? 10 then
    let '(v, i) := read_int extra i in let poke := set_species v poke in
    let '(v, i) := read_int2 extra i in let poke := set_experience v poke in
    let '(v, i) := read_int extra i in let poke := set_level v poke in
    let '(v, i) := read_int extra i in let poke := set_move1 v poke in
    let '(v, i) := read_int extra i in let poke := set_move2 v poke in
    let '(v, i) := read_int extra i in let poke := set_move3 v poke in
    let '(v, i) := read_int extra i in let poke := set_move4 v poke in
    let '(v, i) := read_int extra i in let poke := set_moveSelected v poke in
    let '(v, i) := read_int extra i in let poke := set_targetType v poke in
    let '(v, i) := read_int extra i in let poke := set_position v poke in
    (poke, i)
  else (poke, i).

(** [for change_idx in range(change_count)] (lines 377-471); [poke] is the
    address of the record being edited, every assignment goes to the
    store. *)
Fixpoint apply_changes (n : nat) (extra : pystr) (i : N) (poke : loc)
    (h : heap) : N * heap :=
  match n with
  | O => (i, h)
  | S n' =>
      if len extra <=? i then (i, h)
      else
        let '(change_type, i) := read_int extra i in
        let '(p, i) := apply_change extra change_type i (deref h poke) in
        apply_changes n' extra i poke (store h poke p)
  end.

(** How one iteration of the [while] loop ends: with the next iteration
    ([continue] or falling off the end of the body) or by leaving the loop
    ([break], or an exception caught by the [except] clause, after which
    the function goes on to the final filter with the working set as it
    is). *)
Inductive loop_ctl : Type :=
  | Continue (i : N) (pokemon_by_id : pdict) (h : heap)
  | Break (pokemon_by_id : pdict) (h : heap).

(** Lines 373-471: [poke = pokemon_by_id[my_id]], ensure [myID], apply
    the changes. *)
Definition process_changes (extra : pystr) (change_count my_id i : N)
    (pokemon_by_id : pdict) (h : heap) : loop_ctl :=
  match dict_get pokemon_by_id my_id with
  | None => Break pokemon_by_id h
  | Some poke =>
      let h := store h poke (set_myID my_id (deref h poke)) in
      let '(i, h) := apply_changes (N.to_nat change_count) extra i poke h in
      Continue i pokemon_by_id h
  end.

(** One iteration of [while i < len(extra)] (lines 260-471). *)
Definition entry (extra : pystr) (i : N) (pokemon_by_id : pdict) (h : heap)
  : loop_ctl :=
  let change_count_len := decode_int_string (char_at extra i) in
  let i := i + 1 in
  if len extra <? i + change_count_len then Break pokemon_by_id h
  else
    let change_count :=
      decode_int_string (slice extra i (i + change_count_len)) in
    let i := i + change_count_len in
    if change_count =? 0 then Continue i pokemon_by_id h
    else
      let '(my_id, i) := read_int2 extra i in
      (* both peeks read the same place *)
      let first_change_type := fst (read_int extra i) in
      let '(my_id, should_skip) :=
        if my_id =? 0 then
          if first_change_type =? 1
          then (max_id pokemon_by_id + 1, false)
          else (my_id, true)
        else (my_id, false) in
      if should_skip : bool then
        Continue (skip_loop skip_payload (N.to_nat change_count) extra i)
          pokemon_by_id h
      else
        match dict_get pokemon_by_id my_id with
        | Some _ => process_changes extra change_count my_id i pokemon_by_id h
        | None =>
            if first_change_type =? 1 then
              let '(p, h) := alloc h (default_pokemon my_id) in
              let pokemon_by_id := dict_set pokemon_by_id my_id p in
              process_changes extra change_count my_id i pokemon_by_id h
            else if first_change_type =? 8 then
              let temp_i := snd (read_int extra i) in
              let new_position := fst (read_int extra temp_i) in
              match find_reassign pokemon_by_id h new_position with
              | Some (old_id, poke) =>
                  let pokemon_by_id := dict_del pokemon_by_id old_id in
                  let h := store h poke (set_myID my_id (deref h poke)) in
                  let pokemon_by_id := dict_set pokemon_by_id my_id poke in
                  process_changes extra change_count my_id i pokemon_by_id h
              | None =>
                  let i := snd (read_int extra i) in
                  let i := snd (read_int extra i) in
                  Continue i pokemon_by_id h
              end
            else
              Continue
                (skip_loop skip_unknown_payload (N.to_nat change_count) extra i)
                pokemon_by_id h
        end.

(** [while i < len(extra)]; [None] only when the fuel runs out, which
    [entries_total] excludes for the fuel [parse_delta_save] gives. *)
Fixpoint entries (fuel : nat) (extra : pystr) (i : N) (pokemon_by_id : pdict)
    (h : heap) : option (pdict * heap) :=
  if len extra <=? i then Some (pokemon_by_id, h)
  else
    match fuel with
    | O => None
    | S fuel' =>
        match entry extra i pokemon_by_id h with
        | Break pokemon_by_id h => Some (pokemon_by_id, h)
        | Continue i pokemon_by_id h => entries fuel' extra i pokemon_by_id h
        end
    end.

(** The body of the [try] block: header, count, entries.  An [IndexError]
    on [extra[i]] leaves through the [except] clause with the working set
    unchanged. *)
Definition try_body (fuel : nat) (extra : pystr) (pokemon_by_id : pdict)
    (h : heap) : option (pdict * heap) :=
  let i := 0 in
  match py_index extra i with
  | None => Some (pokemon_by_id, h)
  | Some c =>
      let header_len := decode_int_string c in
      let i := i + (1 + header_len) in
      match py_index extra i with
      | None => Some (pokemon_by_id, h)
      | Some c =>
          let count_len := decode_int_string c in
          let i := i + 1 in
          let poke_count := decode_int_string (slice extra i (i + count_len)) in
          let i := i + count_len in
          entries fuel extra i pokemon_by_id h
      end
  end.

(** Lines 478-484.  Every record has a ["position"] item, so the default
    of [p.get("position", ..)] is not used. *)
Definition finish (pokemon_by_id : pdict) (h : heap) : list loc :=
  let valid_pokemon :=
    List.filter (fun kv => 0 <? fst kv) pokemon_by_id in
  sorted (fun p => position (deref h p)) (dict_values valid_pokemon).

(** [parse_delta_save(extra, existing_pokemon)] in the store [h]: the
    returned list of records (addresses) and the store afterwards. *)
Definition parse_delta_save (extra : pystr) (existing_pokemon : list loc)
    (h : heap) : option (list loc * heap) :=
  if len extra <? 4 then Some (existing_pokemon, h)
  else
    let '(pokemon_by_id, h) := copy_roster existing_pokemon [] h in
    match try_body (S (length extra)) extra pokemon_by_id h with
    | None => None
    | Some (pokemon_by_id, h) => Some (finish pokemon_by_id h, h)
    end.

(** ** Key/value blobs (lines 548-594) *)

Definition encode_kv_blob (kv_dict : list (N * N)) : pystr :=
  match kv_dict with
  | [] => lit "yqym"
  | _ =>
      let '(data, count) :=
        fold_left
          (fun '(data, count) '(k, v) =>
             (data ++ encode_with_length k ++ encode_with_length v, count + 1))
          kv_dict ([], 0) in
      let count_encoded := encode_int count in
      let count_len := encode_int (len count_encoded) in
      let data := count_len ++ count_encoded ++ data in
      let total_len := len data in
      let header := encode_int total_len in
      let header_len := encode_int (len header) in
      header_len ++ header ++ data
  end.

(** [for _ in range(count): k, i = read_int(..); v, i = read_int(..);
    result[k] = v] *)
Fixpoint parse_kv_loop (n : nat) (blob : pystr) (i : N) (result : list (N * N))
  : list (N * N) :=
  match n with
  | O => result
  | S n' =>
      let '(k, i) := read_int blob i in
      let '(v, i) := read_int blob i in
      parse_kv_loop n' blob i (dict_set result k v)
  end.

Definition parse_kv_blob (blob : pystr) : list (N * N) :=
  if len blob <? 4 then []
  else
    let result := [] in
    let i := 0 in
    match py_index blob i with
    | None => result
    | Some c =>
        let header_len := decode_int_string c in
        let i := i + (1 + header_len) in
        match py_index blob i with
        | None => result
        | Some c =>
            let count_len := decode_int_string c in
            let i := i + 1 in
            let count := decode_int_string (slice blob i (i + count_len)) in
            let i := i + count_len in
            parse_kv_loop (N.to_nat count) blob i result
        end
    end.

(** ** Vocabulary of the statements *)

(** Some character of [s] is not one of the ten letters. *)
Definition outside_alphabet (s : pystr) : Prop :=
  Exists (fun c => ~ In c LETTER_LIST) s.

(** The rarity rules in the words of the specification (section 4.3.1),
    to be compared with what [apply_change] stores on a capture. *)
Definition shiny_markers : list N :=
  [1; 2; 3; 4; 5; 6; 151; 153; 168; 182; 854].
Definition shadow_markers : list N := [180; 555; 855].

Definition rarity_spec (extraRarity species : N) : N :=
  if in_dec N.eq_dec extraRarity shiny_markers then 1
  else if in_dec N.eq_dec extraRarity shadow_markers then 2
  else if N.eq_dec extraRarity species then 1
  else 0.

(** The element records of a key/value blob, in item order. *)
Definition kv_data (kv_dict : list (N * N)) : pystr :=
  flat_map (fun '(k, v) => encode_with_length k ++ encode_with_length v)
    kv_dict.

(** The working set of the parser in the store: every record it refers to
    was allocated after the first [n0] objects of the store, and is filed
    under its own [myID]. *)
Definition owned (n0 : nat) (pokemon_by_id : pdict) (h : heap) : Prop :=
  Forall
    (fun kl =>
       (n0 <= snd kl < length h)%nat /\ myID (deref h (snd kl)) = fst kl)
    pokemon_by_id.

(** The first [length h0] objects of the store [h] are those of [h0]. *)
Definition frame (h0 h : heap) : Prop := take (length h0) h = h0.

(** ** Sample inputs *)

(** The envelope around a body, written the way [encode_kv_blob] writes
    its header (lines 564-568): length of the header, header (length of
    the body), body. *)
Definition envelope (body : pystr) : pystr :=
  let H := encode_int (len body) in
  encode_int (len H) ++ H ++ body.

(** The payload of a needCaptured change, in the order [apply_change]
    reads it. *)
Definition capture_payload (sp ex lv m1 m2 m3 m4 ms tt pos er : N)
    (tg : pystr) : pystr :=
  encode_with_length sp ++ encode_with_double_length ex
  ++ encode_with_length lv ++ encode_with_length m1
  ++ encode_with_length m2 ++ encode_with_length m3
  ++ encode_with_length m4 ++ encode_with_length ms
  ++ encode_with_length tt ++ encode_with_length pos
  ++ encode_with_length er ++ encode_int (len tg) ++ tg.

(** The payload of a needTrade change. *)
Definition trade_payload (sp ex lv m1 m2 m3 m4 ms tt pos : N) : pystr :=
  encode_with_length sp ++ encode_with_double_length ex
  ++ encode_with_length lv ++ encode_with_length m1
  ++ encode_with_length m2 ++ encode_with_length m3
  ++ encode_with_length m4 ++ encode_with_length ms
  ++ encode_with_length tt ++ encode_with_length pos.

(** An entry header: change count and myID. *)
Definition entry_header (change_count my_id : N) : pystr :=
  encode_with_length change_count ++ encode_with_double_length my_id.

(** Two captures that carry their own myID (5, then 3) and the same
    position 1. *)
Definition two_captures_delta : pystr :=
  envelope
    (encode_with_length 2
     ++ entry_header 1 5 ++ encode_with_length 1
     ++ capture_payload 1 0 5 33 0 0 0 1 1 1 0 (lit "A")
     ++ entry_header 1 3 ++ encode_with_length 1
     ++ capture_payload 4 0 5 33 0 0 0 1 1 1 0 (lit "B")).

(** The first capture of the specification's scenario 2: one entry, one
    change, myID 0. *)
Definition first_capture_delta : pystr :=
  envelope
    (encode_with_length 1
     ++ entry_header 1 0 ++ encode_with_length 1
     ++ capture_payload 1 0 5 33 0 0 0 1 1 1 0 (lit "Bulba")).

(** A single entry for the unknown myID 7 whose only change is a
    needTrade (type 10). *)
Definition unknown_trade_delta : pystr :=
  envelope
    (encode_with_length 1
     ++ entry_header 1 7 ++ encode_with_length 10
     ++ trade_payload 1 1 2 99 0 0 0 1 1 1).

(** Scenario 3 of the specification: one entry for myID 1 with a single
    needEvolve change to species 2. *)
Definition evolve_delta : pystr :=
  envelope
    (encode_with_length 1
     ++ entry_header 1 1 ++ encode_with_length 6 ++ encode_with_length 2).

(** Scenario 5 of the specification: an entry with myID 0 whose first
    change is a needLevel, followed by a valid capture. *)
Definition invalid_then_capture_delta : pystr :=
  envelope
    (encode_with_length 1
     ++ entry_header 1 0 ++ encode_with_length 2 ++ encode_with_length 50
     ++ entry_header 1 0 ++ encode_with_length 1
     ++ capture_payload 1 0 5 33 0 0 0 1 1 1 180 (lit "Bulba")).

(** ** Full snapshot encoder (lines 491-545) *)

(** Lines 517-526: the optional item ["extra_rarity"] of the record
    ([stored]; [None] when the dict has no such key, which is the case of
    every record the parser or [default_pokemon] makes), with its fallback
    to the ["shiny"] item. *)
Definition snapshot_extra_rarity (stored : option N) (poke : pokemon) : N :=
  match stored with
  | Some extra_rarity => extra_rarity
  | None =>
      let shiny := shiny poke in
      if shiny =? 1 then 1
      else if shiny =? 2 then 180
      else 0
  end.

(** What one iteration of [for poke in pokemon_list] appends to
    [pokemon_data] (lines 504-532). *)
Definition snapshot_record (poke : pokemon) (stored : option N) : pystr :=
  encode_with_length (species poke)
  ++ encode_with_double_length (experience poke)
  ++ encode_with_length (level poke)
  ++ encode_with_length (move1 poke)
  ++ encode_with_length (move2 poke)
  ++ encode_with_length (move3 poke)
  ++ encode_with_length (move4 poke)
  ++ encode_with_length (moveSelected poke)
  ++ encode_with_length (targetType poke)
  ++ encode_with_double_length (myID poke)
  ++ encode_with_length (position poke)
  ++ encode_with_length (snapshot_extra_rarity stored poke)
  ++ encode_int (len (tag poke)) ++ tag poke.

(** [encode_pokemon_snapshot(pokemon_list)]; a record of the list is given
    with its optional ["extra_rarity"] item. *)
Definition encode_pokemon_snapshot (pokemon_list : list (pokemon * option N))
  : pystr :=
  match pokemon_list with
  | [] => lit "yqym"
  | _ =>
      let pokemon_data :=
        fold_left
          (fun pokemon_data '(poke, stored) =>
             pokemon_data ++ snapshot_record poke stored)
          pokemon_list [] in
      let count := len pokemon_list in
      let count_encoded := encode_int count in
      let count_len := encode_int (len count_encoded) in
      let pokemon_data := count_len ++ count_encoded ++ pokemon_data in
      let total_len := len pokemon_data in
      let header := encode_int total_len in
      let header_len := encode_int (len header) in
      header_len ++ header ++ pokemon_data
  end.

(** ** Helper functions (lines 601-602) *)

(** [s.replace(old, new)] for a one-character [old]. *)
Definition replace_char (old : ascii) (new : pystr) (s : pystr) : pystr :=
  flat_map (fun c => if Ascii.eqb c old then new else [c]) s.

Definition safe_email (email : pystr) : pystr :=
  replace_char "." (lit "_") (replace_char "@" (lit "_at_") email).

(** ** More vocabulary *)

(** A string of alphabet letters that [encode_int] can produce: not
    empty, and with no leading zero letter unless it is the one letter
    ["m"]. *)
Definition canonical (s : pystr) : Prop :=
  s <> []
  /\ Forall (fun c => In c LETTER_LIST) s
  /\ (forall s', s = "m"%char :: s' -> s' = []).

(** ** The interpreter's limit on decimal conversions *)

(** [sys.int_info.default_max_str_digits]: [str] of an integer of more
    decimal digits and [int] of a string of more digit characters raise
    [ValueError].  The server never changes the limit.  The functions
    above give the value a conversion has when it is within the limit;
    the functions below add the exception. *)
Definition max_str_digits : N := 4300.

(** [str(n)] for [n >= 0]. *)
Definition str_checked (n : N) : outcome pystr :=
  if max_str_digits <? len (str n) then Raised else Returned (str n).

(** [int(digits)] for a string of decimal digits; leading zeros count. *)
Definition int_checked (digits : pystr) : outcome N :=
  if max_str_digits <? len digits then Raised
  else Returned (int_of_digits digits).

Definition decode_int_string_checked (s : pystr) : outcome N :=
  match s with
  | [] => Returned 0
  | _ =>
      match decode_loop s [] with
      | None => Returned 0
      | Some [] => Returned 0
      | Some digits => int_checked digits
      end
  end.

Definition encode_int_checked (n : N) : outcome pystr :=
  match str_checked n with
  | Raised => Raised
  | Returned digits =>
      Returned
        (fold_left (fun result digit => result ++ [digit_to_letter digit])
           digits [])
  end.

Definition read_int2_checked (blob : pystr) (i : N) : outcome (N * N) :=
  if len blob <=? i then Returned (0, i)
  else
    match decode_int_string_checked (char_at blob i) with
    | Raised => Raised
    | Returned len_len =>
        let i := i + 1 in
        if len blob <? i + len_len then Returned (0, i)
        else
          match decode_int_string_checked (slice blob i (i + len_len)) with
          | Raised => Raised
          | Returned length =>
              let i := i + len_len in
              if len blob <? i + length then Returned (0, i)
              else
                match
                  decode_int_string_checked (slice blob i (i + length))
                with
                | Raised => Raised
                | Returned value => Returned (value, i + length)
                end
          end
    end.

Definition encode_with_double_length_checked (n : N) : outcome pystr :=
  match encode_int_checked n with
  | Raised => Raised
  | Returned encoded =>
      match encode_int_checked (len encoded) with
      | Raised => Raised
      | Returned len1 =>
          match encode_int_checked (len len1) with
          | Raised => Raised
          | Returned len2 => Returned (len2 ++ len1 ++ encoded)
          end
      end
  end.

(** The working set [pokemon_by_id] as the [try] statement leaves it
    (line 478), for a delta of at least four characters. *)
Definition final_working_set (extra : pystr) (existing_pokemon : list loc)
    (h : heap) : option (pdict * heap) :=
  let '(pokemon_by_id, h) := copy_roster existing_pokemon [] h in
  try_body (S (length extra)) extra pokemon_by_id h.

(** * Properties *)

(** ** Sanity checks *)

Example str_1234 : str 1234 = lit "1234" /\ str 0 = lit "0".
Proof. split; reflexivity. Qed.

Example encode_1234 :
  encode_int 1234 = lit "ywcq" /\ decode_int_string (lit "ywcq") = 1234.
Proof. split; reflexivity. Qed.

Example encode_with_length_180 :
  encode_with_length 180 = lit "cyem"
  /\ encode_with_double_length 180 = lit "ycyem".
Proof. split; reflexivity. Qed.

Example empty_kv_blob :
  encode_kv_blob [] = lit "yqym" /\ parse_kv_blob (lit "yqym") = [].
Proof. split; reflexivity. Qed.

Example profile_id_sample :
  compute_profile_id (lit "abcdefghij1234") 1000
  = Returned (Some (lit "skjjjj")).
Proof. reflexivity. Qed.

Example unknown_trade_delta_text :
  unknown_trade_delta = lit "wcwyyyyyyrwymyyyyyywwooymymymyyyyyy".
Proof. reflexivity. Qed.

(** ** Strings and decimal conversions *)

Lemma len_app {A} (a b : list A) : len (a ++ b) = len a + len b.
Proof. unfold len. rewrite length_app. lia. Qed.

Lemma len_nil {A} : len (@nil A) = 0.
Proof. reflexivity. Qed.

Lemma len_cons {A} (x : A) l : len (x :: l) = 1 + len l.
Proof. unfold len. simpl. lia. Qed.

Lemma slice_app_mid (p e q : pystr) :
  slice (p ++ e ++ q) (len p) (len p + len e) = e.
Proof.
  unfold slice, len.
  replace (N.to_nat (N.of_nat (length p) + N.of_nat (length e)
                     - N.of_nat (length p)))
    with (length e) by lia.
  rewrite Nat2N.id, drop_app_length, take_app_length. reflexivity.
Qed.

Lemma char_at_app (p : pystr) (c : ascii) (q : pystr) :
  char_at (p ++ c :: q) (len p) = [c].
Proof.
  unfold char_at.
  change (c :: q) with ([c] ++ q).
  apply (slice_app_mid p [c] q).
Qed.

Lemma str_fuel_indep (f : nat) :
  forall (n : N) (f' : nat),
    n < 2 ^ N.of_nat f * 2 -> n < 2 ^ N.of_nat f' * 2 ->
    str_fuel (S f) n = str_fuel (S f') n.
Proof.
  induction f as [|f IH]; intros n f' Hf Hf'.
  - simpl in Hf. simpl. destruct (n <? 10) eqn:E; [reflexivity|].
    apply N.ltb_ge in E. lia.
  - simpl. destruct (n <? 10) eqn:E; [reflexivity|].
    apply N.ltb_ge in E.
    destruct f' as [|f'].
    { simpl in Hf'. lia. }
    f_equal.
    rewrite Nat2N.inj_succ, N.pow_succ_r' in Hf, Hf'.
    apply IH; apply N.Div0.div_lt_upper_bound; lia.
Qed.

Lemma lt_pow2_log2 (n : N) : n < 2 ^ N.of_nat (N.to_nat (N.log2 n)) * 2.
Proof.
  rewrite N2Nat.id.
  destruct (N.eq_dec n 0) as [->|Hn]; [reflexivity|].
  pose proof (N.log2_spec n ltac:(lia)) as [_ H].
  rewrite N.pow_succ_r' in H. lia.
Qed.

Lemma str_unfold (n : N) :
  str n = if n <? 10 then [digit_char n]
          else str (n / 10) ++ [digit_char (n mod 10)].
Proof.
  unfold str at 1. simpl.
  destruct (n <? 10) eqn:E; [reflexivity|].
  apply N.ltb_ge in E. f_equal.
  pose proof (lt_pow2_log2 n) as Hn.
  destruct (N.to_nat (N.log2 n)) as [|k] eqn:Ek.
  { simpl in Hn. lia. }
  unfold str. apply str_fuel_indep.
  - rewrite Nat2N.inj_succ, N.pow_succ_r' in Hn.
    apply N.Div0.div_lt_upper_bound. lia.
  - apply lt_pow2_log2.
Qed.

(** Induction along the decimal digits of a number. *)
Lemma decimal_ind (P : N -> Prop) :
  (forall n, n < 10 -> P n) ->
  (forall n, 10 <= n -> P (n / 10) -> P n) ->
  forall n, P n.
Proof.
  intros Hsmall Hbig n.
  induction n as [n IH] using (well_founded_induction N.lt_wf_0).
  destruct (N.lt_ge_cases n 10) as [H|H]; [auto|].
  apply Hbig; [exact H|].
  apply IH. apply N.Div0.div_lt_upper_bound. lia.
Qed.

Lemma str_small (n : N) : n < 10 -> str n = [digit_char n].
Proof. intros H. rewrite str_unfold. apply N.ltb_lt in H. now rewrite H. Qed.

Lemma str_big (n : N) :
  10 <= n -> str n = str (n / 10) ++ [digit_char (n mod 10)].
Proof. intros H. rewrite str_unfold. apply N.ltb_ge in H. now rewrite H. Qed.

Lemma str_nonempty (n : N) : str n <> [].
Proof.
  rewrite str_unfold. destruct (n <? 10); [discriminate|].
  intros H. apply app_eq_nil in H. destruct H; discriminate.
Qed.

Lemma digit_val_char (d : N) : d < 10 -> digit_val (digit_char d) = d.
Proof.
  intros H. unfold digit_val, digit_char.
  rewrite N_ascii_embedding by lia. lia.
Qed.

Lemma int_of_digits_snoc (s : pystr) (c : ascii) :
  int_of_digits (s ++ [c]) = 10 * int_of_digits s + digit_val c.
Proof. unfold int_of_digits. rewrite fold_left_app. reflexivity. Qed.

Lemma int_of_digits_str (n : N) : int_of_digits (str n) = n.
Proof.
  induction n as [n H|n H IH] using decimal_ind.
  - rewrite str_small by exact H. unfold int_of_digits. simpl.
    rewrite digit_val_char by exact H. lia.
  - rewrite str_big by exact H. rewrite int_of_digits_snoc, IH.
    rewrite digit_val_char by (apply N.mod_lt; lia).
    pose proof (N.div_mod n 10 ltac:(lia)). lia.
Qed.

(** Every character of [str n] is a decimal digit. *)
Lemma str_digits (n : N) :
  Forall (fun c => exists d, d < 10 /\ c = digit_char d) (str n).
Proof.
  induction n as [n H|n H IH] using decimal_ind.
  - rewrite str_small by exact H. repeat constructor. eauto.
  - rewrite str_big by exact H. apply Forall_app. split; [exact IH|].
    repeat constructor. exists (n mod 10).
    split; [apply N.mod_lt; lia|reflexivity].
Qed.

Lemma length_str_bound (k : nat) (n : N) :
  n < 10 ^ N.of_nat (S k) -> (length (str n) <= S k)%nat.
Proof.
  revert n. induction k as [|k IH]; intros n H.
  - rewrite str_small by (simpl in H; lia). simpl. lia.
  - destruct (N.lt_ge_cases n 10) as [Hs|Hb].
    + rewrite str_small by exact Hs. simpl. lia.
    + rewrite str_big by exact Hb. rewrite length_app. simpl.
      rewrite Nat2N.inj_succ, N.pow_succ_r' in H.
      assert (Hq : n / 10 < 10 ^ N.of_nat (S k))
        by (apply N.Div0.div_lt_upper_bound; lia).
      specialize (IH _ Hq). lia.
Qed.

Lemma is_digit_char (d : N) : d < 10 -> is_digit (digit_char d) = true.
Proof.
  intros H. unfold is_digit, digit_char.
  rewrite N_ascii_embedding by lia.
  apply andb_true_iff. split; apply N.leb_le; lia.
Qed.

(** ** The digit alphabet *)

Lemma digit_cases (d : N) :
  d < 10 ->
  d = 0 \/ d = 1 \/ d = 2 \/ d = 3 \/ d = 4 \/ d = 5 \/ d = 6 \/ d = 7
  \/ d = 8 \/ d = 9.
Proof. lia. Qed.

(** [DIGIT_TO_LETTER] has an entry for every decimal digit. *)
Lemma digit_to_letter_total (d : N) :
  d < 10 -> assoc (digit_char d) DIGIT_TO_LETTER <> None.
Proof.
  intros H.
  destruct (digit_cases d H)
    as [->|[->|[->|[->|[->|[->|[->|[->|[->| ->]]]]]]]]];
    discriminate.
Qed.

Lemma letter_to_digit_inv (d : N) :
  d < 10 ->
  assoc (digit_to_letter (digit_char d)) LETTER_TO_DIGIT = Some (digit_char d).
Proof.
  intros H.
  destruct (digit_cases d H)
    as [->|[->|[->|[->|[->|[->|[->|[->|[->| ->]]]]]]]]];
    reflexivity.
Qed.

Lemma fold_left_snoc_map {A B} (f : A -> B) (l : list A) (acc : list B) :
  fold_left (fun result x => result ++ [f x]) l acc = acc ++ map f l.
Proof.
  revert acc. induction l as [|x l IH]; intros acc; simpl.
  - now rewrite app_nil_r.
  - rewrite IH, <- app_assoc. reflexivity.
Qed.

Lemma encode_int_map (n : N) : encode_int n = map digit_to_letter (str n).
Proof. exact (fold_left_snoc_map digit_to_letter (str n) []). Qed.

Lemma length_encode_int (n : N) : length (encode_int n) = length (str n).
Proof. rewrite encode_int_map. apply length_map. Qed.

Lemma encode_int_nonempty (n : N) : encode_int n <> [].
Proof.
  rewrite encode_int_map. pose proof (str_nonempty n).
  destruct (str n); [congruence|discriminate].
Qed.

Lemma decode_loop_letters (ds digits : pystr) :
  Forall (fun c => exists d, d < 10 /\ c = digit_char d) ds ->
  decode_loop (map digit_to_letter ds) digits = Some (digits ++ ds).
Proof.
  intros H. revert digits.
  induction H as [|c ds (d & Hd & ->) _ IH]; intros digits;
    cbn [map decode_loop].
  - now rewrite app_nil_r.
  - rewrite letter_to_digit_inv by exact Hd.
    rewrite IH, <- app_assoc. reflexivity.
Qed.

Lemma decode_int_string_letters (ds : pystr) :
  Forall (fun c => exists d, d < 10 /\ c = digit_char d) ds ->
  decode_int_string (map digit_to_letter ds) = int_of_digits ds.
Proof.
  intros H. destruct ds as [|c ds]; [reflexivity|].
  unfold decode_int_string. cbn [map].
  change (digit_to_letter c :: map digit_to_letter ds)
    with (map digit_to_letter (c :: ds)).
  rewrite decode_loop_letters by exact H.
  reflexivity.
Qed.

Lemma decode_int_string_encode_int (n : N) :
  decode_int_string (encode_int n) = n.
Proof.
  rewrite encode_int_map, decode_int_string_letters by apply str_digits.
  apply int_of_digits_str.
Qed.

(** ** Length-prefixed readers *)

Lemma slice_after_char (p : pystr) (c : ascii) (e q : pystr) :
  slice (p ++ c :: e ++ q) (len p + 1) (len p + 1 + len e) = e.
Proof.
  replace (p ++ c :: e ++ q) with ((p ++ [c]) ++ e ++ q)
    by (rewrite <- app_assoc; reflexivity).
  replace (len p + 1) with (len (p ++ [c]))
    by (rewrite len_app; reflexivity).
  apply slice_app_mid.
Qed.

Lemma read_int_at (p : pystr) (c : ascii) (e q : pystr) :
  decode_int_string [c] = len e ->
  read_int (p ++ c :: e ++ q) (len p)
  = (decode_int_string e, len p + 1 + len e).
Proof.
  intros Hc. unfold read_int.
  assert (Hlen : len (p ++ c :: e ++ q) = len p + 1 + len e + len q)
    by (rewrite len_app, len_cons, len_app; lia).
  destruct (N.leb_spec (len (p ++ c :: e ++ q)) (len p)); [lia|].
  rewrite char_at_app, Hc.
  destruct (N.ltb_spec (len (p ++ c :: e ++ q)) (len p + 1 + len e)); [lia|].
  rewrite slice_after_char. reflexivity.
Qed.

Lemma read_string_at (p : pystr) (c : ascii) (e q : pystr) :
  decode_int_string [c] = len e ->
  read_string (p ++ c :: e ++ q) (len p) = (e, len p + 1 + len e).
Proof.
  intros Hc. unfold read_string.
  assert (Hlen : len (p ++ c :: e ++ q) = len p + 1 + len e + len q)
    by (rewrite len_app, len_cons, len_app; lia).
  destruct (N.leb_spec (len (p ++ c :: e ++ q)) (len p)); [lia|].
  rewrite char_at_app, Hc.
  destruct (N.ltb_spec (len (p ++ c :: e ++ q)) (len p + 1 + len e)); [lia|].
  rewrite slice_after_char. reflexivity.
Qed.

Lemma read_int2_at (p : pystr) (c : ascii) (l1 e q : pystr) :
  decode_int_string [c] = len l1 ->
  decode_int_string l1 = len e ->
  read_int2 (p ++ c :: l1 ++ e ++ q) (len p)
  = (decode_int_string e, len p + 1 + len l1 + len e).
Proof.
  intros Hc Hl. unfold read_int2.
  assert (Hlen : len (p ++ c :: l1 ++ e ++ q)
                 = len p + 1 + len l1 + len e + len q)
    by (rewrite len_app, len_cons, !len_app; lia).
  destruct (N.leb_spec (len (p ++ c :: l1 ++ e ++ q)) (len p)); [lia|].
  rewrite char_at_app, Hc.
  destruct (N.ltb_spec (len (p ++ c :: l1 ++ e ++ q)) (len p + 1 + len l1));
    [lia|].
  rewrite slice_after_char, Hl.
  destruct (N.ltb_spec (len (p ++ c :: l1 ++ e ++ q))
              (len p + 1 + len l1 + len e)); [lia|].
  replace (p ++ c :: l1 ++ e ++ q) with ((p ++ c :: l1) ++ e ++ q)
    by (rewrite <- app_assoc; reflexivity).
  replace (len p + 1 + len l1) with (len (p ++ c :: l1))
    by (rewrite len_app, len_cons; lia).
  rewrite slice_app_mid. reflexivity.
Qed.

Lemma encode_int_digit (m : N) :
  m < 10 -> encode_int m = [digit_to_letter (digit_char m)].
Proof. intros H. rewrite encode_int_map, str_small by exact H. reflexivity. Qed.

Lemma len_encode_int_small (n : N) : n < 10 ^ 9 -> len (encode_int n) < 10.
Proof.
  intros H. unfold len. rewrite length_encode_int.
  pose proof (length_str_bound 8 n H). lia.
Qed.

Lemma len_encode_int_pos (n : N) : 0 < len (encode_int n).
Proof.
  pose proof (encode_int_nonempty n). unfold len.
  destruct (encode_int n); [congruence|simpl; lia].
Qed.

(** ** Numbers within the conversion limit *)

Lemma len_str_le (k n : N) : 0 < k -> n < 10 ^ k -> len (str n) <= k.
Proof.
  intros Hk H. pose proof (length_str_bound (N.to_nat k - 1) n) as B.
  replace (N.of_nat (S (N.to_nat k - 1))) with k in B by lia.
  specialize (B H). unfold len. lia.
Qed.

Lemma max_str_digits_small : 0 < max_str_digits /\ max_str_digits < 10 ^ 9.
Proof. split; reflexivity. Qed.

Lemma len_str_limit (n : N) :
  n < 10 ^ max_str_digits -> len (str n) <= max_str_digits.
Proof. apply len_str_le, max_str_digits_small. Qed.

Lemma len_encode_int_limit (n : N) :
  n < 10 ^ max_str_digits -> len (encode_int n) < 10 ^ 9.
Proof.
  intros H. apply len_str_limit in H.
  unfold len in *. rewrite length_encode_int.
  eapply N.le_lt_trans; [exact H|apply max_str_digits_small].
Qed.

Lemma below_limit (n : N) : n < 10 ^ 18 -> n < 10 ^ max_str_digits.
Proof.
  intros H. eapply N.lt_le_trans; [exact H|].
  apply N.pow_le_mono_r; [discriminate|discriminate].
Qed.

(** Decides a range condition on a closed number. *)
Ltac in_range :=
  lazymatch goal with
  | |- _ < 10 ^ max_str_digits => apply below_limit; reflexivity
  | |- _ => reflexivity
  end.

(** The single-prefixed writer is a length letter followed by the digits,
    as long as the digits are at most nine. *)
Lemma encode_with_length_shape (n : N) :
  n < 10 ^ 9 ->
  exists c, encode_with_length n = c :: encode_int n
            /\ decode_int_string [c] = len (encode_int n).
Proof.
  intros H. pose proof (len_encode_int_small n H) as Hl.
  exists (digit_to_letter (digit_char (len (encode_int n)))).
  unfold encode_with_length. rewrite (encode_int_digit _ Hl).
  split; [reflexivity|].
  rewrite <- (encode_int_digit _ Hl). apply decode_int_string_encode_int.
Qed.

Lemma encode_with_double_length_shape (n : N) :
  len (encode_int n) < 10 ^ 9 ->
  exists c l1, encode_with_double_length n = c :: l1 ++ encode_int n
               /\ decode_int_string [c] = len l1
               /\ decode_int_string l1 = len (encode_int n).
Proof.
  intros H. pose proof (len_encode_int_small _ H) as Hl.
  exists (digit_to_letter (digit_char (len (encode_int (len (encode_int n)))))),
    (encode_int (len (encode_int n))).
  unfold encode_with_double_length. rewrite (encode_int_digit _ Hl).
  split; [reflexivity|]. split.
  - rewrite <- (encode_int_digit _ Hl). apply decode_int_string_encode_int.
  - apply decode_int_string_encode_int.
Qed.

Lemma read_int_encode (p q : pystr) (n : N) :
  n < 10 ^ 9 ->
  read_int (p ++ encode_with_length n ++ q) (len p)
  = (n, len p + len (encode_with_length n)).
Proof.
  intros H. destruct (encode_with_length_shape n H) as (c & -> & Hc).
  cbn [app].
  rewrite (read_int_at p c _ q Hc), decode_int_string_encode_int, len_cons.
  f_equal. lia.
Qed.

Lemma read_int2_encode (p q : pystr) (n : N) :
  len (encode_int n) < 10 ^ 9 ->
  read_int2 (p ++ encode_with_double_length n ++ q) (len p)
  = (n, len p + len (encode_with_double_length n)).
Proof.
  intros H.
  destruct (encode_with_double_length_shape n H) as (c & l1 & -> & Hc & Hl).
  cbn [app]. rewrite <- app_assoc.
  rewrite (read_int2_at p c l1 _ q Hc Hl), decode_int_string_encode_int.
  rewrite len_cons, len_app. f_equal. lia.
Qed.

(** C2 (as stated) fails: ten digits make the single length prefix two
    letters, of which [read_int] reads one. *)
Lemma read_int_ten_digits :
  read_int ([] ++ encode_with_length 1000000000) (len (@nil ascii))
  = (0, 2)
  /\ read_int ([] ++ encode_with_length 1000000000) (len (@nil ascii))
     <> (1000000000, len (@nil ascii) + len (encode_with_length 1000000000)).
Proof. split; [vm_compute; reflexivity|vm_compute; discriminate]. Qed.

(** ** Fail-soft behaviour of the readers *)

Lemma slice_empty (b : pystr) (a : N) : slice b a a = [].
Proof. unfold slice. rewrite N.sub_diag. apply take_0. Qed.

Lemma slice_split (b : pystr) (a m c : N) :
  a <= m -> m <= c -> slice b a c = slice b a m ++ slice b m c.
Proof.
  intros H1 H2. unfold slice.
  replace (N.to_nat m) with (N.to_nat a + N.to_nat (m - a))%nat by lia.
  rewrite <- drop_drop, take_take_drop. f_equal. lia.
Qed.

Lemma assoc_outside (c : ascii) :
  ~ In c LETTER_LIST -> assoc c LETTER_TO_DIGIT = None.
Proof.
  intros H. cbn.
  repeat match goal with
         | |- context [Ascii.eqb c ?x] =>
             destruct (Ascii.eqb_spec c x) as [->|_];
             [exfalso; apply H; cbn; tauto|]
         end.
  reflexivity.
Qed.

Lemma decode_loop_outside (s digits : pystr) :
  outside_alphabet s -> decode_loop s digits = None.
Proof.
  intros H. revert digits.
  induction H as [c s Hc|c s _ IH]; intros digits; cbn [decode_loop].
  - now rewrite assoc_outside.
  - destruct (assoc c LETTER_TO_DIGIT); [apply IH|reflexivity].
Qed.

Lemma decode_int_string_outside (s : pystr) :
  outside_alphabet s -> decode_int_string s = 0.
Proof.
  intros H. unfold decode_int_string.
  rewrite decode_loop_outside by exact H. now destruct s.
Qed.

Lemma decode_int_string_nil : decode_int_string [] = 0.
Proof. reflexivity. Qed.

(** C3 (as stated) fails: a declared length that runs past the end makes
    [read_int] return with the cursor moved past the length letter, and
    [read_string] returns the raw characters whatever they are. *)
Lemma readers_move_cursor :
  (len (lit "e") < 0 + 1 + decode_int_string (char_at (lit "e") 0)
   /\ read_int (lit "e") 0 = (0, 1)
   /\ read_int (lit "e") 0 <> (0, 0))
  /\ (outside_alphabet (slice (lit "wZZ") 0 3)
      /\ read_string (lit "wZZ") 0 = (lit "ZZ", 3)
      /\ read_string (lit "wZZ") 0 <> ([], 0)).
Proof.
  split; split; try reflexivity.
  - split; [reflexivity|discriminate].
  - apply Exists_cons_tl, Exists_cons_hd. cbn.
    intros H. repeat (destruct H as [H|H]; [discriminate H|]). exact H.
  - split; [reflexivity|discriminate].
Qed.

(** C3 (amended). For every blob [b] and cursor [i]: at or past the end of
    [b] the three readers return zero (the empty string) and leave the
    cursor at [i].  Inside [b], a declared length that runs past the end
    makes them return zero (the empty string) with the cursor moved past
    the length letters already read ([i + 1]; for [read_int2]
    [i + 1 + len_len] when the inner length overruns); a letter outside the
    alphabet in the region read by [read_int] or [read_int2] makes the
    value zero, with the cursor moved beyond [i]; [read_string] returns the
    empty string with cursor [i + 1] when its length letter is outside the
    alphabet. *)
Theorem readers_fail_soft (b : pystr) (i : N) :
  (len b <= i ->
   read_int b i = (0, i) /\ read_int2 b i = (0, i)
   /\ read_string b i = ([], i))
  /\ (i < len b ->
      let n1 := decode_int_string (char_at b i) in
      let n2 := decode_int_string (slice b (i + 1) (i + 1 + n1)) in
      (len b < i + 1 + n1 ->
       read_int b i = (0, i + 1) /\ read_int2 b i = (0, i + 1)
       /\ read_string b i = ([], i + 1))
      /\ (i + 1 + n1 <= len b -> len b < i + 1 + n1 + n2 ->
          read_int2 b i = (0, i + 1 + n1))
      /\ (outside_alphabet (slice b i (i + 1 + n1)) ->
          fst (read_int b i) = 0 /\ i < snd (read_int b i))
      /\ (outside_alphabet (slice b i (i + 1 + n1 + n2)) ->
          fst (read_int2 b i) = 0 /\ i < snd (read_int2 b i))
      /\ (outside_alphabet (char_at b i) -> read_string b i = ([], i + 1))).
Proof.
  split.
  - intros H. unfold read_int, read_int2, read_string.
    destruct (N.leb_spec (len b) i); [auto|lia].
  - intros Hi n1 n2.
    assert (Hge : (len b <=? i) = false) by (apply N.leb_gt; exact Hi).
    repeat split.
    + unfold read_int. rewrite Hge. fold n1.
      destruct (N.ltb_spec (len b) (i + 1 + n1)); [reflexivity|lia].
    + unfold read_int2. rewrite Hge. fold n1.
      destruct (N.ltb_spec (len b) (i + 1 + n1)); [reflexivity|lia].
    + unfold read_string. rewrite Hge. fold n1.
      destruct (N.ltb_spec (len b) (i + 1 + n1)); [reflexivity|lia].
    + intros H1 H2. unfold read_int2. rewrite Hge. fold n1.
      destruct (N.ltb_spec (len b) (i + 1 + n1)); [lia|]. fold n2.
      destruct (N.ltb_spec (len b) (i + 1 + n1 + n2)); [reflexivity|lia].
    + unfold read_int. rewrite Hge. fold n1.
      destruct (N.ltb_spec (len b) (i + 1 + n1)); [reflexivity|].
      cbn [fst]. rewrite (slice_split b i (i + 1) (i + 1 + n1)) in H by lia.
      apply Exists_app in H. destruct H as [H|H].
      * fold (char_at b i) in H.
        assert (n1 = 0) as -> by (apply decode_int_string_outside, H).
        now rewrite N.add_0_r, slice_empty.
      * now apply decode_int_string_outside.
    + unfold read_int. rewrite Hge. fold n1.
      destruct (N.ltb_spec (len b) (i + 1 + n1)); cbn [snd]; lia.
    + unfold read_int2. rewrite Hge. fold n1.
      destruct (N.ltb_spec (len b) (i + 1 + n1)); [reflexivity|]. fold n2.
      destruct (N.ltb_spec (len b) (i + 1 + n1 + n2)); [reflexivity|].
      cbn [fst].
      rewrite (slice_split b i (i + 1) (i + 1 + n1 + n2)) in H by lia.
      apply Exists_app in H. destruct H as [H|H].
      * fold (char_at b i) in H.
        assert (E1 : n1 = 0) by (apply decode_int_string_outside, H).
        assert (E2 : n2 = 0)
          by (unfold n2; rewrite E1, N.add_0_r, slice_empty; reflexivity).
        now rewrite E1, E2, !N.add_0_r, slice_empty.
      * rewrite (slice_split b (i + 1) (i + 1 + n1) (i + 1 + n1 + n2)) in H
          by lia.
        apply Exists_app in H. destruct H as [H|H].
        -- assert (E2 : n2 = 0) by (apply decode_int_string_outside, H).
           now rewrite E2, N.add_0_r, slice_empty.
        -- now apply decode_int_string_outside.
    + unfold read_int2. rewrite Hge. fold n1.
      destruct (N.ltb_spec (len b) (i + 1 + n1)); [cbn [snd]; lia|]. fold n2.
      destruct (N.ltb_spec (len b) (i + 1 + n1 + n2)); cbn [snd]; lia.
    + intros H. unfold read_string. rewrite Hge. fold n1.
      assert (n1 = 0) as -> by (apply decode_int_string_outside, H).
      destruct (N.ltb_spec (len b) (i + 1 + 0)); [reflexivity|].
      now rewrite N.add_0_r, slice_empty.
Qed.

Lemma readers_fail_soft_witness :
  (read_int [] 0 = (0, 0) /\ read_int2 [] 0 = (0, 0)
   /\ read_string [] 0 = ([], 0))
  /\ read_int (lit "e") 0 = (0, 1)
  /\ read_int2 (lit "yo") 0 = (0, 2)
  /\ fst (read_int (lit "yZ") 0) = 0
  /\ fst (read_int2 (lit "yyZ") 0) = 0
  /\ read_string (lit "Zab") 0 = ([], 1).
Proof.
  split; [|split; [|split; [|split; [|split]]]].
  - apply (readers_fail_soft [] 0). vm_compute. discriminate.
  - destruct (readers_fail_soft (lit "e") 0) as [_ H].
    destruct (H eq_refl) as [H1 _]. apply H1. reflexivity.
  - destruct (readers_fail_soft (lit "yo") 0) as [_ H].
    destruct (H eq_refl) as (_ & H2 & _).
    apply H2; [vm_compute; discriminate|reflexivity].
  - destruct (readers_fail_soft (lit "yZ") 0) as [_ H].
    destruct (H eq_refl) as (_ & _ & H3 & _). apply H3.
    apply Exists_cons_tl, Exists_cons_hd. cbn.
    intros F. repeat (destruct F as [F|F]; [discriminate F|]). exact F.
  - destruct (readers_fail_soft (lit "yyZ") 0) as [_ H].
    destruct (H eq_refl) as (_ & _ & _ & H4 & _). apply H4.
    apply Exists_cons_tl, Exists_cons_tl, Exists_cons_hd. cbn.
    intros F. repeat (destruct F as [F|F]; [discriminate F|]). exact F.
  - destruct (readers_fail_soft (lit "Zab") 0) as [_ H].
    destruct (H eq_refl) as (_ & _ & _ & _ & H5). apply H5.
    apply Exists_cons_hd. cbn.
    intros F. repeat (destruct F as [F|F]; [discriminate F|]). exact F.
Defined.

(** ** ProfileID rejection *)

Lemma profile_loop_digits (s : pystr) :
  Forall (fun c => exists d, d < 10 /\ c = digit_char d) s ->
  forall first_digit profile_id,
    exists r, profile_loop s first_digit profile_id = Some r.
Proof.
  induction 1 as [|c s (d & Hd & ->) _ IH]; intros fd acc; cbn [profile_loop].
  - eauto.
  - unfold int_of_char. rewrite is_digit_char by exact Hd. apply IH.
Qed.

Lemma compute_profile_id_accepts (current_save : pystr) (trainer_id : Z) :
  len current_save = 14 ->
  (Z.of_N (py_sum (map char_to_value current_save)) <> 0)%Z ->
  (333 <= trainer_id <= 99999)%Z ->
  exists profile_id,
    compute_profile_id current_save trainer_id = Returned (Some profile_id).
Proof.
  intros Hlen Hs Ht. unfold compute_profile_id.
  rewrite Hlen. cbn [N.eqb Pos.eqb negb].
  set (s := Z.of_N (py_sum (map char_to_value current_save))) in *.
  destruct (Z.eqb_spec s 0) as [|_]; [contradiction|].
  destruct (Z.ltb_spec trainer_id 333); [lia|].
  destruct (Z.ltb_spec 99999 trainer_id); [lia|].
  cbn [orb].
  assert (Hpos : (0 < trainer_id * s * 14)%Z) by (subst s; nia).
  unfold str_Z. destruct (Z.ltb_spec (trainer_id * s * 14) 0); [lia|].
  pose proof (str_digits (Z.to_N (trainer_id * s * 14))) as Hd.
  pose proof (str_nonempty (Z.to_N (trainer_id * s * 14))) as Hne.
  destruct (profile_loop_digits _ Hd) with
    (first_digit :=
       digit_val (hd "0"%char (str (Z.to_N (trainer_id * s * 14)))))
    (profile_id := @nil ascii) as [r Hr].
  destruct (str (Z.to_N (trainer_id * s * 14))) as [|c0 rest]; [congruence|].
  inversion Hd as [|? ? (d & Hd0 & ->) _]; subst.
  unfold int_of_char. rewrite is_digit_char by exact Hd0.
  cbn [hd] in Hr. rewrite Hr. eauto.
Qed.

(** C9. For every 14-character [current_save] and every integer
    [trainer_id], [compute_profile_id] returns [None] exactly when the
    character-value sum is 0, or [trainer_id < 333], or
    [trainer_id > 99999] (and otherwise returns a string, without raising);
    in particular it returns [None] for [trainer_id] 0, 332 and 100000. *)
Theorem profile_id_rejection (current_save : pystr) (trainer_id : Z) :
  len current_save = 14 ->
  (compute_profile_id current_save trainer_id = Returned None
   <-> (Z.of_N (py_sum (map char_to_value current_save)) = 0
        \/ trainer_id < 333 \/ 99999 < trainer_id)%Z)
  /\ compute_profile_id current_save trainer_id <> Raised
  /\ (trainer_id = 0%Z \/ trainer_id = 332%Z \/ trainer_id = 100000%Z ->
      compute_profile_id current_save trainer_id = Returned None).
Proof.
  intros Hlen.
  assert (Hrej : (Z.of_N (py_sum (map char_to_value current_save)) = 0
                  \/ trainer_id < 333 \/ 99999 < trainer_id)%Z ->
                 compute_profile_id current_save trainer_id = Returned None).
  { intros H. unfold compute_profile_id.
    rewrite Hlen. cbn [N.eqb Pos.eqb negb].
    destruct (Z.eqb_spec (Z.of_N (py_sum (map char_to_value current_save))) 0);
      [reflexivity|].
    destruct (Z.ltb_spec trainer_id 333); [reflexivity|].
    destruct (Z.ltb_spec 99999 trainer_id); [reflexivity|]. lia. }
  assert (Hacc : ~ (Z.of_N (py_sum (map char_to_value current_save)) = 0
                    \/ trainer_id < 333 \/ 99999 < trainer_id)%Z ->
                 exists r, compute_profile_id current_save trainer_id
                           = Returned (Some r)).
  { intros H. apply compute_profile_id_accepts; [exact Hlen|lia|lia]. }
  destruct (Z.eq_dec (Z.of_N (py_sum (map char_to_value current_save))) 0%Z)
    as [Hs|Hs];
    [|destruct (Z_lt_dec trainer_id 333) as [Hl|Hl];
      [|destruct (Z_lt_dec 99999 trainer_id) as [Hu|Hu]]].
  1-3: rewrite Hrej by tauto; split; [tauto|];
    split; [discriminate|reflexivity].
  destruct Hacc as [r Hr]; [lia|]. rewrite Hr.
  split; [split; [discriminate|lia]|]. split; [discriminate|lia].
Qed.

Lemma profile_id_rejection_witness :
  compute_profile_id (lit "abcdefghij1234") 332 = Returned None
  /\ compute_profile_id (lit "abcdefghij1234") 1000 <> Raised.
Proof.
  destruct (profile_id_rejection (lit "abcdefghij1234") 332 eq_refl)
    as (_ & _ & H).
  destruct (profile_id_rejection (lit "abcdefghij1234") 1000 eq_refl)
    as (_ & H' & _).
  split; [apply H; right; left; reflexivity|exact H'].
Defined.

(** ** Rarity derivation on capture *)

Lemma in_list_In (x : N) (l : list N) : in_list x l = true <-> In x l.
Proof.
  unfold in_list. rewrite existsb_exists. split.
  - intros (y & Hy & E). apply N.eqb_eq in E. now subst.
  - intros H. exists x. split; [exact H|apply N.eqb_refl].
Qed.

Lemma in_list_dec (x : N) (l : list N) :
  in_list x l = if in_dec N.eq_dec x l then true else false.
Proof.
  destruct (in_dec N.eq_dec x l) as [H|H].
  - now apply in_list_In.
  - destruct (in_list x l) eqn:E; [|reflexivity].
    apply in_list_In in E. contradiction.
Qed.



(** ** Key/value blobs *)

Lemma dict_set_fresh {V} (d : list (N * V)) (k : N) (v : V) :
  ~ In k (dict_keys d) -> dict_set d k v = d ++ [(k, v)].
Proof.
  induction d as [|[k' v'] d IH]; intros H; cbn [dict_set app].
  - reflexivity.
  - cbn in H. destruct (N.eqb_spec k k') as [->|_]; [tauto|].
    rewrite IH by tauto. reflexivity.
Qed.

Lemma fold_dict_set_nodup (m acc : list (N * N)) :
  List.NoDup (dict_keys acc ++ dict_keys m) ->
  fold_left (fun r kv => dict_set r (fst kv) (snd kv)) m acc = acc ++ m.
Proof.
  revert acc. induction m as [|[k v] m IH]; intros acc H; cbn [fold_left].
  - now rewrite app_nil_r.
  - cbn [fst snd]. cbn [dict_keys map fst] in H.
    rewrite dict_set_fresh.
    + rewrite IH.
      * rewrite <- app_assoc. reflexivity.
      * unfold dict_keys in *. rewrite map_app. cbn [map fst].
        rewrite <- app_assoc. exact H.
    + apply NoDup_remove_2 in H. intros Hin. apply H.
      apply in_or_app. left. exact Hin.
Qed.

Lemma kv_fold (m : list (N * N)) (data : pystr) (count : N) :
  fold_left
    (fun '(data, count) '(k, v) =>
       (data ++ encode_with_length k ++ encode_with_length v, count + 1))
    m (data, count)
  = (data ++ kv_data m, count + len m).
Proof.
  revert data count. induction m as [|[k v] m IH]; intros data count.
  - cbn. rewrite app_nil_r. f_equal. unfold len. cbn. lia.
  - cbn [fold_left]. rewrite IH. cbn [kv_data flat_map].
    rewrite <- !app_assoc. f_equal. rewrite len_cons. lia.
Qed.

Lemma parse_kv_loop_data (m : list (N * N)) :
  Forall (fun kv => fst kv < 10 ^ 9 /\ snd kv < 10 ^ 9) m ->
  forall (pre post : pystr) (acc : list (N * N)),
    parse_kv_loop (length m) (pre ++ kv_data m ++ post) (len pre) acc
    = fold_left (fun r kv => dict_set r (fst kv) (snd kv)) m acc.
Proof.
  induction 1 as [|[k v] m [Hk Hv] _ IH]; intros pre post acc.
  - reflexivity.
  - cbn [length parse_kv_loop fold_left fst snd kv_data flat_map] in *.
    replace (pre ++ ((encode_with_length k ++ encode_with_length v)
                     ++ flat_map
                          (fun '(k, v) =>
                             encode_with_length k ++ encode_with_length v) m)
                 ++ post)
      with (pre ++ encode_with_length k
            ++ (encode_with_length v ++ kv_data m ++ post))
      by (unfold kv_data; rewrite <- !app_assoc; reflexivity).
    rewrite read_int_encode by exact Hk.
    replace (pre ++ encode_with_length k
             ++ encode_with_length v ++ kv_data m ++ post)
      with ((pre ++ encode_with_length k)
            ++ encode_with_length v ++ kv_data m ++ post)
      by (rewrite <- !app_assoc; reflexivity).
    rewrite <- len_app.
    rewrite read_int_encode by exact Hv.
    rewrite <- len_app.
    replace ((pre ++ encode_with_length k)
             ++ encode_with_length v ++ kv_data m ++ post)
      with (((pre ++ encode_with_length k) ++ encode_with_length v)
            ++ kv_data m ++ post)
      by (rewrite <- !app_assoc; reflexivity).
    apply IH.
Qed.

Lemma len_kv_data (m : list (N * N)) : len m <= len (kv_data m).
Proof.
  induction m as [|[k v] m IH]; [unfold len; cbn; lia|].
  cbn [kv_data flat_map]. fold (kv_data m).
  rewrite len_cons, !len_app.
  unfold encode_with_length at 1. rewrite len_app.
  pose proof (len_encode_int_pos k). lia.
Qed.

(** C4 (as stated) fails: a key of ten digits is written with a
    two-letter length prefix, and the parser reads back the key 0. *)
Lemma kv_ten_digit_key :
  parse_kv_blob (encode_kv_blob [(1000000000, 0)]) = [(0, 0)]
  /\ parse_kv_blob (encode_kv_blob [(1000000000, 0)]) <> [(1000000000, 0)].
Proof. split; [vm_compute; reflexivity|vm_compute; discriminate]. Qed.

(** C4 (amended). For every key/value dict (distinct keys, in item order)
    whose keys and values are below [10^9] and whose encoding is shorter
    than [10^9] characters, parsing the encoded blob returns the same
    dict, items in the same order. *)
Theorem parse_encode_kv_blob (m : list (N * N)) :
  List.NoDup (dict_keys m) ->
  Forall (fun kv => fst kv < 10 ^ 9 /\ snd kv < 10 ^ 9) m ->
  len (encode_kv_blob m) < 10 ^ 9 ->
  parse_kv_blob (encode_kv_blob m) = m.
Proof.
  intros Hnd Hrange Hlen.
  destruct m as [|kv0 m0] eqn:Em; [reflexivity|].
  rewrite <- Em in *. unfold encode_kv_blob in *.
  assert (Hne : match m with [] => False | _ => True end) by now subst m.
  destruct m as [|x y]; [contradiction|]. clear Hne.
  remember (x :: y) as m' eqn:Em'. clear Em' x y kv0 m0 Em.
  rewrite kv_fold in *. cbn [app] in *. rewrite N.add_0_l in *.
  set (ce := encode_int (len m')) in *.
  set (data := encode_int (len ce) ++ ce ++ kv_data m') in *.
  set (header := encode_int (len data)) in *.
  rewrite !len_app in Hlen.
  assert (Htotal : len data < 10 ^ 9) by lia.
  assert (Hcount : len m' < 10 ^ 9).
  { pose proof (len_kv_data m'). subst data. rewrite !len_app in Htotal. lia. }
  pose proof (len_encode_int_small _ Htotal) as Hh. fold header in Hh.
  pose proof (len_encode_int_small _ Hcount) as Hc. fold ce in Hc.
  pose proof (len_encode_int_pos (len data)) as Hhp. fold header in Hhp.
  pose proof (len_encode_int_pos (len m')) as Hcp. fold ce in Hcp.
  assert (Edh : decode_int_string (encode_int (len header)) = len header)
    by apply decode_int_string_encode_int.
  assert (Edc : decode_int_string (encode_int (len ce)) = len ce)
    by apply decode_int_string_encode_int.
  subst data.
  rewrite (encode_int_digit _ Hh) in *.
  rewrite (encode_int_digit _ Hc) in *.
  set (ch := digit_to_letter (digit_char (len header))) in *.
  set (cc := digit_to_letter (digit_char (len ce))) in *.
  cbn [app] in *.
  set (blob := ch :: header ++ cc :: ce ++ kv_data m').
  assert (Hblob : len blob = 1 + len header + (1 + len ce + len (kv_data m')))
    by (unfold blob; rewrite len_cons, len_app, len_cons, len_app; lia).
  unfold parse_kv_blob, py_index.
  destruct (N.ltb_spec (len blob) 4); [lia|].
  destruct (N.ltb_spec 0 (len blob)); [|lia].
  replace (char_at blob 0) with [ch]
    by (symmetry; apply (char_at_app [] ch (header ++ cc :: ce ++ kv_data m'))).
  rewrite Edh.
  destruct (N.ltb_spec (0 + (1 + len header)) (len blob)); [|lia].
  assert (Eb : blob = (ch :: header) ++ cc :: ce ++ kv_data m') by reflexivity.
  assert (Ei : 0 + (1 + len header) = len (ch :: header))
    by (rewrite len_cons; lia).
  rewrite Ei, Eb, char_at_app, Edc, slice_after_char.
  replace (decode_int_string ce) with (len m')
    by (symmetry; apply decode_int_string_encode_int).
  replace (N.to_nat (len m')) with (length m') by (unfold len; lia).
  replace ((ch :: header) ++ cc :: ce ++ kv_data m')
    with (((ch :: header) ++ cc :: ce) ++ kv_data m' ++ [])
    by (rewrite app_nil_r, <- app_assoc; reflexivity).
  replace (len (ch :: header) + 1 + len ce)
    with (len ((ch :: header) ++ cc :: ce))
    by (rewrite len_app, len_cons, len_cons; lia).
  rewrite parse_kv_loop_data by exact Hrange.
  apply (fold_dict_set_nodup m' []). exact Hnd.
Qed.

Lemma parse_encode_kv_blob_witness :
  parse_kv_blob (encode_kv_blob [(3, 4); (5, 600); (0, 999999999)])
  = [(3, 4); (5, 600); (0, 999999999)].
Proof.
  apply parse_encode_kv_blob.
  - repeat constructor; cbn; intros H;
      repeat (destruct H as [H|H]; [discriminate H|]); exact H.
  - repeat constructor.
  - reflexivity.
Defined.

(** ** The delta parser: cursors only move forward *)

Lemma read_int_mono (b : pystr) (i : N) : i <= snd (read_int b i).
Proof.
  unfold read_int. destruct (len b <=? i); cbn [snd]; [lia|].
  destruct (len b <? _); cbn [snd]; lia.
Qed.

Lemma read_int2_mono (b : pystr) (i : N) : i <= snd (read_int2 b i).
Proof.
  unfold read_int2. destruct (len b <=? i); cbn [snd]; [lia|].
  destruct (len b <? _); cbn [snd]; [lia|].
  destruct (len b <? _); cbn [snd]; lia.
Qed.

Lemma read_string_mono (b : pystr) (i : N) : i <= snd (read_string b i).
Proof.
  unfold read_string. destruct (len b <=? i); cbn [snd]; [lia|].
  destruct (len b <? _); cbn [snd]; lia.
Qed.

(** Name the result of the next read and record that it did not move the
    cursor backwards. *)
Ltac step_read :=
  match goal with
  | |- context [read_int ?b ?i] =>
      let H := fresh "Hread" in
      pose proof (read_int_mono b i) as H;
      destruct (read_int b i); cbn [snd fst] in H |- *
  | |- context [read_int2 ?b ?i] =>
      let H := fresh "Hread" in
      pose proof (read_int2_mono b i) as H;
      destruct (read_int2 b i); cbn [snd fst] in H |- *
  | |- context [read_string ?b ?i] =>
      let H := fresh "Hread" in
      pose proof (read_string_mono b i) as H;
      destruct (read_string b i); cbn [snd fst] in H |- *
  end.

Lemma skip_fields_mono (extra : pystr) (n : nat) (doubles : list N) (i : N) :
  i <= skip_fields extra n doubles i.
Proof.
  unfold skip_fields. generalize (map N.of_nat (seq 0 n)). intros l.
  revert i. induction l as [|idx l IH]; intros i; cbn [fold_left]; [lia|].
  etransitivity; [|apply IH].
  destruct (negb (in_list idx doubles));
    [apply read_int_mono|apply read_int2_mono].
Qed.

Lemma skip_payload_mono (extra : pystr) (ct i : N) :
  i <= skip_payload extra ct i.
Proof.
  unfold skip_payload.
  repeat match goal with
         | |- context [if ?c then _ else _] => destruct c
         end;
    try apply read_int_mono; try apply read_int2_mono;
    try apply read_string_mono; try apply skip_fields_mono; try lia.
  etransitivity; [apply (skip_fields_mono extra 11 [1; 9] i)|].
  apply read_string_mono.
Qed.

Lemma skip_unknown_payload_mono (extra : pystr) (ct i : N) :
  i <= skip_unknown_payload extra ct i.
Proof.
  unfold skip_unknown_payload.
  repeat match goal with
         | |- context [if ?c then _ else _] => destruct c
         end;
    try apply read_int_mono; try apply read_int2_mono;
    try apply read_string_mono; try apply skip_fields_mono; lia.
Qed.

Lemma skip_loop_mono (payload : pystr -> N -> N -> N) (extra : pystr) :
  (forall ct i, i <= payload extra ct i) ->
  forall n i, i <= skip_loop payload n extra i.
Proof.
  intros Hp n. induction n as [|n IH]; intros i; cbn [skip_loop]; [lia|].
  step_read. etransitivity; [|apply IH].
  etransitivity; [exact Hread|apply Hp].
Qed.

Lemma apply_change_mono (extra : pystr) (ct i : N) (poke : pokemon) :
  i <= snd (apply_change extra ct i poke).
Proof.
  unfold apply_change.
  repeat match goal with
         | |- context [if ?a =? ?b then _ else _] => destruct (a =? b)
         end;
    repeat step_read; cbn [snd]; lia.
Qed.

Lemma apply_changes_mono (n : nat) (extra : pystr) :
  forall (i : N) (poke : loc) (h : heap),
    i <= fst (apply_changes n extra i poke h).
Proof.
  induction n as [|n IH]; intros i poke h; cbn [apply_changes fst]; [lia|].
  destruct (len extra <=? i); cbn [fst]; [lia|].
  pose proof (read_int_mono extra i) as Hr.
  destruct (read_int extra i) as [ct i1]. cbn [snd] in Hr.
  pose proof (apply_change_mono extra ct i1 (deref h poke)) as Hc.
  destruct (apply_change extra ct i1 (deref h poke)) as [p i'].
  cbn [snd] in Hc. etransitivity; [|apply IH]. lia.
Qed.

Lemma process_changes_advances (extra : pystr) (cc my_id i : N) (d : pdict)
    (h : heap) (i' : N) (d' : pdict) (h' : heap) :
  process_changes extra cc my_id i d h = Continue i' d' h' -> i <= i'.
Proof.
  unfold process_changes. destruct (dict_get d my_id); [|discriminate].
  pose proof (apply_changes_mono (N.to_nat cc) extra i n
                (store h n (set_myID my_id (deref h n)))) as H.
  destruct (apply_changes _ _ _ _ _) as [i2 h2]. cbn [fst] in H.
  intros [= <- _ _]. exact H.
Qed.

(** Every iteration of the [while] loop consumes at least one
    character. *)
Lemma entry_advances (extra : pystr) (i : N) (d : pdict) (h : heap)
    (i' : N) (d' : pdict) (h' : heap) :
  entry extra i d h = Continue i' d' h' -> i < i'.
Proof.
  unfold entry.
  set (ccl := decode_int_string (char_at extra i)).
  destruct (len extra <? i + 1 + ccl); [discriminate|].
  set (cc := decode_int_string _).
  destruct (cc =? 0); [intros [= <- _ _]; lia|].
  pose proof (read_int2_mono extra (i + 1 + ccl)) as H2.
  destruct (read_int2 extra (i + 1 + ccl)) as [my_id i2]. cbn [snd] in H2.
  set (fct := fst (read_int extra i2)).
  set (ms := if my_id =? 0 then _ else _).
  destruct ms as [my_id' should_skip].
  destruct should_skip.
  { intros [= <- _ _].
    pose proof (skip_loop_mono skip_payload extra (skip_payload_mono extra)
                  (N.to_nat cc) i2). lia. }
  destruct (dict_get d my_id').
  { intros H. apply process_changes_advances in H. lia. }
  destruct (fct =? 1).
  { cbn [alloc]. intros H. apply process_changes_advances in H. lia. }
  destruct (fct =? 8).
  { destruct (find_reassign d h _) as [[old_id poke]|].
    - intros H. apply process_changes_advances in H. lia.
    - intros [= <- _ _].
      pose proof (read_int_mono extra i2).
      pose proof (read_int_mono extra (snd (read_int extra i2))). lia. }
  intros [= <- _ _].
  pose proof (skip_loop_mono skip_unknown_payload extra
                (skip_unknown_payload_mono extra) (N.to_nat cc) i2). lia.
Qed.

(** The loop ends before the fuel does. *)
Lemma entries_total (extra : pystr) (fuel : nat) :
  forall (i : N) (d : pdict) (h : heap),
    len extra <= i + N.of_nat fuel ->
    exists r, entries fuel extra i d h = Some r.
Proof.
  induction fuel as [|fuel IH]; intros i d h Hf.
  - cbn [entries]. destruct (N.leb_spec (len extra) i); [eauto|lia].
  - cbn [entries]. destruct (N.leb_spec (len extra) i); [eauto|].
    destruct (entry extra i d h) as [i' d' h'|d' h'] eqn:E; [|eauto].
    apply entry_advances in E. apply IH. lia.
Qed.

(** ** The delta parser: the working set and the caller's records *)

Lemma deref_alloc_old (h : heap) (p : pokemon) (l : loc) :
  (l < length h)%nat -> deref (h ++ [p]) l = deref h l.
Proof. intros H. unfold deref. now apply lookup_total_app_l. Qed.

Lemma deref_alloc_new (h : heap) (p : pokemon) :
  deref (h ++ [p]) (length h) = p.
Proof.
  unfold deref. rewrite lookup_total_app_r by lia.
  now rewrite Nat.sub_diag.
Qed.

Lemma deref_store_eq (h : heap) (l : loc) (p : pokemon) :
  (l < length h)%nat -> deref (store h l p) l = p.
Proof.
  intros H. unfold deref, store. now apply list_lookup_total_insert_eq.
Qed.

Lemma deref_store_ne (h : heap) (l l' : loc) (p : pokemon) :
  l <> l' -> deref (store h l p) l' = deref h l'.
Proof.
  intros H. unfold deref, store. now apply list_lookup_total_insert_ne.
Qed.

Lemma length_store (h : heap) (l : loc) (p : pokemon) :
  length (store h l p) = length h.
Proof. apply length_insert. Qed.

Lemma frame_refl (h0 : heap) : frame h0 h0.
Proof. unfold frame. now apply take_ge. Qed.

Lemma frame_alloc (h0 h : heap) (p : pokemon) :
  (length h0 <= length h)%nat -> frame h0 h -> frame h0 (h ++ [p]).
Proof. unfold frame. intros Hl H. now rewrite take_app_le. Qed.

Lemma frame_store (h0 h : heap) (l : loc) (p : pokemon) :
  (length h0 <= l)%nat -> frame h0 h -> frame h0 (store h l p).
Proof. unfold frame, store. intros Hl H. now rewrite take_insert_ge. Qed.

Lemma owned_alloc (n0 : nat) (d : pdict) (h : heap) (p : pokemon) :
  owned n0 d h -> owned n0 d (h ++ [p]).
Proof.
  unfold owned. apply List.Forall_impl.
  intros [k l] [Hl Hk]. cbn [fst snd] in *.
  rewrite length_app, deref_alloc_old by lia. cbn [length].
  split; [lia|exact Hk].
Qed.

(** A write that keeps the [myID] of the written record. *)
Lemma owned_store (n0 : nat) (d : pdict) (h : heap) (l : loc) (p : pokemon) :
  myID p = myID (deref h l) -> owned n0 d h -> owned n0 d (store h l p).
Proof.
  intros Hp. unfold owned. apply List.Forall_impl.
  intros [k l'] [Hl Hk]. cbn [fst snd] in *. rewrite length_store.
  split; [exact Hl|].
  destruct (Nat.eq_dec l l') as [->|Hne].
  - rewrite deref_store_eq by lia. congruence.
  - rewrite deref_store_ne by exact Hne. exact Hk.
Qed.

Lemma owned_dict_set (n0 : nat) (d : pdict) (h : heap) (k : N) (l : loc) :
  (n0 <= l < length h)%nat -> myID (deref h l) = k ->
  owned n0 d h -> owned n0 (dict_set d k l) h.
Proof.
  intros Hl Hk. unfold owned.
  induction d as [|[k' l'] d IH]; intros H; cbn [dict_set].
  - constructor; [split; assumption|constructor].
  - apply List.Forall_cons_iff in H as [Hhd Htl].
    destruct (k =? k'); constructor; auto.
Qed.

Lemma owned_dict_del (n0 : nat) (d : pdict) (h : heap) (k : N) :
  owned n0 d h -> owned n0 (dict_del d k) h.
Proof.
  unfold owned, dict_del. intros H.
  induction H as [|x d Hx _ IH]; cbn [List.filter].
  - constructor.
  - destruct (negb (fst x =? k)); [constructor; assumption|exact IH].
Qed.

Lemma dict_get_In {V} (d : list (N * V)) (k : N) (v : V) :
  dict_get d k = Some v -> In (k, v) d.
Proof.
  induction d as [|[k' v'] d IH]; cbn [dict_get]; [discriminate|].
  destruct (N.eqb_spec k k') as [->|_].
  - intros [= ->]. now left.
  - intros H. right. auto.
Qed.

Lemma dict_get_set_eq {V} (d : list (N * V)) (k : N) (v : V) :
  dict_get (dict_set d k v) k = Some v.
Proof.
  induction d as [|[k' v'] d IH]; cbn [dict_set dict_get].
  - now rewrite N.eqb_refl.
  - destruct (N.eqb_spec k k') as [->|Hne]; cbn [dict_get].
    + now rewrite N.eqb_refl.
    + destruct (N.eqb_spec k k'); [contradiction|exact IH].
Qed.

Lemma owned_In (n0 : nat) (d : pdict) (h : heap) (k : N) (l : loc) :
  owned n0 d h -> In (k, l) d ->
  (n0 <= l < length h)%nat /\ myID (deref h l) = k.
Proof.
  unfold owned. rewrite List.Forall_forall. intros H Hin.
  exact (H (k, l) Hin).
Qed.

Lemma find_reassign_In (d : pdict) (h : heap) (np old_id : N) (poke : loc) :
  find_reassign d h np = Some (old_id, poke) -> In (old_id, poke) d.
Proof.
  induction d as [|[k l] d IH]; cbn [find_reassign]; [discriminate|].
  destruct (_ || _).
  - intros [= -> ->]. now left.
  - intros H. right. auto.
Qed.

(** No change touches the [myID] of the record it edits. *)
Lemma apply_change_myID (extra : pystr) (ct i : N) (poke : pokemon) :
  myID (fst (apply_change extra ct i poke)) = myID poke.
Proof.
  unfold apply_change.
  repeat match goal with
         | |- context [if ?a =? ?b then _ else _] => destruct (a =? b)
         end;
    repeat step_read;
    repeat match goal with
           | |- context [if ?c then _ else _] => destruct c
           end;
    reflexivity.
Qed.

Lemma apply_changes_inv (h0 : heap) (d : pdict) (extra : pystr) (poke : loc)
    (n : nat) :
  (length h0 <= poke)%nat ->
  forall (i : N) (h : heap),
    frame h0 h -> owned (length h0) d h ->
    frame h0 (snd (apply_changes n extra i poke h))
    /\ owned (length h0) d (snd (apply_changes n extra i poke h))
    /\ length (snd (apply_changes n extra i poke h)) = length h
    /\ myID (deref (snd (apply_changes n extra i poke h)) poke)
       = myID (deref h poke).
Proof.
  intros Hp. induction n as [|n IH]; intros i h Hf Ho;
    cbn [apply_changes snd]; [auto|].
  destruct (len extra <=? i); cbn [snd]; [auto|].
  destruct (read_int extra i) as [ct i1].
  pose proof (apply_change_myID extra ct i1 (deref h poke)) as Hid.
  destruct (apply_change extra ct i1 (deref h poke)) as [p i2].
  cbn [fst] in Hid.
  destruct (IH i2 (store h poke p)) as (IH1 & IH2 & IH3 & IH4).
  - now apply frame_store.
  - now apply owned_store.
  - repeat split; try assumption.
    + now rewrite IH3, length_store.
    + rewrite IH4. destruct (Nat.lt_ge_cases poke (length h)).
      * now rewrite deref_store_eq.
      * unfold deref, store. now rewrite list_insert_ge.
Qed.

Lemma process_changes_inv (h0 : heap) (extra : pystr) (cc my_id i : N)
    (d : pdict) (h : heap) :
  frame h0 h -> owned (length h0) d h ->
  match process_changes extra cc my_id i d h with
  | Continue _ d' h' | Break d' h' => frame h0 h' /\ owned (length h0) d' h'
  end.
Proof.
  intros Hf Ho. unfold process_changes.
  destruct (dict_get d my_id) as [poke|] eqn:Eg; [|auto].
  apply dict_get_In in Eg.
  destruct (owned_In _ _ _ _ _ Ho Eg) as [Hl Hid].
  destruct (apply_changes_inv h0 d extra poke (N.to_nat cc) (proj1 Hl) i
              (store h poke (set_myID my_id (deref h poke))))
    as (H1 & H2 & _).
  - apply frame_store; [lia|exact Hf].
  - apply owned_store; [|exact Ho]. rewrite Hid. reflexivity.
  - destruct (apply_changes _ _ _ _ _) as [i' h']. cbn [snd] in *. auto.
Qed.

(** One iteration of the loop keeps the working set on records of its
    own and leaves the caller's objects alone. *)
Lemma entry_inv (h0 : heap) (extra : pystr) (i : N) (d : pdict) (h : heap) :
  frame h0 h -> owned (length h0) d h ->
  match entry extra i d h with
  | Continue _ d' h' | Break d' h' => frame h0 h' /\ owned (length h0) d' h'
  end.
Proof.
  intros Hf Ho. unfold entry.
  assert (Hlen : (length h0 <= length h)%nat).
  { unfold frame in Hf. rewrite <- Hf at 1. rewrite length_take. lia. }
  set (ccl := decode_int_string (char_at extra i)).
  destruct (len extra <? i + 1 + ccl); [auto|].
  set (cc := decode_int_string _).
  destruct (cc =? 0); [auto|].
  destruct (read_int2 extra (i + 1 + ccl)) as [my_id i2].
  set (fct := fst (read_int extra i2)).
  set (ms := if my_id =? 0 then _ else _).
  destruct ms as [my_id' should_skip].
  destruct should_skip; [auto|].
  destruct (dict_get d my_id') eqn:Eg.
  { now apply process_changes_inv. }
  destruct (fct =? 1).
  { cbn [alloc]. apply process_changes_inv.
    - now apply frame_alloc.
    - apply owned_dict_set.
      + rewrite length_app. cbn [length]. lia.
      + now rewrite deref_alloc_new.
      + now apply owned_alloc. }
  destruct (fct =? 8); [|auto].
  destruct (find_reassign d h _) as [[old_id poke]|] eqn:Ef; [|auto].
  apply find_reassign_In in Ef.
  destruct (owned_In _ _ _ _ _ Ho Ef) as [Hl Hid].
  apply process_changes_inv.
  - apply frame_store; [lia|exact Hf].
  - apply owned_dict_set.
    + now rewrite length_store.
    + now rewrite deref_store_eq by lia.
    + (* the records that stay are other objects than [poke] *)
      unfold owned, dict_del. rewrite List.Forall_forall.
      intros [k l] Hin. apply filter_In in Hin as [Hin Hk].
      cbn [fst snd] in *.
      destruct (owned_In _ _ _ _ _ Ho Hin) as [Hl' Hid'].
      rewrite length_store. split; [exact Hl'|].
      destruct (Nat.eq_dec poke l) as [->|Hne].
      * exfalso. apply negb_true_iff, N.eqb_neq in Hk. congruence.
      * now rewrite deref_store_ne.
Qed.

Lemma entries_inv (h0 : heap) (extra : pystr) (fuel : nat) :
  forall (i : N) (d : pdict) (h : heap) (d' : pdict) (h' : heap),
    frame h0 h -> owned (length h0) d h ->
    entries fuel extra i d h = Some (d', h') ->
    frame h0 h' /\ owned (length h0) d' h'.
Proof.
  induction fuel as [|fuel IH]; intros i d h d' h' Hf Ho; cbn [entries].
  - destruct (len extra <=? i); [intros [= <- <-]; auto|discriminate].
  - destruct (len extra <=? i); [intros [= <- <-]; auto|].
    pose proof (entry_inv h0 extra i d h Hf Ho) as He.
    destruct (entry extra i d h) as [i1 d1 h1|d1 h1]; destruct He as [Hf1 Ho1].
    + now apply IH.
    + intros [= <- <-]. auto.
Qed.

Lemma copy_roster_inv (h0 : heap) (existing : list loc) :
  forall (d : pdict) (h : heap),
    frame h0 h -> owned (length h0) d h ->
    frame h0 (snd (copy_roster existing d h))
    /\ owned (length h0) (fst (copy_roster existing d h))
         (snd (copy_roster existing d h)).
Proof.
  induction existing as [|p rest IH]; intros d h Hf Ho;
    cbn [copy_roster alloc fst snd]; [auto|].
  assert (Hlen : (length h0 <= length h)%nat).
  { unfold frame in Hf. rewrite <- Hf at 1. rewrite length_take. lia. }
  apply IH.
  - now apply frame_alloc.
  - apply owned_dict_set.
    + rewrite length_app. cbn [length]. lia.
    + now rewrite deref_alloc_new.
    + now apply owned_alloc.
Qed.

Lemma try_body_inv (h0 : heap) (fuel : nat) (extra : pystr) (d : pdict)
    (h : heap) (d' : pdict) (h' : heap) :
  frame h0 h -> owned (length h0) d h ->
  try_body fuel extra d h = Some (d', h') ->
  frame h0 h' /\ owned (length h0) d' h'.
Proof.
  intros Hf Ho. unfold try_body.
  destruct (py_index extra 0); [|intros [= <- <-]; auto].
  destruct (py_index extra _); [|intros [= <- <-]; auto].
  now apply entries_inv.
Qed.

Lemma try_body_total (extra : pystr) (d : pdict) (h : heap) :
  exists r, try_body (S (length extra)) extra d h = Some r.
Proof.
  unfold try_body.
  destruct (py_index extra 0); [|eauto].
  destruct (py_index extra _); [|eauto].
  apply entries_total. unfold len. lia.
Qed.

(** The parser always returns; past the short-delta guard its result is
    the final filter and sort of a working set it owns. *)
Lemma parse_delta_save_run (extra : pystr) (existing : list loc) (h0 : heap) :
  4 <= len extra ->
  exists d' h',
    parse_delta_save extra existing h0 = Some (finish d' h', h')
    /\ frame h0 h' /\ owned (length h0) d' h'.
Proof.
  intros Hlen. unfold parse_delta_save.
  destruct (N.ltb_spec (len extra) 4); [lia|].
  destruct (copy_roster_inv h0 existing [] h0 (frame_refl h0))
    as [Hf Ho]; [constructor|].
  destruct (copy_roster existing [] h0) as [d h]. cbn [fst snd] in *.
  destruct (try_body_total extra d h) as [[d' h'] E]. rewrite E.
  exists d', h'. split; [reflexivity|].
  eapply try_body_inv; eassumption.
Qed.

Lemma parse_delta_save_working_set (extra : pystr) (existing : list loc)
    (h0 : heap) :
  4 <= len extra ->
  exists d' h',
    final_working_set extra existing h0 = Some (d', h')
    /\ parse_delta_save extra existing h0 = Some (finish d' h', h')
    /\ owned (length h0) d' h'.
Proof.
  intros Hlen. unfold parse_delta_save, final_working_set.
  destruct (N.ltb_spec (len extra) 4); [lia|].
  destruct (copy_roster_inv h0 existing [] h0 (frame_refl h0))
    as [Hf Ho]; [constructor|].
  destruct (copy_roster existing [] h0) as [d h]. cbn [fst snd] in *.
  destruct (try_body_total extra d h) as [[d' h'] E]. rewrite E.
  exists d', h'. split; [reflexivity|]. split; [reflexivity|].
  eapply try_body_inv; eassumption.
Qed.

(** C10. [parse_delta_save] leaves its [existing_pokemon] argument
    unmodified: for every delta, every list of records and every store,
    the call returns, and the store afterwards is the store before the
    call followed by newly allocated objects; so every object that existed
    before the call, in particular every record of the caller's list,
    holds the same items afterwards (the parser writes to copies only).
    The list itself is only iterated or returned. *)
Theorem parse_delta_save_preserves_input (extra : pystr)
    (existing_pokemon : list loc) (h0 : heap) :
  exists result fresh,
    parse_delta_save extra existing_pokemon h0 = Some (result, h0 ++ fresh).
Proof.
  destruct (N.lt_ge_cases (len extra) 4) as [Hs|Hl].
  - exists existing_pokemon, []. unfold parse_delta_save.
    apply N.ltb_lt in Hs. rewrite Hs, app_nil_r. reflexivity.
  - destruct (parse_delta_save_run extra existing_pokemon h0 Hl)
      as (d' & h' & E & Hf & _).
    exists (finish d' h'), (drop (length h0) h').
    rewrite E. unfold frame in Hf. do 2 f_equal.
    rewrite <- (take_drop (length h0) h') at 1. now rewrite Hf.
Qed.

(** ** The returned roster *)

Section SortedFacts.
Context {A : Type} (key : A -> N).

Let le_key (x y : A) : Prop := key x <= key y.

Lemma insert_sorted_perm (x : A) (l : list A) :
  Permutation (insert_sorted key x l) (x :: l).
Proof.
  induction l as [|y l IH]; cbn [insert_sorted]; [reflexivity|].
  destruct (key x <=? key y); [reflexivity|].
  rewrite IH. apply perm_swap.
Qed.

Lemma sorted_perm (l : list A) : Permutation (sorted key l) l.
Proof.
  induction l as [|x l IH]; [reflexivity|].
  unfold sorted in *. cbn [foldr].
  rewrite insert_sorted_perm. now constructor.
Qed.

Lemma insert_sorted_HdRel (a x : A) (l : list A) :
  le_key a x -> HdRel le_key a l -> HdRel le_key a (insert_sorted key x l).
Proof.
  intros Hax Hl. destruct l as [|y l]; cbn [insert_sorted].
  - now constructor.
  - destruct (key x <=? key y); constructor; [exact Hax|].
    now inversion Hl.
Qed.

Lemma insert_sorted_Sorted (x : A) (l : list A) :
  Sorted le_key l -> Sorted le_key (insert_sorted key x l).
Proof.
  induction 1 as [|y l Hs IH Hhd]; cbn [insert_sorted].
  - repeat constructor.
  - destruct (N.leb_spec (key x) (key y)) as [Hle|Hgt].
    + constructor; [now constructor|now constructor].
    + constructor; [exact IH|].
      apply insert_sorted_HdRel; [unfold le_key; lia|exact Hhd].
Qed.

Lemma sorted_StronglySorted (l : list A) :
  StronglySorted (fun x y => key x <= key y) (sorted key l).
Proof.
  apply Sorted_StronglySorted.
  - intros x y z. apply N.le_trans.
  - induction l as [|x l IH]; [constructor|].
    unfold sorted in *. cbn [foldr]. now apply insert_sorted_Sorted.
Qed.

(** The sort is stable: the elements with a given key come out in the
    order in which they went in. *)
Lemma insert_sorted_filter (v : N) (x : A) (l : list A) :
  List.filter (fun y => key y =? v) (insert_sorted key x l)
  = List.filter (fun y => key y =? v) (x :: l).
Proof.
  induction l as [|y l IH]; cbn [insert_sorted]; [reflexivity|].
  destruct (N.leb_spec (key x) (key y)) as [Hle|Hgt]; [reflexivity|].
  cbn [List.filter] in *. rewrite IH.
  destruct (N.eqb_spec (key x) v), (N.eqb_spec (key y) v);
    try reflexivity.
  lia.
Qed.

Lemma sorted_filter (v : N) (l : list A) :
  List.filter (fun y => key y =? v) (sorted key l)
  = List.filter (fun y => key y =? v) l.
Proof.
  induction l as [|x l IH]; [reflexivity|].
  unfold sorted in *. cbn [foldr].
  rewrite insert_sorted_filter. cbn [List.filter]. now rewrite IH.
Qed.
End SortedFacts.

(** C6 (as stated) fails: a delta shorter than four characters returns the
    caller's list as it is, here out of position order; and records with
    equal positions stay in the order in which the working set got them,
    here myID 5 before myID 3. *)
Lemma roster_order_not_by_myID :
  (let h0 := [set_position 2 (default_pokemon 1);
              set_position 1 (default_pokemon 2)] in
   parse_delta_save [] [0; 1]%nat h0 = Some ([0; 1]%nat, h0))
  /\ (exists h',
         parse_delta_save two_captures_delta [] [] = Some ([0; 1]%nat, h')
         /\ map (fun p => (position (deref h' p), myID (deref h' p)))
              [0; 1]%nat
            = [(1, 5); (1, 3)]).
Proof.
  split; [reflexivity|].
  eexists. split; [vm_compute; reflexivity|reflexivity].
Qed.

(** C6 (amended). A delta shorter than four characters returns the
    caller's list unchanged.  For every other delta and every input
    roster the call returns; the returned list contains no record whose
    myID is 0; it is in non-decreasing order of position; and records with
    equal positions keep the order in which the working set holds them
    (insertion order, not myID): for every position, the records of the
    result at that position are, in the same order, the records at that
    position of the working set's values under a key above 0. *)
Theorem parse_delta_save_result (extra : pystr) (existing_pokemon : list loc)
    (h0 : heap) :
  (len extra < 4 ->
   parse_delta_save extra existing_pokemon h0 = Some (existing_pokemon, h0))
  /\ (4 <= len extra ->
      exists pokemon_by_id result h',
        final_working_set extra existing_pokemon h0
        = Some (pokemon_by_id, h')
        /\ parse_delta_save extra existing_pokemon h0 = Some (result, h')
        /\ Forall (fun p => 0 < myID (deref h' p)) result
        /\ StronglySorted
             (fun p q => position (deref h' p) <= position (deref h' q))
             result
        /\ forall v : N,
             List.filter (fun p => position (deref h' p) =? v) result
             = List.filter (fun p => position (deref h' p) =? v)
                 (dict_values
                    (List.filter (fun kv => 0 <? fst kv) pokemon_by_id))).
Proof.
  split.
  - intros H. unfold parse_delta_save. apply N.ltb_lt in H. now rewrite H.
  - intros H.
    destruct (parse_delta_save_working_set extra existing_pokemon h0 H)
      as (d' & h' & Ew & E & Ho).
    exists d', (finish d' h'), h'.
    split; [exact Ew|]. split; [exact E|]. split; [|split].
    + unfold finish.
      eapply Permutation_Forall; [symmetry; apply sorted_perm|].
      unfold dict_values. rewrite List.Forall_map, List.Forall_forall.
      intros [k l] Hin. apply filter_In in Hin as [Hin Hk].
      cbn [fst snd] in *.
      destruct (owned_In _ _ _ _ _ Ho Hin) as [_ Hid].
      apply N.ltb_lt in Hk. now rewrite Hid.
    + unfold finish.
      apply (sorted_StronglySorted (fun p => position (deref h' p))).
    + intros v. unfold finish.
      apply (sorted_filter (fun p => position (deref h' p))).
Qed.

Lemma parse_delta_save_result_witness :
  parse_delta_save (lit "yq") [0%nat] [default_pokemon 1]
  = Some ([0%nat], [default_pokemon 1])
  /\ exists pokemon_by_id result h',
      final_working_set two_captures_delta [] [] = Some (pokemon_by_id, h')
      /\ parse_delta_save two_captures_delta [] [] = Some (result, h')
      /\ Forall (fun p => 0 < myID (deref h' p)) result
      /\ StronglySorted
           (fun p q => position (deref h' p) <= position (deref h' q))
           result
      /\ forall v : N,
           List.filter (fun p => position (deref h' p) =? v) result
           = List.filter (fun p => position (deref h' p) =? v)
               (dict_values
                  (List.filter (fun kv => 0 <? fst kv) pokemon_by_id)).
Proof.
  split.
  - apply (parse_delta_save_result (lit "yq") [0%nat] [default_pokemon 1]).
    reflexivity.
  - apply (parse_delta_save_result two_captures_delta [] []).
    vm_compute. discriminate.
Defined.

(** ** myID allocation *)






(** Scenario 2 of the specification: against an empty roster the first
    capture receives myID 1. *)
Example first_capture_gets_myID_1 :
  parse_delta_save first_capture_delta [] []
  = Some ([0%nat],
          [set_tag (lit "Bulba") (set_position 1 (default_pokemon 1))]).
Proof. vm_compute. reflexivity. Qed.

(** Scenario 3: the evolution is applied to a copy of the record; the
    caller's record (address 0) keeps species 1. *)
Example evolve_scenario :
  let r1 := set_position 1 (default_pokemon 1) in
  parse_delta_save evolve_delta [0%nat] [r1]
  = Some ([1%nat], [r1; set_species 2 r1]).
Proof. vm_compute. reflexivity. Qed.

(** Scenarios 4 and 5: the entry with myID 0 and a needLevel first change
    is skipped, the capture that follows is applied, and extraRarity 180
    is stored as rarity 2. *)
Example invalid_entry_then_capture :
  parse_delta_save invalid_then_capture_delta [] []
  = Some ([0%nat],
          [set_shiny 2
             (set_tag (lit "Bulba") (set_position 1 (default_pokemon 1)))]).
Proof. vm_compute. reflexivity. Qed.

(** ** Entries for an unknown myID *)

(** C7. The claim does not hold of the code: the skip loop of the
    unknown-myID branch has no case for change types 1 and 10, so the
    payload of a skipped needTrade is read again as further entries.  Here
    the roster holds one record (myID 1, level 5) and the delta is a single
    entry for the unknown myID 7 with one needTrade change; the returned
    record has level 99. *)
Theorem unknown_trade_changes_roster :
  let r1 := set_position 1 (default_pokemon 1) in
  dict_get [(1, 0%nat)] 7 = None
  /\ parse_delta_save unknown_trade_delta [0%nat] [r1]
     = Some ([1%nat], [r1; set_level 99 r1])
  /\ set_level 99 r1 <> r1.
Proof.
  split; [reflexivity|]. split; [vm_compute; reflexivity|discriminate].
Qed.

(** * Further properties of the code *)

(** ** The bare-integer codec *)

Lemma decode_loop_acc (s digits : pystr) :
  decode_loop s digits
  = match decode_loop s [] with
    | Some ds => Some (digits ++ ds)
    | None => None
    end.
Proof.
  revert digits. induction s as [|ch s IH]; intros digits; cbn [decode_loop].
  - now rewrite app_nil_r.
  - destruct (assoc ch LETTER_TO_DIGIT) as [d|]; [|reflexivity].
    rewrite (IH (digits ++ [d])), (IH ([] ++ [d])).
    destruct (decode_loop s []); [|reflexivity].
    now rewrite <- app_assoc.
Qed.

Lemma decode_int_string_alt (s : pystr) :
  decode_int_string s
  = match decode_loop s [] with
    | Some ds => int_of_digits ds
    | None => 0
    end.
Proof.
  unfold decode_int_string. destruct s as [|c s]; [reflexivity|].
  destruct (decode_loop (c :: s) []) as [[|d ds]|]; reflexivity.
Qed.

Lemma int_of_digits_zero_cons (ds : pystr) :
  int_of_digits (digit_char 0 :: ds) = int_of_digits ds.
Proof. reflexivity. Qed.

(** The decoded value ignores a leading zero letter. *)
Lemma decode_int_string_cons_m (s : pystr) :
  decode_int_string ("m"%char :: s) = decode_int_string s.
Proof.
  rewrite !decode_int_string_alt.
  change (decode_loop ("m"%char :: s) [])
    with (decode_loop s [digit_char 0]).
  rewrite (decode_loop_acc s [digit_char 0]).
  destruct (decode_loop s []) as [ds|]; [|reflexivity].
  apply int_of_digits_zero_cons.
Qed.

Lemma digit_to_letter_in (d : N) :
  d < 10 -> In (digit_to_letter (digit_char d)) LETTER_LIST.
Proof.
  intros H.
  destruct (digit_cases d H)
    as [->|[->|[->|[->|[->|[->|[->|[->|[->| ->]]]]]]]]];
    cbn; tauto.
Qed.

Lemma digit_to_letter_m (d : N) :
  d < 10 -> digit_to_letter (digit_char d) = "m"%char -> d = 0.
Proof.
  intros H.
  destruct (digit_cases d H)
    as [->|[->|[->|[->|[->|[->|[->|[->|[->| ->]]]]]]]]];
    cbn; intros E; try reflexivity; discriminate E.
Qed.

(** The first digit of [str n] is zero only for [n = 0]. *)
Lemma str_head (n : N) :
  exists d rest, str n = digit_char d :: rest /\ d < 10
                 /\ (d = 0 -> n = 0 /\ rest = []).
Proof.
  induction n as [n H|n H (d & rest & E & Hd & Hz)] using decimal_ind.
  - exists n, []. rewrite str_small by exact H. auto.
  - exists d, (rest ++ [digit_char (n mod 10)]).
    rewrite str_big, E by exact H. split; [reflexivity|]. split; [exact Hd|].
    intros ->. destruct (Hz eq_refl) as [Hq _].
    pose proof (N.div_mod n 10 ltac:(lia)).
    pose proof (N.mod_lt n 10 ltac:(lia)). lia.
Qed.

Lemma encode_int_is_canonical (n : N) :
  canonical (encode_int n)
  /\ (forall s', encode_int n = "m"%char :: s' -> n = 0).
Proof.
  assert (Hm : forall s', encode_int n = "m"%char :: s' -> n = 0 /\ s' = []).
  { intros s' E. rewrite encode_int_map in E.
    destruct (str_head n) as (d & rest & Es & Hd & Hz).
    rewrite Es in E. cbn [map] in E. injection E as E1 E2.
    apply digit_to_letter_m in E1; [|exact Hd].
    destruct (Hz E1) as [-> ->]. cbn in E2. auto. }
  split; [split; [apply encode_int_nonempty|split]|].
  - rewrite encode_int_map. apply List.Forall_map.
    eapply List.Forall_impl; [|apply str_digits].
    intros c (d & Hd & ->). now apply digit_to_letter_in.
  - intros s' E. exact (proj2 (Hm s' E)).
  - intros s' E. exact (proj1 (Hm s' E)).
Qed.

Lemma letter_cases (c : ascii) :
  In c LETTER_LIST -> exists d, d < 10 /\ c = digit_to_letter (digit_char d).
Proof.
  cbn. intros H.
  repeat (destruct H as [<-|H];
          [first [exists 0; split; [lia|reflexivity]
                 |exists 1; split; [lia|reflexivity]
                 |exists 2; split; [lia|reflexivity]
                 |exists 3; split; [lia|reflexivity]
                 |exists 4; split; [lia|reflexivity]
                 |exists 5; split; [lia|reflexivity]
                 |exists 6; split; [lia|reflexivity]
                 |exists 7; split; [lia|reflexivity]
                 |exists 8; split; [lia|reflexivity]
                 |exists 9; split; [lia|reflexivity]]|]).
  contradiction.
Qed.

(** A string of letters is the image of a string of digits. *)
Lemma letters_digits (s : pystr) :
  Forall (fun c => In c LETTER_LIST) s ->
  exists ds, s = map digit_to_letter ds
             /\ Forall (fun c => exists d, d < 10 /\ c = digit_char d) ds.
Proof.
  induction 1 as [|c s Hc _ (ds & -> & Hds)].
  - exists []. split; [reflexivity|constructor].
  - destruct (letter_cases c Hc) as (d & Hd & ->).
    exists (digit_char d :: ds). split; [reflexivity|].
    constructor; [eauto|exact Hds].
Qed.

Lemma digit_char_inj (d d' : N) :
  d < 10 -> d' < 10 -> digit_char d = digit_char d' -> d = d'.
Proof.
  intros H H' E. apply (f_equal digit_val) in E.
  now rewrite !digit_val_char in E.
Qed.

(** [str] inverts [int] on digit strings without a leading zero. *)
Lemma str_int_of_digits (ds : pystr) :
  ds <> [] ->
  Forall (fun c => exists d, d < 10 /\ c = digit_char d) ds ->
  (forall rest, ds = digit_char 0 :: rest -> rest = []) ->
  str (int_of_digits ds) = ds.
Proof.
  induction ds as [|c ds IH] using rev_ind; [congruence|].
  intros _ Hd Hz. apply Forall_app in Hd as [Hds Hc].
  apply List.Forall_cons_iff in Hc as [(d & Hd & ->) _].
  rewrite int_of_digits_snoc, digit_val_char by exact Hd.
  destruct ds as [|c0 ds'].
  - change (int_of_digits []) with 0.
    rewrite N.mul_0_r, N.add_0_l, str_small by lia. reflexivity.
  - assert (Hz' : forall rest, c0 :: ds' = digit_char 0 :: rest -> rest = []).
    { intros rest [= -> ->]. specialize (Hz _ eq_refl).
      destruct rest; discriminate Hz. }
    specialize (IH ltac:(discriminate) Hds Hz').
    assert (Hpos : int_of_digits (c0 :: ds') <> 0).
    { intros E0. rewrite E0 in IH. rewrite str_small in IH by lia.
      injection IH as <- <-. specialize (Hz _ eq_refl). discriminate Hz. }
    rewrite str_big by lia.
    replace ((10 * int_of_digits (c0 :: ds') + d) / 10)
      with (int_of_digits (c0 :: ds'))
      by (apply N.div_unique with d; lia).
    replace ((10 * int_of_digits (c0 :: ds') + d) mod 10) with d
      by (apply N.mod_unique with (int_of_digits (c0 :: ds')); lia).
    now rewrite IH.
Qed.

Lemma encode_int_decode_int_string (s : pystr) :
  canonical s -> encode_int (decode_int_string s) = s.
Proof.
  intros (Hne & Hs & Hz).
  destruct (letters_digits s Hs) as (ds & -> & Hds).
  rewrite decode_int_string_letters by exact Hds.
  rewrite encode_int_map. f_equal.
  apply str_int_of_digits; [|exact Hds|].
  - intros ->. now apply Hne.
  - intros rest ->. specialize (Hz (map digit_to_letter rest) eq_refl).
    now destruct rest.
Qed.

(** ** What the readers can return *)

Lemma assoc_letter_digit (c d : ascii) :
  assoc c LETTER_TO_DIGIT = Some d -> exists k, k < 10 /\ d = digit_char k.
Proof.
  cbn.
  repeat match goal with
         | |- context [Ascii.eqb c ?x] => destruct (Ascii.eqb c x)
         end;
    intros [= <-];
    first [exists 0; split; [lia|reflexivity]
          |exists 1; split; [lia|reflexivity]
          |exists 2; split; [lia|reflexivity]
          |exists 3; split; [lia|reflexivity]
          |exists 4; split; [lia|reflexivity]
          |exists 5; split; [lia|reflexivity]
          |exists 6; split; [lia|reflexivity]
          |exists 7; split; [lia|reflexivity]
          |exists 8; split; [lia|reflexivity]
          |exists 9; split; [lia|reflexivity]].
Qed.

Lemma decode_loop_digits (s : pystr) :
  forall ds, decode_loop s [] = Some ds ->
  length ds = length s
  /\ Forall (fun c => exists d, d < 10 /\ c = digit_char d) ds.
Proof.
  induction s as [|ch s IH]; intros ds; cbn [decode_loop].
  - intros [= <-]. split; [reflexivity|constructor].
  - destruct (assoc ch LETTER_TO_DIGIT) as [d|] eqn:Ea; [|discriminate].
    rewrite (decode_loop_acc s ([] ++ [d])).
    destruct (decode_loop s []) as [ds'|]; [|discriminate].
    intros [= <-]. destruct (IH ds' eq_refl) as [Hl Hf].
    apply assoc_letter_digit in Ea. cbn [app length].
    split; [now rewrite Hl|]. constructor; assumption.
Qed.

Lemma int_of_digits_bound (ds : pystr) :
  Forall (fun c => exists d, d < 10 /\ c = digit_char d) ds ->
  int_of_digits ds < 10 ^ N.of_nat (length ds).
Proof.
  induction ds as [|c ds IH] using rev_ind; intros H.
  - cbn. lia.
  - apply Forall_app in H as [Hds Hc].
    apply List.Forall_cons_iff in Hc as [(d & Hd & ->) _].
    rewrite int_of_digits_snoc, digit_val_char, length_app by exact Hd.
    cbn [length]. rewrite Nat.add_1_r, Nat2N.inj_succ, N.pow_succ_r'.
    specialize (IH Hds). lia.
Qed.

(** A decoded value has at most as many digits as there are letters. *)
Lemma decode_int_string_bound (s : pystr) :
  decode_int_string s < 10 ^ N.of_nat (length s).
Proof.
  rewrite decode_int_string_alt.
  destruct (decode_loop s []) as [ds|] eqn:E.
  - destruct (decode_loop_digits s ds E) as [<- Hf].
    now apply int_of_digits_bound.
  - apply N.neq_0_lt_0, N.pow_nonzero. lia.
Qed.

Lemma length_slice (b : pystr) (a c : N) :
  (length (slice b a c) <= N.to_nat (c - a))%nat.
Proof. unfold slice. rewrite length_take. lia. Qed.

Lemma decode_char_at_bound (b : pystr) (i : N) :
  decode_int_string (char_at b i) < 10.
Proof.
  pose proof (decode_int_string_bound (char_at b i)) as H.
  pose proof (length_slice b i (i + 1)) as Hl. fold (char_at b i) in Hl.
  assert (Hle : N.of_nat (length (char_at b i)) <= 1) by lia.
  pose proof (N.pow_le_mono_r 10 _ _ ltac:(lia) Hle). lia.
Qed.

Lemma decode_slice_bound (b : pystr) (i n : N) :
  n < 10 -> decode_int_string (slice b i (i + n)) < 10 ^ 9.
Proof.
  intros Hn.
  pose proof (decode_int_string_bound (slice b i (i + n))) as H.
  pose proof (length_slice b i (i + n)) as Hl.
  assert (Hle : N.of_nat (length (slice b i (i + n))) <= 9) by lia.
  pose proof (N.pow_le_mono_r 10 _ _ ltac:(lia) Hle). lia.
Qed.

Lemma read_int_value_bound (b : pystr) (i : N) : fst (read_int b i) < 10 ^ 9.
Proof.
  pose proof (decode_char_at_bound b i) as Hc.
  unfold read_int. destruct (len b <=? i); [reflexivity|].
  destruct (len b <? _); [reflexivity|]. cbn [fst].
  now apply decode_slice_bound.
Qed.

Lemma read_string_length_bound (b : pystr) (i : N) :
  len (fst (read_string b i)) <= 9.
Proof.
  pose proof (decode_char_at_bound b i) as Hc.
  unfold read_string.
  destruct (len b <=? i); [cbn [fst]; unfold len; cbn [length]; lia|].
  destruct (len b <? _); [cbn [fst]; unfold len; cbn [length]; lia|].
  cbn [fst].
  pose proof (length_slice b (i + 1)
                (i + 1 + decode_int_string (char_at b i))).
  unfold len. lia.
Qed.

(** X4. Whatever the blob and the cursor, [read_int] returns a value below
    [10^9] and [read_string] a string of at most nine characters: the
    length letter is a single digit. *)
Theorem single_prefix_bounds (b : pystr) (i : N) :
  fst (read_int b i) < 10 ^ 9 /\ len (fst (read_string b i)) <= 9.
Proof.
  split; [apply read_int_value_bound|apply read_string_length_bound].
Qed.

(** X5. No reader moves the cursor backwards, and a cursor that is inside
    the blob (or at its end) stays there: no reader moves it past the end
    of the blob. *)
Theorem readers_cursor_range (b : pystr) (i : N) :
  (i <= snd (read_int b i) /\ i <= snd (read_int2 b i)
   /\ i <= snd (read_string b i))
  /\ (i <= len b ->
      snd (read_int b i) <= len b /\ snd (read_int2 b i) <= len b
      /\ snd (read_string b i) <= len b).
Proof.
  split.
  - unfold read_int, read_int2, read_string.
    repeat match goal with
           | |- context [if ?c then _ else _] => destruct c
           end; cbn [snd]; lia.
  - intros Hi. unfold read_int, read_int2, read_string.
    repeat match goal with
           | |- context [N.leb ?x ?y] => destruct (N.leb_spec x y)
           | |- context [N.ltb ?x ?y] => destruct (N.ltb_spec x y)
           end; cbn [snd]; lia.
Qed.

Lemma readers_cursor_range_witness :
  snd (read_int (lit "wcc") 0) <= len (lit "wcc")
  /\ snd (read_int2 (lit "yyy") 3) <= len (lit "yyy")
  /\ snd (read_string (lit "e") 0) <= len (lit "e").
Proof.
  split; [|split].
  - apply (readers_cursor_range (lit "wcc") 0). vm_compute. discriminate.
  - apply (readers_cursor_range (lit "yyy") 3). vm_compute. discriminate.
  - apply (readers_cursor_range (lit "e") 0). vm_compute. discriminate.
Defined.

Lemma read_string_encoded (p q tg : pystr) :
  len tg < 10 ->
  read_string (p ++ (encode_int (len tg) ++ tg) ++ q) (len p)
  = (tg, len p + 1 + len tg).
Proof.
  intros H. rewrite (encode_int_digit _ H). cbn [app].
  apply read_string_at.
  rewrite <- (encode_int_digit _ H). apply decode_int_string_encode_int.
Qed.

(** X6. A tag of fewer than ten characters, written as the snapshot
    encoder writes it (one length letter, then the raw characters), is
    read back by [read_string], whatever the characters are and whatever
    surrounds it; the cursor ends right after the tag. *)
Theorem read_string_tag (p q tg : pystr) :
  len tg < 10 ->
  read_string (p ++ (encode_int (len tg) ++ tg) ++ q) (len p)
  = (tg, len p + 1 + len tg).
Proof. apply read_string_encoded. Qed.

Lemma read_string_tag_witness :
  read_string
    (lit "ym" ++ (encode_int (len (lit "Mr. Mime")) ++ lit "Mr. Mime")
     ++ lit "yy") (len (lit "ym"))
  = (lit "Mr. Mime", len (lit "ym") + 1 + len (lit "Mr. Mime")).
Proof. apply read_string_tag. reflexivity. Defined.

(** ** The envelope of the two blob encoders *)

(** A header written as [encode_int (len header) ++ header] in front of a
    body is a single-prefixed integer: [read_int] reads the body length
    and stops where the body starts. *)
Lemma read_envelope (body : pystr) :
  len body < 10 ^ 9 ->
  let header := encode_int (len body) in
  let blob := encode_int (len header) ++ header ++ body in
  read_int blob 0 = (len body, 1 + len header)
  /\ len blob = 1 + len header + len body.
Proof.
  intros H header blob.
  pose proof (len_encode_int_small _ H) as Hh. fold header in Hh.
  subst blob. rewrite (encode_int_digit _ Hh). cbn [app].
  assert (Hdec : decode_int_string [digit_to_letter (digit_char (len header))]
                 = len header)
    by (rewrite <- (encode_int_digit _ Hh);
        apply decode_int_string_encode_int).
  split.
  - pose proof (read_int_at [] _ header body Hdec) as E.
    cbn [app] in E. change (len (@nil ascii)) with 0 in E. rewrite E.
    unfold header at 1. rewrite decode_int_string_encode_int.
    reflexivity.
  - rewrite len_cons, len_app. lia.
Qed.

(** The count field that opens the body. *)
Lemma read_count (pre data : pystr) (count : N) :
  count < 10 ^ 9 ->
  let count_encoded := encode_int count in
  read_int (pre ++ (encode_int (len count_encoded) ++ count_encoded ++ data))
    (len pre)
  = (count, len pre + 1 + len count_encoded).
Proof.
  intros H ce.
  pose proof (len_encode_int_small _ H) as Hc. fold ce in Hc.
  rewrite (encode_int_digit _ Hc). cbn [app].
  rewrite (read_int_at pre _ ce data).
  - unfold ce at 1. now rewrite decode_int_string_encode_int.
  - rewrite <- (encode_int_digit _ Hc). apply decode_int_string_encode_int.
Qed.

Lemma snapshot_fold (l : list (pokemon * option N)) (acc : pystr) :
  fold_left
    (fun pokemon_data '(poke, stored) =>
       pokemon_data ++ snapshot_record poke stored) l acc
  = acc ++ flat_map (fun '(poke, stored) => snapshot_record poke stored) l.
Proof.
  revert acc. induction l as [|[p st] l IH]; intros acc; cbn [fold_left flat_map].
  - now rewrite app_nil_r.
  - rewrite IH, <- app_assoc. reflexivity.
Qed.

Lemma len_snapshot_records (l : list (pokemon * option N)) :
  len l
  <= len (flat_map (fun '(poke, stored) => snapshot_record poke stored) l).
Proof.
  induction l as [|[p st] l IH]; [unfold len; cbn; lia|].
  cbn [flat_map]. rewrite len_cons, len_app.
  unfold snapshot_record at 1. rewrite len_app.
  unfold encode_with_length at 1. rewrite len_app.
  pose proof (len_encode_int_pos (species p)). lia.
Qed.

(** X7. For a non-empty roster whose snapshot is shorter than [10^9]
    characters, the header of the snapshot declares exactly the length of
    what follows it, and the count field that follows is the number of
    records: [read_int] at 0 returns a value that, added to the cursor it
    stops at, is the length of the blob, and [read_int] at that cursor
    returns [len(pokemon_list)].  (The fixed blob of the empty roster
    declares 4, its total length.) *)
Theorem snapshot_envelope (pokemon_list : list (pokemon * option N)) :
  pokemon_list <> [] ->
  len (encode_pokemon_snapshot pokemon_list) < 10 ^ 9 ->
  let blob := encode_pokemon_snapshot pokemon_list in
  snd (read_int blob 0) + fst (read_int blob 0) = len blob
  /\ fst (read_int blob (snd (read_int blob 0))) = len pokemon_list.
Proof.
  intros Hne Hlen blob. subst blob. unfold encode_pokemon_snapshot in *.
  destruct pokemon_list as [|x y]; [congruence|]. clear Hne.
  remember (x :: y) as l eqn:El. clear El x y.
  rewrite snapshot_fold in *. cbn [app] in *.
  set (records := flat_map _ l) in *.
  set (body := encode_int (len (encode_int (len l)))
               ++ encode_int (len l) ++ records) in *.
  assert (Hbody : len body < 10 ^ 9) by (rewrite !len_app in Hlen; lia).
  destruct (read_envelope body Hbody) as [Hr Hl]. cbv zeta in Hr, Hl.
  rewrite Hr. cbn [fst snd]. split; [lia|].
  assert (Hcount : len l < 10 ^ 9).
  { pose proof (len_snapshot_records l). fold records in H.
    unfold body in Hbody. rewrite !len_app in Hbody. lia. }
  set (header := encode_int (len body)) in *.
  pose proof (len_encode_int_small _ Hbody) as Hh. fold header.
  fold header in Hh.
  rewrite (encode_int_digit _ Hh). cbn [app].
  pose proof (read_count (digit_to_letter (digit_char (len header)) :: header)
                records (len l) Hcount) as Hc.
  cbv zeta in Hc. fold body in Hc. cbn [app] in Hc.
  rewrite len_cons in Hc. rewrite Hc. reflexivity.
Qed.

Lemma snapshot_envelope_witness :
  let blob :=
    encode_pokemon_snapshot
      [(default_pokemon 1, None); (default_pokemon 2, Some 855)] in
  snd (read_int blob 0) + fst (read_int blob 0) = len blob
  /\ fst (read_int blob (snd (read_int blob 0))) = 2.
Proof.
  apply (snapshot_envelope
           [(default_pokemon 1, None); (default_pokemon 2, Some 855)]).
  - discriminate.
  - reflexivity.
Defined.

(** X8. The same for a non-empty key/value dict whose blob is shorter
    than [10^9] characters: the header read by [read_int] at 0 plus the
    cursor it stops at is the length of the blob, and the next
    [read_int] returns the number of items. *)
Theorem kv_envelope (kv_dict : list (N * N)) :
  kv_dict <> [] ->
  len (encode_kv_blob kv_dict) < 10 ^ 9 ->
  let blob := encode_kv_blob kv_dict in
  snd (read_int blob 0) + fst (read_int blob 0) = len blob
  /\ fst (read_int blob (snd (read_int blob 0))) = len kv_dict.
Proof.
  intros Hne Hlen blob. subst blob. unfold encode_kv_blob in *.
  destruct kv_dict as [|x y]; [congruence|]. clear Hne.
  remember (x :: y) as l eqn:El. clear El x y.
  rewrite kv_fold in *. cbn [app] in *. rewrite N.add_0_l in *.
  set (body := encode_int (len (encode_int (len l)))
               ++ encode_int (len l) ++ kv_data l) in *.
  assert (Hbody : len body < 10 ^ 9) by (rewrite !len_app in Hlen; lia).
  destruct (read_envelope body Hbody) as [Hr Hl]. cbv zeta in Hr, Hl.
  rewrite Hr. cbn [fst snd]. split; [lia|].
  assert (Hcount : len l < 10 ^ 9).
  { pose proof (len_kv_data l).
    unfold body in Hbody. rewrite !len_app in Hbody. lia. }
  set (header := encode_int (len body)) in *.
  pose proof (len_encode_int_small _ Hbody) as Hh. fold header.
  fold header in Hh.
  rewrite (encode_int_digit _ Hh). cbn [app].
  pose proof (read_count (digit_to_letter (digit_char (len header)) :: header)
                (kv_data l) (len l) Hcount) as Hc.
  cbv zeta in Hc. fold body in Hc. cbn [app] in Hc.
  rewrite len_cons in Hc. rewrite Hc. reflexivity.
Qed.

Lemma kv_envelope_witness :
  let blob := encode_kv_blob [(3, 4); (5, 600)] in
  snd (read_int blob 0) + fst (read_int blob 0) = len blob
  /\ fst (read_int blob (snd (read_int blob 0))) = 2.
Proof.
  apply (kv_envelope [(3, 4); (5, 600)]); [discriminate|reflexivity].
Defined.

(** ** Reading a snapshot record back *)

(** The readers in "next field" form: the blob is a prefix, the field and
    a rest; the cursor moves from the end of the prefix to the end of the
    field. *)
Lemma read_int_step (b p q : pystr) (n : N) :
  b = p ++ encode_with_length n ++ q -> n < 10 ^ 9 ->
  read_int b (len p) = (n, len (p ++ encode_with_length n)).
Proof. intros -> H. rewrite len_app. now apply read_int_encode. Qed.

Lemma read_int2_step (b p q : pystr) (n : N) :
  b = p ++ encode_with_double_length n ++ q -> len (encode_int n) < 10 ^ 9 ->
  read_int2 b (len p) = (n, len (p ++ encode_with_double_length n)).
Proof. intros -> H. rewrite len_app. now apply read_int2_encode. Qed.

Lemma read_string_step (b p q tg : pystr) :
  b = p ++ (encode_int (len tg) ++ tg) ++ q -> len tg < 10 ->
  read_string b (len p) = (tg, len (p ++ encode_int (len tg) ++ tg)).
Proof.
  intros -> H. rewrite read_string_encoded by exact H.
  rewrite !len_app, (encode_int_digit _ H). f_equal.
  unfold len. cbn [length]. lia.
Qed.

Ltac next_field lem :=
  erewrite lem;
  [cbv beta iota
  |match goal with
   | E : ?b = _ |- ?b = _ =>
       rewrite E; unfold snapshot_record;
       repeat rewrite <- app_assoc; reflexivity
   end
  |assumption].

(** X9. A record whose single-prefixed items are below [10^9], whose
    experience and myID are below [10^4300] (at most 4300 digits, so that
    no conversion exceeds the interpreter's limit) and whose tag has fewer
    than ten characters is read back from its snapshot encoding, wherever
    it stands in a blob, by the readers applied in the order of the
    snapshot layout; the cursor ends at the end of the record. *)
Theorem snapshot_record_readback (pre post : pystr) (poke : pokemon)
    (stored : option N) :
  species poke < 10 ^ 9 -> experience poke < 10 ^ max_str_digits ->
  level poke < 10 ^ 9 -> move1 poke < 10 ^ 9 -> move2 poke < 10 ^ 9 ->
  move3 poke < 10 ^ 9 -> move4 poke < 10 ^ 9 ->
  moveSelected poke < 10 ^ 9 -> targetType poke < 10 ^ 9 ->
  myID poke < 10 ^ max_str_digits -> position poke < 10 ^ 9 ->
  snapshot_extra_rarity stored poke < 10 ^ 9 -> len (tag poke) < 10 ->
  let b := pre ++ snapshot_record poke stored ++ post in
  let '(sp, i) := read_int b (len pre) in
  let '(ex, i) := read_int2 b i in
  let '(lv, i) := read_int b i in
  let '(m1, i) := read_int b i in
  let '(m2, i) := read_int b i in
  let '(m3, i) := read_int b i in
  let '(m4, i) := read_int b i in
  let '(ms, i) := read_int b i in
  let '(ty, i) := read_int b i in
  let '(mid, i) := read_int2 b i in
  let '(pos, i) := read_int b i in
  let '(er, i) := read_int b i in
  let '(tg, i) := read_string b i in
  (sp, ex, lv, m1, m2, m3, m4, ms, ty)
  = (species poke, experience poke, level poke, move1 poke, move2 poke,
     move3 poke, move4 poke, moveSelected poke, targetType poke)
  /\ (mid, pos, er, tg)
     = (myID poke, position poke, snapshot_extra_rarity stored poke,
        tag poke)
  /\ i = len pre + len (snapshot_record poke stored).
Proof.
  intros H1 H2 H3 H4 H5 H6 H7 H8 H9 H10 H11 H12 H13 b.
  apply len_encode_int_limit in H2, H10.
  remember b as blob eqn:Eb. subst b.
  next_field read_int_step.
  next_field read_int2_step.
  next_field read_int_step.
  next_field read_int_step.
  next_field read_int_step.
  next_field read_int_step.
  next_field read_int_step.
  next_field read_int_step.
  next_field read_int_step.
  next_field read_int2_step.
  next_field read_int_step.
  next_field read_int_step.
  rewrite (read_string_step blob _ post (tag poke));
    [cbv beta iota
    |rewrite Eb; unfold snapshot_record;
     repeat rewrite <- app_assoc; reflexivity
    |assumption].
  split; [reflexivity|]. split; [reflexivity|].
  unfold snapshot_record. repeat rewrite len_app. lia.
Qed.

Lemma snapshot_record_readback_witness :
  let poke :=
    set_tag (lit "Bulbasaur") (set_shiny 2 (set_experience 123456789012
      (set_position 3 (default_pokemon 12)))) in
  let b := lit "yy" ++ snapshot_record poke None ++ lit "ym" in
  let '(sp, i) := read_int b 2 in
  let '(ex, i) := read_int2 b i in
  let '(lv, i) := read_int b i in
  let '(m1, i) := read_int b i in
  let '(m2, i) := read_int b i in
  let '(m3, i) := read_int b i in
  let '(m4, i) := read_int b i in
  let '(ms, i) := read_int b i in
  let '(ty, i) := read_int b i in
  let '(mid, i) := read_int2 b i in
  let '(pos, i) := read_int b i in
  let '(er, i) := read_int b i in
  let '(tg, i) := read_string b i in
  (sp, ex, lv, m1, m2, m3, m4, ms, ty)
  = (1, 123456789012, 5, 33, 0, 0, 0, 1, 1)
  /\ (mid, pos, er, tg) = (12, 3, 180, lit "Bulbasaur")
  /\ i = 2 + len (snapshot_record poke None).
Proof.
  intros poke.
  apply (snapshot_record_readback (lit "yy") (lit "ym") poke None);
    in_range.
Defined.

(** ** Rarity through a snapshot *)



(** ** Skipping and applying a change *)

(** Name the result of a read whose cursor is itself not the result of a
    read still to be named. *)
Ltac settled i :=
  lazymatch i with
  | context [read_int] => fail
  | context [read_int2] => fail
  | context [read_string] => fail
  | _ => idtac
  end.

Ltac name_reads :=
  repeat match goal with
         | |- context [read_int ?b ?i] =>
             settled i; destruct (read_int b i); cbn [fst snd]
         | |- context [read_int2 ?b ?i] =>
             settled i; destruct (read_int2 b i); cbn [fst snd]
         | |- context [read_string ?b ?i] =>
             settled i; destruct (read_string b i); cbn [fst snd]
         end.

Lemma skip_fields_4 (extra : pystr) (i : N) :
  skip_fields extra 4 [] i
  = snd (read_int extra (snd (read_int extra (snd (read_int extra
      (snd (read_int extra i))))))).
Proof. reflexivity. Qed.

Lemma skip_fields_10 (extra : pystr) (i : N) :
  skip_fields extra 10 [1] i
  = snd (read_int extra (snd (read_int extra (snd (read_int extra
      (snd (read_int extra (snd (read_int extra (snd (read_int extra
      (snd (read_int extra (snd (read_int extra (snd (read_int2 extra
      (snd (read_int extra i))))))))))))))))))).
Proof. reflexivity. Qed.

(** X11. Skipping a change consumes exactly what applying it would
    consume, for every blob and cursor: in the skip loop of the myID 0
    branch for every change type other than 1, and in the skip loop of
    the unknown-myID branch for every change type other than 1 and 10. *)
Theorem skip_consumes_like_apply (extra : pystr) (ct i : N) (poke : pokemon) :
  ct <> 1 ->
  skip_payload extra ct i = snd (apply_change extra ct i poke)
  /\ (ct <> 10 ->
      skip_unknown_payload extra ct i = snd (apply_change extra ct i poke)).
Proof.
  intros H1. unfold skip_payload, skip_unknown_payload, apply_change.
  rewrite skip_fields_4, skip_fields_10.
  destruct (N.eqb_spec ct 1) as [|_]; [contradiction|].
  split; [|intros H10; destruct (N.eqb_spec ct 10) as [|_]; [contradiction|]];
    cbn [in_list existsb];
    repeat match goal with
           | |- context [N.eqb ct ?k] => destruct (N.eqb ct k)
           end;
    cbn [orb]; name_reads; reflexivity.
Qed.

Lemma skip_consumes_like_apply_witness :
  skip_payload (trade_payload 1 1 2 99 0 0 0 1 1 1) 10 0
  = snd (apply_change (trade_payload 1 1 2 99 0 0 0 1 1 1) 10 0
           (default_pokemon 1)).
Proof.
  apply (skip_consumes_like_apply (trade_payload 1 1 2 99 0 0 0 1 1 1) 10 0
           (default_pokemon 1)).
  discriminate.
Defined.

(** X12. What a change leaves alone: no change type writes the items
    ["id"] and ["myID"]; only a needCaptured (type 1) writes ["shiny"];
    only types 1 and 9 write ["tag"]. *)
Theorem apply_change_frame (extra : pystr) (ct i : N) (poke : pokemon) :
  let poke' := fst (apply_change extra ct i poke) in
  poke_id poke' = poke_id poke /\ myID poke' = myID poke
  /\ (ct <> 1 -> shiny poke' = shiny poke)
  /\ (ct <> 1 -> ct <> 9 -> tag poke' = tag poke).
Proof.
  cbv zeta. unfold apply_change.
  destruct (N.eqb_spec ct 1) as [E1|_].
  - name_reads.
    repeat match goal with
           | |- context [if ?c then _ else _] => destruct c
           end;
      (split; [reflexivity|]); (split; [reflexivity|]);
      split; intros; contradiction.
  - destruct (N.eqb_spec ct 9) as [E9|_].
    + repeat match goal with
             | |- context [N.eqb ct ?k] => destruct (N.eqb ct k)
             end;
        name_reads; (split; [reflexivity|]); (split; [reflexivity|]);
        (split; [reflexivity|]); intros; contradiction.
    + repeat match goal with
             | |- context [N.eqb ct ?k] => destruct (N.eqb ct k)
             end;
        name_reads; repeat split; reflexivity.
Qed.

Lemma apply_change_frame_witness :
  let poke := set_tag (lit "Rex") (set_shiny 2 (default_pokemon 4)) in
  let poke' := fst (apply_change (trade_payload 1 1 2 99 0 0 0 1 1 1) 10 0
                      poke) in
  shiny poke' = 2 /\ tag poke' = lit "Rex".
Proof.
  intros poke poke'.
  destruct (apply_change_frame (trade_payload 1 1 2 99 0 0 0 1 1 1) 10 0 poke)
    as (_ & _ & Hs & Ht).
  split; [apply Hs; discriminate|apply Ht; discriminate].
Defined.

(** ** The working set has one record per myID *)

Lemma in_keys_dict_set {V} (d : list (N * V)) (k x : N) (v : V) :
  In x (dict_keys (dict_set d k v)) -> x = k \/ In x (dict_keys d).
Proof.
  induction d as [|[k' v'] d IH]; cbn [dict_set dict_keys map fst In].
  - intros [<-|[]]. now left.
  - destruct (k =? k'); cbn [map fst In].
    + intros [<-|H]; auto.
    + intros [<-|H]; [auto|]. destruct (IH H); auto.
Qed.

Lemma NoDup_dict_set {V} (d : list (N * V)) (k : N) (v : V) :
  List.NoDup (dict_keys d) -> List.NoDup (dict_keys (dict_set d k v)).
Proof.
  induction d as [|[k' v'] d IH]; cbn [dict_set dict_keys map fst]; intros H.
  - repeat constructor. intros [].
  - apply List.NoDup_cons_iff in H as [Hk' Hd].
    destruct (N.eqb_spec k k') as [->|Hne]; cbn [map fst].
    + now constructor.
    + constructor; [|now apply IH].
      intros Hin. apply in_keys_dict_set in Hin as [E|Hin]; auto.
Qed.

Lemma in_keys_dict_del {V} (d : list (N * V)) (k x : N) :
  In x (dict_keys (dict_del d k)) -> In x (dict_keys d) /\ x <> k.
Proof.
  unfold dict_keys, dict_del. rewrite !in_map_iff.
  intros ([k' v'] & <- & Hin). apply filter_In in Hin as [Hin Hk].
  cbn [fst] in *. apply negb_true_iff, N.eqb_neq in Hk.
  split; [exists (k', v'); auto|exact Hk].
Qed.

Lemma NoDup_keys_filter {V} (f : N * V -> bool) (d : list (N * V)) :
  List.NoDup (dict_keys d) -> List.NoDup (dict_keys (List.filter f d)).
Proof.
  unfold dict_keys.
  induction d as [|x d IH]; cbn [List.filter map]; intros H; [constructor|].
  apply List.NoDup_cons_iff in H as [Hx Hd].
  destruct (f x); [|now apply IH]. cbn [map]. constructor; [|now apply IH].
  intros Hin. apply Hx. apply in_map_iff in Hin as (y & E & Hy).
  apply filter_In in Hy as [Hy _]. apply in_map_iff. eauto.
Qed.

Lemma process_changes_dict (extra : pystr) (cc my_id i : N) (d : pdict)
    (h : heap) :
  match process_changes extra cc my_id i d h with
  | Continue _ d' _ | Break d' _ => d' = d
  end.
Proof.
  unfold process_changes. destruct (dict_get d my_id); [|reflexivity].
  now destruct (apply_changes _ _ _ _ _).
Qed.

Lemma entry_keys_nodup (extra : pystr) (i : N) (d : pdict) (h : heap) :
  List.NoDup (dict_keys d) ->
  match entry extra i d h with
  | Continue _ d' _ | Break d' _ => List.NoDup (dict_keys d')
  end.
Proof.
  intros Hd. unfold entry.
  destruct (len extra <? _); [exact Hd|].
  destruct (_ =? 0); [exact Hd|].
  destruct (read_int2 extra _) as [my_id i2].
  destruct (if my_id =? 0 then _ else _) as [my_id' should_skip].
  destruct should_skip; [exact Hd|].
  assert (Hp : forall cc k j d0 h0,
             List.NoDup (dict_keys d0) ->
             match process_changes extra cc k j d0 h0 with
             | Continue _ d' _ | Break d' _ => List.NoDup (dict_keys d')
             end).
  { intros cc k j d0 h0 H0.
    pose proof (process_changes_dict extra cc k j d0 h0) as E.
    destruct (process_changes extra cc k j d0 h0); now subst. }
  destruct (dict_get d my_id'); [now apply Hp|].
  destruct (_ =? 1); [cbn [alloc]; apply Hp; now apply NoDup_dict_set|].
  destruct (_ =? 8); [|exact Hd].
  destruct (find_reassign d h _) as [[old_id poke]|]; [|exact Hd].
  apply Hp. apply NoDup_dict_set. now apply NoDup_keys_filter.
Qed.

Lemma entries_keys_nodup (extra : pystr) (fuel : nat) :
  forall (i : N) (d : pdict) (h : heap) (d' : pdict) (h' : heap),
    List.NoDup (dict_keys d) ->
    entries fuel extra i d h = Some (d', h') -> List.NoDup (dict_keys d').
Proof.
  induction fuel as [|fuel IH]; intros i d h d' h' Hd; cbn [entries].
  - destruct (len extra <=? i); [intros [= <- <-]; auto|discriminate].
  - destruct (len extra <=? i); [intros [= <- <-]; auto|].
    pose proof (entry_keys_nodup extra i d h Hd) as He.
    destruct (entry extra i d h) as [i1 d1 h1|d1 h1].
    + now apply IH.
    + intros [= <- <-]. exact He.
Qed.

Lemma copy_roster_keys_nodup (existing : list loc) :
  forall (d : pdict) (h : heap),
    List.NoDup (dict_keys d) ->
    List.NoDup (dict_keys (fst (copy_roster existing d h))).
Proof.
  induction existing as [|p rest IH]; intros d h Hd;
    cbn [copy_roster alloc fst]; [exact Hd|].
  apply IH. now apply NoDup_dict_set.
Qed.

(** The run of the parser past the short-delta guard, with all that is
    known of its final working set. *)
Lemma parse_delta_save_run_keys (extra : pystr) (existing : list loc)
    (h0 : heap) :
  4 <= len extra ->
  exists d' h',
    parse_delta_save extra existing h0 = Some (finish d' h', h')
    /\ frame h0 h' /\ owned (length h0) d' h'
    /\ List.NoDup (dict_keys d').
Proof.
  intros Hlen. unfold parse_delta_save.
  destruct (N.ltb_spec (len extra) 4); [lia|].
  destruct (copy_roster_inv h0 existing [] h0 (frame_refl h0))
    as [Hf Ho]; [constructor|].
  pose proof (copy_roster_keys_nodup existing [] h0 (List.NoDup_nil _)) as Hn.
  destruct (copy_roster existing [] h0) as [d h]. cbn [fst snd] in *.
  destruct (try_body_total extra d h) as [[d' h'] E]. rewrite E.
  exists d', h'. split; [reflexivity|].
  destruct (try_body_inv h0 _ extra d h d' h' Hf Ho E) as [Hf' Ho'].
  split; [exact Hf'|]. split; [exact Ho'|].
  unfold try_body in E.
  destruct (py_index extra 0); [|now injection E as <- <-].
  destruct (py_index extra _); [|now injection E as <- <-].
  eapply entries_keys_nodup; eassumption.
Qed.

Lemma finish_myIDs (n0 : nat) (d : pdict) (h : heap) :
  owned n0 d h ->
  Permutation (map (fun p => myID (deref h p)) (finish d h))
    (dict_keys (List.filter (fun kv => 0 <? fst kv) d)).
Proof.
  intros Ho. unfold finish.
  rewrite (Permutation_map _ (sorted_perm _ _)).
  unfold dict_values, dict_keys. rewrite map_map.
  erewrite map_ext_in; [reflexivity|].
  intros [k l] Hin. apply filter_In in Hin as [Hin _]. cbn [fst snd].
  now destruct (owned_In _ _ _ _ _ Ho Hin).
Qed.

(** X13. For every roster and every delta of at least four characters,
    no two records of the returned list have the same myID. *)
Theorem parse_delta_save_unique_myIDs (extra : pystr)
    (existing_pokemon : list loc) (h0 : heap) :
  4 <= len extra ->
  exists result h',
    parse_delta_save extra existing_pokemon h0 = Some (result, h')
    /\ List.NoDup (map (fun p => myID (deref h' p)) result).
Proof.
  intros H.
  destruct (parse_delta_save_run_keys extra existing_pokemon h0 H)
    as (d' & h' & E & _ & Ho & Hn).
  exists (finish d' h'), h'. split; [exact E|].
  eapply Permutation_NoDup; [symmetry; eapply finish_myIDs; exact Ho|].
  now apply NoDup_keys_filter.
Qed.

Lemma parse_delta_save_unique_myIDs_witness :
  exists result h',
    parse_delta_save two_captures_delta [0; 1]%nat
      [default_pokemon 5; default_pokemon 5]
    = Some (result, h')
    /\ List.NoDup (map (fun p => myID (deref h' p)) result).
Proof.
  apply parse_delta_save_unique_myIDs. vm_compute. discriminate.
Defined.

(** X14. For every roster and every delta of at least four characters,
    every record of the returned list is an object allocated during the
    call: the result shares no record with the caller's store, so later
    changes to one do not show in the other. *)
Theorem parse_delta_save_returns_fresh (extra : pystr)
    (existing_pokemon : list loc) (h0 : heap) :
  4 <= len extra ->
  exists result h',
    parse_delta_save extra existing_pokemon h0 = Some (result, h')
    /\ Forall (fun p => (length h0 <= p < length h')%nat) result.
Proof.
  intros H.
  destruct (parse_delta_save_run_keys extra existing_pokemon h0 H)
    as (d' & h' & E & _ & Ho & _).
  exists (finish d' h'), h'. split; [exact E|].
  unfold finish.
  eapply Permutation_Forall; [symmetry; apply sorted_perm|].
  unfold dict_values. rewrite List.Forall_map, List.Forall_forall.
  intros [k l] Hin. apply filter_In in Hin as [Hin _]. cbn [snd].
  now destruct (owned_In _ _ _ _ _ Ho Hin).
Qed.

Lemma parse_delta_save_returns_fresh_witness :
  exists result h',
    parse_delta_save evolve_delta [0%nat] [default_pokemon 1]
    = Some (result, h')
    /\ Forall (fun p => (1 <= p < length h')%nat) result.
Proof.
  apply (parse_delta_save_returns_fresh evolve_delta [0%nat]
           [default_pokemon 1]).
  vm_compute. discriminate.
Defined.

(** ** What one entry writes *)

Lemma apply_changes_other (extra : pystr) (poke l : loc) (n : nat) :
  l <> poke ->
  forall (i : N) (h : heap),
    deref (snd (apply_changes n extra i poke h)) l = deref h l.
Proof.
  intros Hl. induction n as [|n IH]; intros i h; cbn [apply_changes snd];
    [reflexivity|].
  destruct (len extra <=? i); [reflexivity|].
  destruct (read_int extra i) as [ct i1].
  destruct (apply_change extra ct i1 (deref h poke)) as [p i2].
  rewrite IH. apply deref_store_ne. congruence.
Qed.

Lemma process_changes_other (extra : pystr) (cc my_id i : N) (d : pdict)
    (h : heap) (poke : loc) :
  dict_get d my_id = Some poke ->
  match process_changes extra cc my_id i d h with
  | Continue _ _ h' | Break _ h' =>
      forall l, l <> poke -> deref h' l = deref h l
  end.
Proof.
  intros E. unfold process_changes. rewrite E.
  pose proof (apply_changes_other extra poke) as Ha.
  destruct (apply_changes _ _ _ _ _) as [i' h'] eqn:Ec.
  intros l Hl.
  specialize (Ha l (N.to_nat cc) Hl i
                (store h poke (set_myID my_id (deref h poke)))).
  rewrite Ec in Ha. cbn [snd] in Ha. rewrite Ha.
  apply deref_store_ne. congruence.
Qed.

(** X15. One entry of a delta changes at most one record: there is an
    address such that every other object of the store holds the same
    items after the iteration as before it. *)
Theorem entry_writes_one_record (extra : pystr) (i : N) (d : pdict)
    (h : heap) :
  exists l0 : loc,
    match entry extra i d h with
    | Continue _ _ h' | Break _ h' =>
        forall l, l <> l0 -> (l < length h)%nat -> deref h' l = deref h l
    end.
Proof.
  unfold entry.
  destruct (len extra <? _); [exists 0%nat; auto|].
  destruct (_ =? 0); [exists 0%nat; auto|].
  destruct (read_int2 extra _) as [my_id i2].
  destruct (if my_id =? 0 then _ else _) as [my_id' should_skip].
  destruct should_skip; [exists 0%nat; auto|].
  destruct (dict_get d my_id') as [poke|] eqn:Eg.
  { exists poke.
    pose proof (process_changes_other extra
                  (decode_int_string
                     (slice extra (i + 1)
                        (i + 1 + decode_int_string (char_at extra i))))
                  my_id' i2 d h poke Eg) as Hp.
    destruct (process_changes _ _ _ _ _ _); auto. }
  destruct (_ =? 1).
  { exists (length h). cbn [alloc].
    pose proof (process_changes_other extra
                  (decode_int_string
                     (slice extra (i + 1)
                        (i + 1 + decode_int_string (char_at extra i))))
                  my_id' i2 (dict_set d my_id' (length h))
                  (h ++ [default_pokemon my_id']) (length h)
                  (dict_get_set_eq _ _ _)) as Hp.
    destruct (process_changes _ _ _ _ _ _); intros l Hl Hlt;
      rewrite Hp by exact Hl; now apply deref_alloc_old. }
  destruct (_ =? 8); [|exists 0%nat; auto].
  destruct (find_reassign d h _) as [[old_id poke]|]; [|exists 0%nat; auto].
  exists poke.
  pose proof (process_changes_other extra
                (decode_int_string
                   (slice extra (i + 1)
                      (i + 1 + decode_int_string (char_at extra i))))
                my_id' i2 (dict_set (dict_del d old_id) my_id' poke)
                (store h poke (set_myID my_id' (deref h poke))) poke
                (dict_get_set_eq _ _ _)) as Hp.
  destruct (process_changes _ _ _ _ _ _); intros l Hl Hlt;
    rewrite Hp by exact Hl; apply deref_store_ne; congruence.
Qed.

(** X16. Every iteration of the [while] loop moves the cursor forward by
    at least one character, so the loop is over after at most
    [len(extra) - i] iterations, whatever the delta holds. *)
Theorem while_loop_progress (extra : pystr) (i : N) (d : pdict) (h : heap) :
  (forall i' d' h', entry extra i d h = Continue i' d' h' -> i < i')
  /\ exists r, entries (N.to_nat (len extra - i)) extra i d h = Some r.
Proof.
  split.
  - intros i' d' h'. apply entry_advances.
  - apply entries_total. lia.
Qed.

Lemma while_loop_progress_witness :
  exists i' d' h',
    entry first_capture_delta 5 [] [] = Continue i' d' h' /\ 5 < i'.
Proof.
  destruct (while_loop_progress first_capture_delta 5 [] []) as [H _].
  destruct (entry first_capture_delta 5 [] []) as [i' d' h'|] eqn:E;
    [|vm_compute in E; discriminate E].
  exists i', d', h'. split; [reflexivity|]. exact (H i' d' h' eq_refl).
Defined.

(** ** Re-keying by posChange *)

Lemma dict_get_None_keys {V} (d : list (N * V)) (k : N) :
  dict_get d k = None -> ~ In k (dict_keys d).
Proof.
  induction d as [|[k' v'] d IH]; cbn [dict_get dict_keys map fst In];
    [tauto|].
  destruct (N.eqb_spec k k') as [->|Hne]; [discriminate|].
  intros H [E|Hin]; [congruence|]. now apply IH.
Qed.



(** ** What [parse_kv_blob] can return *)

Lemma Forall_dict_set {V} (P : N * V -> Prop) (d : list (N * V)) (k : N)
    (v : V) :
  P (k, v) -> Forall P d -> Forall P (dict_set d k v).
Proof.
  intros Hk. induction 1 as [|[k' v'] d Hx Hd IH]; cbn [dict_set].
  - repeat constructor. exact Hk.
  - destruct (k =? k'); constructor; auto.
Qed.

Lemma parse_kv_loop_inv (blob : pystr) (n : nat) :
  forall (i : N) (result : list (N * N)),
    List.NoDup (dict_keys result) ->
    Forall (fun kv => fst kv < 10 ^ 9 /\ snd kv < 10 ^ 9) result ->
    List.NoDup (dict_keys (parse_kv_loop n blob i result))
    /\ Forall (fun kv => fst kv < 10 ^ 9 /\ snd kv < 10 ^ 9)
         (parse_kv_loop n blob i result).
Proof.
  induction n as [|n IH]; intros i result Hn Hf; cbn [parse_kv_loop];
    [auto|].
  pose proof (read_int_value_bound blob i) as Hk.
  destruct (read_int blob i) as [k i1]. cbn [fst] in Hk.
  pose proof (read_int_value_bound blob i1) as Hv.
  destruct (read_int blob i1) as [v i2]. cbn [fst] in Hv.
  apply IH.
  - now apply NoDup_dict_set.
  - apply Forall_dict_set; [split; assumption|exact Hf].
Qed.

(** X18. Whatever the blob, the dict [parse_kv_blob] returns has every key
    and every value below [10^9] (and, being a dict, distinct keys). *)
Theorem parse_kv_blob_range (blob : pystr) :
  List.NoDup (dict_keys (parse_kv_blob blob))
  /\ Forall (fun kv => fst kv < 10 ^ 9 /\ snd kv < 10 ^ 9)
       (parse_kv_blob blob).
Proof.
  unfold parse_kv_blob.
  destruct (len blob <? 4); [split; constructor|].
  destruct (py_index blob 0); [|split; constructor].
  destruct (py_index blob _); [|split; constructor].
  apply parse_kv_loop_inv; constructor.
Qed.

(** Parsing an encoded list of items in range files the items one after
    the other. *)
Lemma parse_encode_kv_items (m : list (N * N)) :
  Forall (fun kv => fst kv < 10 ^ 9 /\ snd kv < 10 ^ 9) m ->
  len (encode_kv_blob m) < 10 ^ 9 ->
  parse_kv_blob (encode_kv_blob m)
  = fold_left (fun r kv => dict_set r (fst kv) (snd kv)) m [].
Proof.
  intros Hrange Hlen.
  destruct m as [|x y]; [reflexivity|].
  remember (x :: y) as m' eqn:Em'.
  assert (Hne : m' <> []) by (subst m'; discriminate).
  assert (E : encode_kv_blob m'
              = let body := encode_int (len (encode_int (len m')))
                            ++ encode_int (len m') ++ kv_data m' in
                encode_int (len (encode_int (len body)))
                ++ encode_int (len body) ++ body).
  { subst m'. unfold encode_kv_blob. rewrite kv_fold. cbn [app].
    rewrite N.add_0_l. reflexivity. }
  clear Em' x y. cbv zeta in E. rewrite E in *. clear E.
  set (ce := encode_int (len m')) in *.
  set (body := encode_int (len ce) ++ ce ++ kv_data m') in *.
  set (header := encode_int (len body)) in *.
  assert (Hbody : len body < 10 ^ 9) by (rewrite !len_app in Hlen; lia).
  assert (Hcount : len m' < 10 ^ 9).
  { pose proof (len_kv_data m').
    unfold body in Hbody. rewrite !len_app in Hbody. lia. }
  pose proof (len_encode_int_small _ Hbody) as Hh. fold header in Hh.
  pose proof (len_encode_int_small _ Hcount) as Hc. fold ce in Hc.
  pose proof (len_encode_int_pos (len body)) as Hhp. fold header in Hhp.
  pose proof (len_encode_int_pos (len m')) as Hcp. fold ce in Hcp.
  assert (Edh : decode_int_string (encode_int (len header)) = len header)
    by apply decode_int_string_encode_int.
  assert (Edc : decode_int_string (encode_int (len ce)) = len ce)
    by apply decode_int_string_encode_int.
  assert (Edm : decode_int_string ce = len m')
    by apply decode_int_string_encode_int.
  subst body.
  rewrite (encode_int_digit _ Hh) in *.
  rewrite (encode_int_digit _ Hc) in *.
  set (ch := digit_to_letter (digit_char (len header))) in *.
  set (cc := digit_to_letter (digit_char (len ce))) in *.
  cbn [app] in *.
  set (blob := ch :: header ++ cc :: ce ++ kv_data m').
  assert (Hblob : len blob = 1 + len header + (1 + len ce + len (kv_data m')))
    by (unfold blob; rewrite len_cons, len_app, len_cons, len_app; lia).
  unfold parse_kv_blob, py_index.
  destruct (N.ltb_spec (len blob) 4); [lia|].
  destruct (N.ltb_spec 0 (len blob)); [|lia].
  replace (char_at blob 0) with [ch]
    by (symmetry; apply (char_at_app [] ch (header ++ cc :: ce ++ kv_data m'))).
  rewrite Edh.
  destruct (N.ltb_spec (0 + (1 + len header)) (len blob)); [|lia].
  assert (Eb : blob = (ch :: header) ++ cc :: ce ++ kv_data m') by reflexivity.
  assert (Ei : 0 + (1 + len header) = len (ch :: header))
    by (rewrite len_cons; lia).
  rewrite Ei, Eb, char_at_app, Edc, slice_after_char, Edm.
  replace (N.to_nat (len m')) with (length m') by (unfold len; lia).
  replace ((ch :: header) ++ cc :: ce ++ kv_data m')
    with (((ch :: header) ++ cc :: ce) ++ kv_data m' ++ [])
    by (rewrite app_nil_r, <- app_assoc; reflexivity).
  replace (len (ch :: header) + 1 + len ce)
    with (len ((ch :: header) ++ cc :: ce))
    by (rewrite len_app, len_cons, len_cons; lia).
  now apply parse_kv_loop_data.
Qed.

(** X19. Storing is stable: for every blob, if the dict parsed from it is
    encoded again (in a blob shorter than [10^9] characters), parsing that
    blob gives the same dict, items in the same order. *)
Theorem parse_kv_blob_reencode (blob : pystr) :
  len (encode_kv_blob (parse_kv_blob blob)) < 10 ^ 9 ->
  parse_kv_blob (encode_kv_blob (parse_kv_blob blob)) = parse_kv_blob blob.
Proof.
  intros Hlen.
  assert (Hinv : List.NoDup (dict_keys (parse_kv_blob blob))
                 /\ Forall (fun kv => fst kv < 10 ^ 9 /\ snd kv < 10 ^ 9)
                      (parse_kv_blob blob)).
  { unfold parse_kv_blob.
    destruct (len blob <? 4); [split; constructor|].
    destruct (py_index blob 0); [|split; constructor].
    destruct (py_index blob _); [|split; constructor].
    apply parse_kv_loop_inv; constructor. }
  destruct Hinv as [Hn Hf].
  rewrite parse_encode_kv_items by assumption.
  apply (fold_dict_set_nodup (parse_kv_blob blob) []). exact Hn.
Qed.

Lemma parse_kv_blob_reencode_witness :
  parse_kv_blob (encode_kv_blob (parse_kv_blob (lit "ycwyyyoyyyoymXX")))
  = parse_kv_blob (lit "ycwyyyoyyyoymXX").
Proof. apply parse_kv_blob_reencode. reflexivity. Defined.

(** ** The shape of a ProfileID *)

Lemma char_to_value_le (c : ascii) : char_to_value c <= 26.
Proof.
  destruct c as [[] [] [] [] [] [] [] []]; vm_compute; discriminate.
Qed.

Lemma fold_left_add_acc (l : list N) (acc : N) :
  fold_left N.add l acc = acc + fold_left N.add l 0.
Proof.
  revert acc. induction l as [|x l IH]; intros acc; cbn [fold_left]; [lia|].
  rewrite (IH (acc + x)), (IH (0 + x)). lia.
Qed.

Lemma py_sum_char_values (s : pystr) :
  py_sum (map char_to_value s) <= 26 * len s.
Proof.
  unfold py_sum. induction s as [|c s IH]; [cbn; lia|].
  cbn [map fold_left]. rewrite fold_left_add_acc, len_cons.
  pose proof (char_to_value_le c). lia.
Qed.

Lemma length_str_lower (k : nat) :
  forall n, 10 ^ N.of_nat k <= n -> (k < length (str n))%nat.
Proof.
  induction k as [|k IH]; intros n H.
  - pose proof (str_nonempty n). destruct (str n); [congruence|cbn; lia].
  - rewrite Nat2N.inj_succ, N.pow_succ_r' in H.
    assert (Hn : 10 <= n).
    { pose proof (N.pow_nonzero 10 (N.of_nat k) ltac:(lia)). lia. }
    rewrite str_big, length_app by exact Hn. cbn [length].
    assert (Hq : 10 ^ N.of_nat k <= n / 10)
      by (apply N.div_le_lower_bound; lia).
    specialize (IH _ Hq). lia.
Qed.

Lemma num_to_letter_range (n : N) :
  1 <= n <= 18 ->
  exists c, num_to_letter n = [c] /\ In c (lit "bcdefghijklmnopqrs").
Proof.
  intros H.
  assert (Hc : n = 1 \/ n = 2 \/ n = 3 \/ n = 4 \/ n = 5 \/ n = 6 \/ n = 7
               \/ n = 8 \/ n = 9 \/ n = 10 \/ n = 11 \/ n = 12 \/ n = 13
               \/ n = 14 \/ n = 15 \/ n = 16 \/ n = 17 \/ n = 18) by lia.
  repeat (destruct Hc as [->|Hc];
          [eexists; split; [reflexivity|cbn; tauto]|]).
  subst n. eexists; split; [reflexivity|cbn; tauto].
Qed.

Lemma profile_loop_shape (s : pystr) (first_digit : N) :
  1 <= first_digit <= 9 ->
  Forall (fun c => exists d, d < 10 /\ c = digit_char d) s ->
  forall profile_id r,
    profile_loop s first_digit profile_id = Some r ->
    exists letters,
      r = profile_id ++ letters /\ length letters = length s
      /\ Forall (fun c => In c (lit "bcdefghijklmnopqrs")) letters.
Proof.
  intros Hfd. induction 1 as [|c s (d & Hd & ->) _ IH]; intros acc r;
    cbn [profile_loop].
  - intros [= <-]. exists []. rewrite app_nil_r. repeat split. constructor.
  - unfold int_of_char. rewrite is_digit_char, digit_val_char by exact Hd.
    destruct (num_to_letter_range (d + first_digit) ltac:(lia))
      as (l & -> & Hl).
    intros E. destruct (IH _ _ E) as (letters & -> & Hlen & Hall).
    exists (l :: letters). rewrite <- app_assoc. cbn [app length].
    split; [reflexivity|]. split; [lia|]. now constructor.
Qed.

(** X20. Whenever [compute_profile_id] returns a ProfileID, it has between
    four and nine characters, all of them letters from ["b"] to ["s"]; no
    digit of the product is ever dropped. *)
Theorem profile_id_shape (current_save : pystr) (trainer_id : Z)
    (profile_id : pystr) :
  compute_profile_id current_save trainer_id = Returned (Some profile_id) ->
  4 <= len profile_id <= 9
  /\ Forall (fun c => In c (lit "bcdefghijklmnopqrs")) profile_id.
Proof.
  unfold compute_profile_id.
  destruct (N.eqb_spec (len current_save) 14) as [Hlen|_];
    [|discriminate]. cbn [negb].
  pose proof (py_sum_char_values current_save) as Hsum. rewrite Hlen in Hsum.
  set (s := Z.of_N (py_sum (map char_to_value current_save))) in *.
  destruct (Z.eqb_spec s 0) as [|Hs0]; [discriminate|].
  destruct (Z.ltb_spec trainer_id 333) as [|Ht1]; [discriminate|].
  destruct (Z.ltb_spec 99999 trainer_id) as [|Ht2]; [discriminate|].
  cbn [orb].
  assert (Hs : (1 <= s <= 364)%Z) by (subst s; lia).
  assert (Hr : (4662 <= trainer_id * s * 14 <= 509594904)%Z) by nia.
  unfold str_Z.
  destruct (Z.ltb_spec (trainer_id * s * 14) 0) as [|Hnn]; [lia|].
  set (prod := Z.to_N (trainer_id * s * 14)) in *.
  assert (Hn : 10 ^ N.of_nat 3 <= prod /\ prod < 10 ^ N.of_nat 9)
    by (subst prod; cbn; lia).
  pose proof (length_str_lower 3 prod (proj1 Hn)) as Hlo.
  pose proof (length_str_bound 8 prod (proj2 Hn)) as Hhi.
  pose proof (str_digits prod) as Hd.
  destruct (str_head prod) as (d0 & rest & E & Hd0 & Hz).
  assert (Hd0' : 1 <= d0) by (destruct (N.eq_dec d0 0) as [->|];
                               [destruct (Hz eq_refl); lia|lia]).
  rewrite E in *. unfold int_of_char at 1.
  rewrite is_digit_char, digit_val_char by exact Hd0.
  destruct (profile_loop (digit_char d0 :: rest) d0 []) as [r|] eqn:Ep;
    [|discriminate].
  intros [= <-].
  destruct (profile_loop_shape _ d0 ltac:(lia) Hd [] r Ep)
    as (letters & -> & Hl & Hall).
  cbn [app]. unfold len. rewrite Hl. split; [lia|exact Hall].
Qed.

Lemma profile_id_shape_witness :
  4 <= len (lit "skjjjj") <= 9
  /\ Forall (fun c => In c (lit "bcdefghijklmnopqrs")) (lit "skjjjj").
Proof.
  apply (profile_id_shape (lit "abcdefghij1234") 1000). reflexivity.
Defined.

(** ** File-name stems *)

Lemma replace_char_Forall (P : ascii -> Prop) (old : ascii) (new s : pystr) :
  Forall P new -> Forall (fun c => c <> old -> P c) s ->
  Forall P (replace_char old new s).
Proof.
  intros Hn. unfold replace_char.
  induction 1 as [|c s Hc _ IH]; cbn [flat_map]; [constructor|].
  apply Forall_app. split; [|exact IH].
  destruct (Ascii.eqb_spec c old); [exact Hn|].
  repeat constructor. now apply Hc.
Qed.

Lemma replace_char_absent (old : ascii) (new s : pystr) :
  Forall (fun c => c <> old) s -> replace_char old new s = s.
Proof.
  unfold replace_char.
  induction 1 as [|c s Hc _ IH]; cbn [flat_map]; [reflexivity|].
  destruct (Ascii.eqb_spec c old); [contradiction|].
  cbn [app]. now rewrite IH.
Qed.

Lemma safe_email_chars (email : pystr) :
  Forall (fun c => c <> "@"%char /\ c <> "."%char) (safe_email email).
Proof.
  unfold safe_email. apply replace_char_Forall.
  - repeat constructor; discriminate.
  - eapply List.Forall_impl;
      [|apply (replace_char_Forall (fun c => c <> "@"%char) "@"%char
                 (lit "_at_") email)].
    + intros c H Hne. split; assumption.
    + repeat constructor; discriminate.
    + apply List.Forall_forall. intros c _ H. exact H.
Qed.

(** X21. The file-name stem [safe_email] makes of an address contains
    neither ["@"] nor ["."], and making the stem of a stem changes
    nothing. *)
Theorem safe_email_clean (email : pystr) :
  Forall (fun c => c <> "@"%char /\ c <> "."%char) (safe_email email)
  /\ safe_email (safe_email email) = safe_email email.
Proof.
  pose proof (safe_email_chars email) as H. split; [exact H|].
  unfold safe_email at 1.
  rewrite (replace_char_absent "@"%char).
  - apply replace_char_absent. eapply List.Forall_impl; [|exact H].
    intros c [_ Hc]. exact Hc.
  - eapply List.Forall_impl; [|exact H]. intros c [Hc _]. exact Hc.
Qed.

(** ** A delta never removes a record *)

Lemma filter_pos_dict_set (d : pdict) (k : N) (l : loc) :
  (length (List.filter (fun kv => (0 <? fst kv)%N) d)
   <= length (List.filter (fun kv => (0 <? fst kv)%N) (dict_set d k l)))%nat.
Proof.
  induction d as [|[k' l'] d IH]; cbn [dict_set List.filter].
  - cbn [fst]. destruct (0 <? k); cbn [length]; lia.
  - destruct (N.eqb_spec k k') as [->|_]; cbn [List.filter fst].
    + destruct (0 <? k'); cbn [length]; lia.
    + destruct (0 <? k'); cbn [length]; lia.
Qed.

Lemma dict_del_absent {V} (d : list (N * V)) (k : N) :
  ~ In k (dict_keys d) -> dict_del d k = d.
Proof.
  unfold dict_del.
  induction d as [|[k' v'] d IH]; cbn [dict_keys map fst In List.filter];
    intros H; [reflexivity|].
  destruct (N.eqb_spec k' k) as [->|_]; cbn [negb]; [tauto|].
  f_equal. apply IH. tauto.
Qed.

Lemma filter_pos_dict_del (d : pdict) (k : N) :
  List.NoDup (dict_keys d) ->
  (length (List.filter (fun kv => (0 <? fst kv)%N) d)
   <= S (length (List.filter (fun kv => (0 <? fst kv)%N) (dict_del d k))))%nat.
Proof.
  induction d as [|[k' l'] d IH]; intros Hn; [cbn; lia|].
  cbn [dict_keys map fst] in Hn. apply List.NoDup_cons_iff in Hn as [Hk' Hd].
  unfold dict_del in *. cbn [List.filter fst].
  destruct (N.eqb_spec k' k) as [->|Hne]; cbn [negb].
  - fold (dict_del d k). rewrite (dict_del_absent d k Hk').
    destruct (0 <? k); cbn [length]; lia.
  - cbn [List.filter fst]. specialize (IH Hd).
    destruct (0 <? k'); cbn [length]; lia.
Qed.

Lemma filter_pos_rekey (d : pdict) (old_id k : N) (l : loc) :
  List.NoDup (dict_keys d) -> 0 < k -> ~ In k (dict_keys d) ->
  (length (List.filter (fun kv => (0 <? fst kv)%N) d)
   <= length (List.filter (fun kv => (0 <? fst kv)%N)
                (dict_set (dict_del d old_id) k l)))%nat.
Proof.
  intros Hn Hk Hfresh.
  rewrite dict_set_fresh.
  - rewrite List.filter_app, length_app. cbn [List.filter fst].
    apply N.ltb_lt in Hk. rewrite Hk. cbn [length].
    pose proof (filter_pos_dict_del d old_id Hn). lia.
  - intros Hin. apply in_keys_dict_del in Hin as [Hin _]. contradiction.
Qed.

(** One iteration keeps or grows the number of records filed under a
    positive key. *)
Lemma entry_keeps_records (extra : pystr) (i : N) (d : pdict) (h : heap) :
  List.NoDup (dict_keys d) ->
  match entry extra i d h with
  | Continue _ d' _ | Break d' _ =>
      (length (List.filter (fun kv => (0 <? fst kv)%N) d)
       <= length (List.filter (fun kv => (0 <? fst kv)%N) d'))%nat
  end.
Proof.
  intros Hd. unfold entry.
  destruct (len extra <? _); [lia|].
  destruct (_ =? 0); [lia|].
  destruct (read_int2 extra _) as [my_id i2].
  assert (Hp : forall cc k j d0 h0,
             (length (List.filter (fun kv => (0 <? fst kv)%N) d)
              <= length (List.filter (fun kv => (0 <? fst kv)%N) d0))%nat ->
             match process_changes extra cc k j d0 h0 with
             | Continue _ d' _ | Break d' _ =>
                 (length (List.filter (fun kv => (0 <? fst kv)%N) d)
                  <= length (List.filter (fun kv => (0 <? fst kv)%N) d'))%nat
             end).
  { intros cc k j d0 h0 H0.
    pose proof (process_changes_dict extra cc k j d0 h0) as E.
    destruct (process_changes extra cc k j d0 h0); now subst. }
  set (fct := fst (read_int extra i2)).
  assert (Hcase :
            (if my_id =? 0
             then if fct =? 1 then (max_id d + 1, false) else (my_id, true)
             else (my_id, false))
            = (my_id, true)
            \/ exists k, 0 < k
                 /\ (if my_id =? 0
                     then if fct =? 1 then (max_id d + 1, false)
                          else (my_id, true)
                     else (my_id, false))
                    = (k, false)).
  { destruct (N.eqb_spec my_id 0).
    - destruct (fct =? 1); [right; exists (max_id d + 1); split; [lia|auto]
                           |now left].
    - right. exists my_id. split; [lia|reflexivity]. }
  destruct Hcase as [->|(k & Hk & ->)]; [lia|].
  destruct (dict_get d k) eqn:Eg; [apply Hp; lia|].
  destruct (fct =? 1); [cbn [alloc]; apply Hp; apply filter_pos_dict_set|].
  destruct (fct =? 8); [|lia].
  destruct (find_reassign d h _) as [[old_id poke]|]; [|lia].
  apply Hp. apply filter_pos_rekey; [exact Hd|exact Hk|].
  now apply dict_get_None_keys.
Qed.

Lemma entries_keeps_records (extra : pystr) (fuel : nat) :
  forall (i : N) (d : pdict) (h : heap) (d' : pdict) (h' : heap),
    List.NoDup (dict_keys d) ->
    entries fuel extra i d h = Some (d', h') ->
    (length (List.filter (fun kv => (0 <? fst kv)%N) d)
     <= length (List.filter (fun kv => (0 <? fst kv)%N) d'))%nat.
Proof.
  induction fuel as [|fuel IH]; intros i d h d' h' Hd; cbn [entries].
  - destruct (len extra <=? i); [intros [= <- <-]; lia|discriminate].
  - destruct (len extra <=? i); [intros [= <- <-]; lia|].
    pose proof (entry_keeps_records extra i d h Hd) as He.
    pose proof (entry_keys_nodup extra i d h Hd) as Hn.
    destruct (entry extra i d h) as [i1 d1 h1|d1 h1].
    + intros E. specialize (IH _ _ _ _ _ Hn E). lia.
    + intros [= <- <-]. exact He.
Qed.

Lemma deref_frame (h0 h : heap) (p : loc) :
  frame h0 h -> (p < length h0)%nat -> deref h p = deref h0 p.
Proof.
  unfold frame, deref. intros Hf Hp.
  replace (h0 !!! p) with (take (length h0) h !!! p) by now rewrite Hf.
  now rewrite lookup_total_take_lt.
Qed.

Lemma in_keys_dict_set_iff {V} (d : list (N * V)) (k x : N) (v : V) :
  In x (dict_keys (dict_set d k v)) <-> x = k \/ In x (dict_keys d).
Proof.
  split; [apply in_keys_dict_set|].
  induction d as [|[k' v'] d IH]; cbn [dict_set dict_keys map fst In].
  - intros [->|[]]. now left.
  - destruct (N.eqb_spec k k') as [->|Hne]; cbn [map fst In].
    + intros [->|[->|H]]; auto.
    + intros [->|[->|H]]; auto.
Qed.

(** The keys of the initial working set are the myIDs of the roster. *)
Lemma copy_roster_keys (h0 : heap) (existing : list loc) :
  Forall (fun p => (p < length h0)%nat) existing ->
  forall (d : pdict) (h : heap) (k : N),
    frame h0 h ->
    In k (dict_keys (fst (copy_roster existing d h)))
    <-> In k (dict_keys d)
        \/ In k (map (fun p => myID (deref h0 p)) existing).
Proof.
  induction 1 as [|p rest Hp _ IH]; intros d h k Hf;
    cbn [copy_roster alloc fst map In]; [tauto|].
  assert (Hlen : (length h0 <= length h)%nat).
  { unfold frame in Hf. rewrite <- Hf at 1. rewrite length_take. lia. }
  rewrite IH by now apply frame_alloc.
  rewrite in_keys_dict_set_iff, (deref_frame h0 h p Hf Hp). intuition.
Qed.

Lemma length_finish (d : pdict) (h : heap) :
  length (finish d h) = length (List.filter (fun kv => (0 <? fst kv)%N) d).
Proof.
  unfold finish, dict_values.
  rewrite (Permutation_length (sorted_perm _ _)). apply length_map.
Qed.

(** X22. A delta never removes a record: for every roster (of valid
    records) and every delta of at least four characters, the returned
    list has at least as many records as the roster has distinct myIDs
    above 0. *)
Theorem parse_delta_save_keeps_records (extra : pystr)
    (existing_pokemon : list loc) (h0 : heap) :
  Forall (fun p => (p < length h0)%nat) existing_pokemon ->
  4 <= len extra ->
  exists result h',
    parse_delta_save extra existing_pokemon h0 = Some (result, h')
    /\ (length
          (nodup N.eq_dec
             (List.filter (fun k => (0 <? k)%N)
                (map (fun p => myID (deref h0 p)) existing_pokemon)))
        <= length result)%nat.
Proof.
  intros Hvalid Hlen. unfold parse_delta_save.
  destruct (N.ltb_spec (len extra) 4); [lia|].
  pose proof (copy_roster_keys_nodup existing_pokemon [] h0
                (List.NoDup_nil _)) as Hn.
  pose proof (fun k => copy_roster_keys h0 existing_pokemon Hvalid [] h0 k
                         (frame_refl h0)) as Hk.
  destruct (copy_roster existing_pokemon [] h0) as [d h]. cbn [fst] in *.
  destruct (try_body_total extra d h) as [[d' h'] E]. rewrite E.
  exists (finish d' h'), h'. split; [reflexivity|].
  rewrite length_finish.
  assert (Hgrow : (length (List.filter (fun kv => (0 <? fst kv)%N) d)
                   <= length (List.filter (fun kv => (0 <? fst kv)%N) d'))%nat).
  { unfold try_body in E.
    destruct (py_index extra 0); [|injection E as <- <-; lia].
    destruct (py_index extra _); [|injection E as <- <-; lia].
    eapply entries_keeps_records; eassumption. }
  etransitivity; [|exact Hgrow].
  rewrite <- (length_map fst (List.filter _ d)).
  apply Nat.eq_le_incl, Permutation_length,
    Stdlib.Sorting.Permutation.NoDup_Permutation.
  - apply NoDup_nodup.
  - now apply (NoDup_keys_filter (fun kv => (0 <? fst kv)%N) d).
  - intros k. rewrite nodup_In, filter_In. split.
    + intros [Hin Hpos].
      assert (Hin' : In k (dict_keys d)) by (apply Hk; now right).
      unfold dict_keys in Hin'.
      apply in_map_iff in Hin' as ([k' l] & <- & Hd).
      apply in_map_iff. exists (k', l). split; [reflexivity|].
      apply filter_In. auto.
    + intros Hin. apply in_map_iff in Hin as ([k' l] & <- & Hd).
      apply filter_In in Hd as [Hd Hpos]. cbn [fst] in *.
      split; [|exact Hpos].
      destruct (proj1 (Hk k')) as [[]|Hin]; [|exact Hin].
      unfold dict_keys. apply in_map_iff. exists (k', l). auto.
Qed.

Lemma parse_delta_save_keeps_records_witness :
  exists result h',
    parse_delta_save unknown_trade_delta [0; 1; 2]%nat
      [default_pokemon 1; default_pokemon 0; default_pokemon 1]
    = Some (result, h')
    /\ (1 <= length result)%nat.
Proof.
  apply (parse_delta_save_keeps_records unknown_trade_delta [0; 1; 2]%nat
           [default_pokemon 1; default_pokemon 0; default_pokemon 1]).
  - repeat constructor.
  - vm_compute. discriminate.
Defined.

(** ** Applying an encoded capture *)

Ltac next_capture_field lem :=
  erewrite lem;
  [cbv beta iota
  |match goal with
   | E : ?b = _ |- ?b = _ =>
       rewrite E; unfold capture_payload;
       repeat rewrite <- app_assoc; reflexivity
   end
  |assumption].

(** The record a needCaptured change makes of [poke]. *)
Lemma apply_capture_payload (b pre post : pystr) (poke : pokemon)
    (sp ex lv m1 m2 m3 m4 ms ty pos er : N) (tg : pystr) :
  b = pre ++ capture_payload sp ex lv m1 m2 m3 m4 ms ty pos er tg ++ post ->
  sp < 10 ^ 9 -> len (encode_int ex) < 10 ^ 9 -> lv < 10 ^ 9 ->
  m1 < 10 ^ 9 -> m2 < 10 ^ 9 -> m3 < 10 ^ 9 -> m4 < 10 ^ 9 ->
  ms < 10 ^ 9 -> ty < 10 ^ 9 -> pos < 10 ^ 9 -> er < 10 ^ 9 ->
  len tg < 10 ->
  apply_change b 1 (len pre) poke
  = (set_shiny (rarity_spec er sp)
       (set_tag tg (set_position pos (set_targetType ty
          (set_moveSelected ms (set_move4 m4 (set_move3 m3 (set_move2 m2
             (set_move1 m1 (set_level lv (set_experience ex
                (set_species sp poke))))))))))),
     len pre + len (capture_payload sp ex lv m1 m2 m3 m4 ms ty pos er tg)).
Proof.
  intros Eb H1 H2 H3 H4 H5 H6 H7 H8 H9 H10 H11 H12.
  unfold apply_change. cbn [N.eqb Pos.eqb].
  next_capture_field read_int_step.
  next_capture_field read_int2_step.
  next_capture_field read_int_step.
  next_capture_field read_int_step.
  next_capture_field read_int_step.
  next_capture_field read_int_step.
  next_capture_field read_int_step.
  next_capture_field read_int_step.
  next_capture_field read_int_step.
  next_capture_field read_int_step.
  next_capture_field read_int_step.
  rewrite (read_string_step b _ post tg);
    [cbv beta iota
    |rewrite Eb; unfold capture_payload;
     repeat rewrite <- app_assoc; reflexivity
    |assumption].
  f_equal.
  - unfold rarity_spec. rewrite !in_list_dec.
    fold shiny_markers. fold shadow_markers.
    destruct (in_dec N.eq_dec er shiny_markers); [reflexivity|].
    destruct (in_dec N.eq_dec er shadow_markers); [reflexivity|].
    cbn [species set_tag set_position set_targetType set_moveSelected
         set_move4 set_move3 set_move2 set_move1 set_level set_experience
         set_species].
    destruct (N.eqb_spec er sp); destruct (N.eq_dec er sp);
      try contradiction; reflexivity.
  - unfold capture_payload. repeat rewrite len_app. lia.
Qed.

(** X23. A needCaptured payload written with the server's own encoders
    (items below [10^9], experience below [10^4300], that is within the
    interpreter's limit of 4300 digits for a conversion, tag of fewer
    than ten characters) is applied in full, wherever it stands in
    the delta: the record gets exactly the written species, experience,
    level, moves, selected move, target type, position and tag, and the
    rarity derived from extraRarity; the cursor ends right after the
    payload. *)
Theorem capture_payload_applied (pre post : pystr) (poke : pokemon)
    (sp ex lv m1 m2 m3 m4 ms ty pos er : N) (tg : pystr) :
  sp < 10 ^ 9 -> ex < 10 ^ max_str_digits -> lv < 10 ^ 9 ->
  m1 < 10 ^ 9 -> m2 < 10 ^ 9 -> m3 < 10 ^ 9 -> m4 < 10 ^ 9 ->
  ms < 10 ^ 9 -> ty < 10 ^ 9 -> pos < 10 ^ 9 -> er < 10 ^ 9 ->
  len tg < 10 ->
  let payload := capture_payload sp ex lv m1 m2 m3 m4 ms ty pos er tg in
  apply_change (pre ++ payload ++ post) 1 (len pre) poke
  = ({| poke_id := poke_id poke; species := sp; experience := ex;
        level := lv; move1 := m1; move2 := m2; move3 := m3; move4 := m4;
        moveSelected := ms; targetType := ty; myID := myID poke;
        position := pos; shiny := rarity_spec er sp; tag := tg |},
     len pre + len payload).
Proof.
  intros H1 H2 H3 H4 H5 H6 H7 H8 H9 H10 H11 H12 payload.
  apply len_encode_int_limit in H2. unfold payload.
  rewrite (apply_capture_payload _ pre post poke sp ex lv m1 m2 m3 m4 ms ty
             pos er tg eq_refl) by assumption.
  reflexivity.
Qed.

Lemma capture_payload_applied_witness :
  apply_change
    (lit "wym" ++ capture_payload 25 1234567890 7 84 45 0 0 2 1 3 855
                    (lit "Pika") ++ lit "yy") 1 (len (lit "wym"))
    (default_pokemon 9)
  = ({| poke_id := 9; species := 25; experience := 1234567890; level := 7;
        move1 := 84; move2 := 45; move3 := 0; move4 := 0;
        moveSelected := 2; targetType := 1; myID := 9; position := 3;
        shiny := rarity_spec 855 25; tag := lit "Pika" |},
     len (lit "wym")
     + len (capture_payload 25 1234567890 7 84 45 0 0 2 1 3 855
              (lit "Pika"))).
Proof.
  apply (capture_payload_applied (lit "wym") (lit "yy") (default_pokemon 9)
           25 1234567890 7 84 45 0 0 2 1 3 855 (lit "Pika"));
    in_range.
Defined.

(** ** A first capture, end to end *)

Lemma entries_done (fuel : nat) (extra : pystr) (i : N) (d : pdict)
    (h : heap) :
  len extra <= i -> entries fuel extra i d h = Some (d, h).
Proof.
  intros H. apply N.leb_le in H. destruct fuel; cbn [entries]; now rewrite H.
Qed.

Lemma store_alloc (h : heap) (p q : pokemon) :
  store (h ++ [p]) (length h) q = h ++ [q].
Proof.
  unfold store. induction h as [|x h IH]; [reflexivity|].
  cbn [length app]. cbn. f_equal. exact IH.
Qed.

(** The header, the roster count and the first entry's own header (one
    change, myID 0) up to its first change type 1. *)
Lemma first_entry_reads (P0 post : pystr) :
  let extra :=
    P0 ++ entry_header 1 0 ++ encode_with_length 1 ++ post in
  decode_int_string (char_at extra (len P0)) = 1
  /\ decode_int_string (slice extra (len P0 + 1) (len P0 + 1 + 1)) = 1
  /\ read_int2 extra (len P0 + 1 + 1) = (0, len P0 + 5)
  /\ read_int extra (len P0 + 5) = (1, len P0 + 7)
  /\ len extra = len P0 + 7 + len post.
Proof.
  intros extra. subst extra.
  change (entry_header 1 0) with (lit "yy" ++ lit "yym").
  change (encode_with_length 1) with (lit "yy").
  change (lit "yy") with ["y"; "y"]%char.
  change (lit "yym") with ["y"; "y"; "m"]%char.
  cbn [app].
  split; [|split; [|split; [|split]]].
  - now rewrite char_at_app.
  - pose proof (slice_after_char P0 "y" ["y"%char]
                  (["y"; "y"; "m"; "y"; "y"]%char ++ post)) as E.
    cbn [app] in E. change (len ["y"%char]) with 1 in E. now rewrite E.
  - pose proof (read_int2_at (P0 ++ ["y"; "y"]%char) "y" ["y"%char]
                  ["m"%char] (["y"; "y"]%char ++ post) eq_refl eq_refl) as E.
    rewrite <- app_assoc in E. cbn [app] in E.
    rewrite len_app in E. change (len ["y"; "y"]%char) with 2 in E.
    change (len ["y"%char]) with 1 in E. change (len ["m"%char]) with 1 in E.
    replace (len P0 + 1 + 1) with (len P0 + 2) by lia. rewrite E.
    f_equal. lia.
  - pose proof (read_int_at (P0 ++ ["y"; "y"; "y"; "y"; "m"]%char) "y"
                  ["y"%char] post eq_refl) as E.
    rewrite <- app_assoc in E. cbn [app] in E.
    rewrite len_app in E.
    change (len ["y"; "y"; "y"; "y"; "m"]%char) with 5 in E.
    change (len ["y"%char]) with 1 in E. rewrite E. f_equal. lia.
  - rewrite len_app. unfold len at 2. cbn [length].
    rewrite !Nat2N.inj_succ. unfold len. lia.
Qed.

(** X24. A first capture, end to end: against an empty roster, a delta
    made of the envelope, a roster count and one entry with one change, myID 0
    and a needCaptured payload (all written with the server's own encoders,
    items below [10^9], experience below [10^4300], the interpreter's
    limit for a conversion, tag of fewer than ten characters, body shorter
    than [10^9] characters) returns exactly one record: the captured one,
    with myID 1 and ["id"] 1, allocated during the call. *)
Theorem first_capture_end_to_end (count sp ex lv m1 m2 m3 m4 ms ty pos er : N)
    (tg : pystr) (h0 : heap) :
  count < 10 ^ 9 ->
  sp < 10 ^ 9 -> ex < 10 ^ max_str_digits -> lv < 10 ^ 9 ->
  m1 < 10 ^ 9 -> m2 < 10 ^ 9 -> m3 < 10 ^ 9 -> m4 < 10 ^ 9 ->
  ms < 10 ^ 9 -> ty < 10 ^ 9 -> pos < 10 ^ 9 -> er < 10 ^ 9 ->
  len tg < 10 ->
  let body :=
    encode_with_length count ++ entry_header 1 0 ++ encode_with_length 1
    ++ capture_payload sp ex lv m1 m2 m3 m4 ms ty pos er tg in
  len body < 10 ^ 9 ->
  parse_delta_save (envelope body) [] h0
  = Some ([length h0],
          h0 ++ [{| poke_id := 1; species := sp; experience := ex;
                    level := lv; move1 := m1; move2 := m2; move3 := m3;
                    move4 := m4; moveSelected := ms; targetType := ty;
                    myID := 1; position := pos;
                    shiny := rarity_spec er sp; tag := tg |}]).
Proof.
  intros Hc H1 H2 H3 H4 H5 H6 H7 H8 H9 H10 H11 H12 body Hbody.
  apply len_encode_int_limit in H2.
  set (payload := capture_payload sp ex lv m1 m2 m3 m4 ms ty pos er tg) in *.
  destruct (encode_with_length_shape count Hc) as (cl & Ecl & Hcl).
  set (ce := encode_int count) in *.
  pose proof (len_encode_int_small _ Hbody) as Hh.
  pose proof (len_encode_int_pos (len body)) as Hhp.
  pose proof (len_encode_int_pos count) as Hcp. fold ce in Hcp.
  assert (Edh : decode_int_string (encode_int (len (encode_int (len body))))
                = len (encode_int (len body)))
    by apply decode_int_string_encode_int.
  unfold envelope. rewrite (encode_int_digit _ Hh) in *.
  set (header := encode_int (len body)) in *.
  set (ch := digit_to_letter (digit_char (len header))) in *.
  set (P0 := (ch :: header) ++ cl :: ce).
  assert (Eextra : [ch] ++ header ++ body
                   = P0 ++ entry_header 1 0 ++ encode_with_length 1
                     ++ payload ++ []).
  { unfold P0, body. rewrite Ecl, app_nil_r. cbn [app].
    rewrite <- !app_assoc. reflexivity. }
  destruct (first_entry_reads P0 (payload ++ [])) as (R1 & R2 & R3 & R4 & R5).
  cbv zeta in R1, R2, R3, R4, R5. rewrite <- Eextra in R1, R2, R3, R4, R5.
  assert (Epay : [ch] ++ header ++ body
                 = (P0 ++ entry_header 1 0 ++ encode_with_length 1)
                   ++ payload ++ [])
    by (rewrite Eextra, <- !app_assoc; reflexivity).
  assert (Elen7 : len (P0 ++ entry_header 1 0 ++ encode_with_length 1)
                  = len P0 + 7) by (rewrite !len_app; reflexivity).
  pose proof (apply_capture_payload _ _ [] (default_pokemon 1)
                sp ex lv m1 m2 m3 m4 ms ty pos er tg Epay
                H1 H2 H3 H4 H5 H6 H7 H8 H9 H10 H11 H12) as Rc.
  fold payload in Rc. rewrite Elen7 in Rc.
  set (extra := [ch] ++ header ++ body) in *.
  assert (HP0 : len P0 = 1 + len header + 1 + len ce)
    by (unfold P0; rewrite len_app, !len_cons; lia).
  assert (Hpl : len (payload ++ []) = len payload)
    by now rewrite app_nil_r.
  unfold parse_delta_save.
  destruct (N.ltb_spec (len extra) 4); [lia|].
  cbn [copy_roster]. unfold try_body, py_index.
  destruct (N.ltb_spec 0 (len extra)); [|lia].
  replace (char_at extra 0) with [ch]
    by (symmetry; apply (char_at_app [] ch (header ++ body))).
  rewrite Edh.
  destruct (N.ltb_spec (0 + (1 + len header)) (len extra)); [|lia].
  assert (Ex1 : extra = (ch :: header) ++ cl :: ce
                        ++ entry_header 1 0 ++ encode_with_length 1
                        ++ payload ++ [])
    by (rewrite Eextra; unfold P0; rewrite <- !app_assoc; reflexivity).
  replace (0 + (1 + len header)) with (len (ch :: header))
    by (rewrite len_cons; lia).
  assert (Ec1 : char_at extra (len (ch :: header)) = [cl])
    by (rewrite Ex1; apply char_at_app).
  rewrite Ec1, Hcl.
  replace (len (ch :: header) + 1 + len ce) with (len P0)
    by (rewrite HP0, len_cons; lia).
  cbn [entries].
  destruct (N.leb_spec (len extra) (len P0)); [lia|].
  unfold entry. rewrite R1.
  destruct (N.ltb_spec (len extra) (len P0 + 1 + 1)); [lia|].
  rewrite R2. cbn [N.eqb Pos.eqb]. rewrite R3, R4. cbn [fst N.eqb Pos.eqb].
  change (max_id [] + 1) with 1. cbn [dict_get alloc dict_set].
  unfold process_changes. cbn [dict_get N.eqb Pos.eqb].
  rewrite deref_alloc_new.
  change (set_myID 1 (default_pokemon 1)) with (default_pokemon 1).
  rewrite store_alloc.
  change (N.to_nat 1) with 1%nat. cbn [apply_changes].
  destruct (N.leb_spec (len extra) (len P0 + 5)); [lia|].
  rewrite R4, deref_alloc_new, Rc, store_alloc.
  rewrite entries_done by lia.
  cbn. reflexivity.
Qed.

Lemma first_capture_end_to_end_witness :
  parse_delta_save
    (envelope
       (encode_with_length 3 ++ entry_header 1 0 ++ encode_with_length 1
        ++ capture_payload 150 999999 70 94 60 0 0 1 2 3 150 (lit "Mewtwo")))
    [] [default_pokemon 8]
  = Some ([1%nat],
          [default_pokemon 8]
          ++ [{| poke_id := 1; species := 150; experience := 999999;
                 level := 70; move1 := 94; move2 := 60; move3 := 0;
                 move4 := 0; moveSelected := 1; targetType := 2;
                 myID := 1; position := 3;
                 shiny := rarity_spec 150 150; tag := lit "Mewtwo" |}]).
Proof.
  apply (first_capture_end_to_end 3 150 999999 70 94 60 0 0 1 2 3 150
           (lit "Mewtwo") [default_pokemon 8]);
    in_range.
Defined.

(** ** At the end of the data *)

Lemma read_int_at_end (b : pystr) (i : N) :
  len b <= i -> read_int b i = (0, i).
Proof. intros H. unfold read_int. apply N.leb_le in H. now rewrite H. Qed.

Lemma read_int2_at_end (b : pystr) (i : N) :
  len b <= i -> read_int2 b i = (0, i).
Proof. intros H. unfold read_int2. apply N.leb_le in H. now rewrite H. Qed.

Lemma read_string_at_end (b : pystr) (i : N) :
  len b <= i -> read_string b i = ([], i).
Proof. intros H. unfold read_string. apply N.leb_le in H. now rewrite H. Qed.

Ltac at_end H :=
  first [ rewrite read_int_at_end by exact H
        | rewrite read_int2_at_end by exact H
        | rewrite read_string_at_end by exact H ];
  cbv beta iota.

Lemma dict_set_twice {V} (d : list (N * V)) (k : N) (v : V) :
  dict_set (dict_set d k v) k v = dict_set d k v.
Proof.
  induction d as [|[k' v'] d IH]; cbn [dict_set].
  - now rewrite N.eqb_refl.
  - destruct (N.eqb_spec k k') as [->|Hne]; cbn [dict_set].
    + now rewrite N.eqb_refl.
    + destruct (N.eqb_spec k k'); [contradiction|]. now rewrite IH.
Qed.

(** X25. Items that a key/value blob declares but does not hold are read
    as the item 0 -> 0: once the cursor is at the end of the blob, any
    number (at least one) of further loop iterations leaves the dict as it
    was with [result[0] = 0] set once. *)
Theorem parse_kv_loop_past_end (blob : pystr) (n : nat) (i : N)
    (result : list (N * N)) :
  len blob <= i ->
  parse_kv_loop (S n) blob i result = dict_set result 0 0.
Proof.
  intros H. revert result. induction n as [|n IH]; intros result.
  - cbn [parse_kv_loop]. now rewrite !read_int_at_end by exact H.
  - change (parse_kv_loop (S (S n)) blob i result)
      with (let '(k, i1) := read_int blob i in
            let '(v, i2) := read_int blob i1 in
            parse_kv_loop (S n) blob i2 (dict_set result k v)).
    rewrite !read_int_at_end by exact H. rewrite IH. apply dict_set_twice.
Qed.

Lemma parse_kv_loop_past_end_witness :
  parse_kv_loop 3 (lit "yqyc") 4 [(7, 1)] = dict_set [(7, 1)] 0 0.
Proof. apply parse_kv_loop_past_end. vm_compute. discriminate. Defined.

(** X26. A change that starts at the end of the delta reads nothing: the
    cursor stays where it is, whatever the change type; a needCaptured
    there sets every item of its payload to 0 (the tag to the empty
    string) and, extraRarity 0 being equal to species 0, marks the record
    shiny. *)
Theorem apply_change_at_end (extra : pystr) (ct i : N) (poke : pokemon) :
  len extra <= i ->
  snd (apply_change extra ct i poke) = i
  /\ (ct = 1 ->
      fst (apply_change extra ct i poke)
      = {| poke_id := poke_id poke; species := 0; experience := 0;
           level := 0; move1 := 0; move2 := 0; move3 := 0; move4 := 0;
           moveSelected := 0; targetType := 0; myID := myID poke;
           position := 0; shiny := 1; tag := [] |}).
Proof.
  intros H. split.
  - unfold apply_change.
    repeat match goal with
           | |- context [N.eqb ct ?k] => destruct (N.eqb ct k)
           end;
      repeat (at_end H); reflexivity.
  - intros ->. unfold apply_change. cbn [N.eqb Pos.eqb].
    repeat (at_end H). reflexivity.
Qed.

Lemma apply_change_at_end_witness :
  apply_change (lit "yy") 1 2 (default_pokemon 3)
  = ({| poke_id := 3; species := 0; experience := 0; level := 0;
        move1 := 0; move2 := 0; move3 := 0; move4 := 0; moveSelected := 0;
        targetType := 0; myID := 3; position := 0; shiny := 1; tag := [] |},
     2).
Proof.
  destruct (apply_change_at_end (lit "yy") 1 2 (default_pokemon 3))
    as [Hs Hf]; [vm_compute; discriminate|].
  specialize (Hf eq_refl).
  destruct (apply_change (lit "yy") 1 2 (default_pokemon 3)) as [p j].
  cbn [fst snd] in *. now subst.
Defined.

(** ** An entry for a known record *)

(** X27. An entry (non-zero change count) for a myID that the working set
    holds creates no record and re-keys none: the working set is the same
    afterwards, the store has the same objects, only the record filed
    under that myID may have changed, and it still carries the myID. *)
Theorem known_myID_entry (extra : pystr) (i : N) (d : pdict) (h : heap)
    (my_id i2 : N) (poke : loc) :
  let ccl := decode_int_string (char_at extra i) in
  let cc := decode_int_string (slice extra (i + 1) (i + 1 + ccl)) in
  i + 1 + ccl <= len extra ->
  cc <> 0 ->
  read_int2 extra (i + 1 + ccl) = (my_id, i2) ->
  my_id <> 0 ->
  dict_get d my_id = Some poke ->
  (poke < length h)%nat ->
  exists i' h',
    entry extra i d h = Continue i' d h'
    /\ length h' = length h
    /\ myID (deref h' poke) = my_id
    /\ forall l, l <> poke -> deref h' l = deref h l.
Proof.
  intros ccl cc Hlen Hcc Hid Hnz Hget Hpoke.
  unfold entry. fold ccl.
  destruct (N.ltb_spec (len extra) (i + 1 + ccl)); [lia|]. fold cc.
  destruct (N.eqb_spec cc 0); [contradiction|].
  rewrite Hid. destruct (N.eqb_spec my_id 0); [contradiction|].
  rewrite Hget. unfold process_changes. rewrite Hget.
  set (h1 := store h poke (set_myID my_id (deref h poke))).
  destruct (apply_changes_inv [] [] extra poke (N.to_nat cc)
              (Nat.le_0_l _) i2 h1) as (_ & _ & Hl & Hkeep);
    [reflexivity|constructor|].
  pose proof (apply_changes_other extra poke) as Hother.
  destruct (apply_changes (N.to_nat cc) extra i2 poke h1) as [i' h'] eqn:Ec.
  cbn [snd] in *. exists i', h'.
  split; [reflexivity|]. split; [|split].
  - rewrite Hl. unfold h1. now rewrite length_store.
  - rewrite Hkeep. unfold h1. now rewrite deref_store_eq.
  - intros l Hne.
    specialize (Hother l (N.to_nat cc) Hne i2 h1). rewrite Ec in Hother.
    cbn [snd] in Hother. rewrite Hother. unfold h1.
    now rewrite deref_store_ne by congruence.
Qed.

Lemma known_myID_entry_witness :
  let h := [set_position 1 (default_pokemon 1)] in
  exists i' h',
    entry evolve_delta 5 [(1, 0%nat)] h = Continue i' [(1, 0%nat)] h'
    /\ length h' = 1%nat
    /\ myID (deref h' 0%nat) = 1
    /\ forall l, l <> 0%nat -> deref h' l = deref h l.
Proof.
  intros h.
  apply (known_myID_entry evolve_delta 5 [(1, 0%nat)] h 1 10 0%nat).
  - vm_compute. discriminate.
  - vm_compute. discriminate.
  - reflexivity.
  - discriminate.
  - reflexivity.
  - cbn. lia.
Defined.

(** * Conversions and the interpreter's limit *)

Lemma len_str_gt (k n : N) : 10 ^ k <= n -> k < len (str n).
Proof.
  intros H. pose proof (length_str_lower (N.to_nat k) n) as B.
  rewrite N2Nat.id in B. specialize (B H). unfold len. lia.
Qed.

Lemma len_encode_int (n : N) : len (encode_int n) = len (str n).
Proof. unfold len. now rewrite length_encode_int. Qed.

(** A conversion of at most [max_str_digits] digits returns what the
    unlimited conversion gives; a longer one raises. *)
Lemma str_checked_returns (n : N) :
  len (str n) <= max_str_digits -> str_checked n = Returned (str n).
Proof.
  intros H. unfold str_checked.
  destruct (N.ltb_spec max_str_digits (len (str n))); [lia|reflexivity].
Qed.

Lemma str_checked_raises (n : N) :
  10 ^ max_str_digits <= n -> str_checked n = Raised.
Proof.
  intros H. apply len_str_gt in H. unfold str_checked.
  destruct (N.ltb_spec max_str_digits (len (str n))); [reflexivity|lia].
Qed.

Lemma encode_int_checked_len (n : N) :
  len (encode_int n) <= max_str_digits ->
  encode_int_checked n = Returned (encode_int n).
Proof.
  intros H. rewrite len_encode_int in H.
  unfold encode_int_checked. now rewrite str_checked_returns.
Qed.

Lemma encode_int_checked_returns (n : N) :
  n < 10 ^ max_str_digits ->
  encode_int_checked n = Returned (encode_int n).
Proof.
  intros H. apply encode_int_checked_len.
  rewrite len_encode_int. now apply len_str_limit.
Qed.

Lemma encode_int_checked_raises (n : N) :
  10 ^ max_str_digits <= n -> encode_int_checked n = Raised.
Proof.
  intros H. unfold encode_int_checked. now rewrite str_checked_raises.
Qed.

Lemma decode_int_string_checked_returns (s : pystr) :
  len s <= max_str_digits ->
  decode_int_string_checked s = Returned (decode_int_string s).
Proof.
  intros H. unfold decode_int_string_checked, decode_int_string.
  destruct s as [|c s]; [reflexivity|].
  destruct (decode_loop (c :: s) []) as [ds|] eqn:E; [|reflexivity].
  destruct (decode_loop_digits _ _ E) as [Hl _].
  destruct ds as [|d ds]; [reflexivity|].
  unfold int_checked.
  destruct (N.ltb_spec max_str_digits (len (d :: ds))); [|reflexivity].
  unfold len in *. rewrite Hl in *. lia.
Qed.

Lemma limit_below_pow : max_str_digits < 10 ^ max_str_digits.
Proof. apply N.pow_gt_lin_r. reflexivity. Qed.

(** C1 (as stated) fails for the integers of more than 4300 digits:
    [encode_int (10 ^ 4300)] raises [ValueError] in [str], so there is
    nothing to decode. *)
Lemma encode_int_over_limit :
  encode_int_checked (10 ^ max_str_digits) = Raised
  /\ ~ (exists e,
          encode_int_checked (10 ^ max_str_digits) = Returned e
          /\ decode_int_string_checked e = Returned (10 ^ max_str_digits)).
Proof.
  assert (E : encode_int_checked (10 ^ max_str_digits) = Raised)
    by (apply encode_int_checked_raises; apply N.le_refl).
  split; [exact E|]. intros (e & He & _). rewrite E in He. discriminate He.
Qed.

(** C1 (amended). For every integer [n] with [0 <= n < 10^4300] (at most
    4300 decimal digits, the interpreter's limit for a conversion),
    [encode_int n] returns, and decoding what it returns yields [n] back:
    [decode_int_string (encode_int n) = n], where [encode_int] replaces
    each decimal digit of [n] by its letter in the ordering
    m,y,w,c,q,a,p,r,e,o and [decode_int_string] inverts that. *)
Theorem decode_encode_int (n : N) :
  n < 10 ^ max_str_digits ->
  exists e,
    encode_int_checked n = Returned e
    /\ decode_int_string_checked e = Returned n.
Proof.
  intros H. exists (encode_int n).
  split; [now apply encode_int_checked_returns|].
  rewrite decode_int_string_checked_returns.
  - now rewrite decode_int_string_encode_int.
  - rewrite len_encode_int. now apply len_str_limit.
Qed.

Lemma decode_encode_int_witness :
  exists e,
    encode_int_checked 1234 = Returned e
    /\ decode_int_string_checked e = Returned 1234.
Proof. apply (decode_encode_int 1234). in_range. Defined.

(** ** The double form within the limit *)

Lemma read_int2_checked_at (p : pystr) (c : ascii) (l1 e q : pystr) :
  decode_int_string [c] = len l1 ->
  decode_int_string l1 = len e ->
  len l1 <= max_str_digits -> len e <= max_str_digits ->
  read_int2_checked (p ++ c :: l1 ++ e ++ q) (len p)
  = Returned (decode_int_string e, len p + 1 + len l1 + len e).
Proof.
  intros Hc Hl Hl1 He. unfold read_int2_checked.
  assert (Hlen : len (p ++ c :: l1 ++ e ++ q)
                 = len p + 1 + len l1 + len e + len q)
    by (rewrite len_app, len_cons, !len_app; lia).
  destruct (N.leb_spec (len (p ++ c :: l1 ++ e ++ q)) (len p)); [lia|].
  rewrite char_at_app.
  rewrite (decode_int_string_checked_returns [c])
    by (pose proof (proj1 max_str_digits_small); change (len [c]) with 1;
        lia).
  rewrite Hc.
  destruct (N.ltb_spec (len (p ++ c :: l1 ++ e ++ q)) (len p + 1 + len l1));
    [lia|].
  rewrite slice_after_char.
  rewrite (decode_int_string_checked_returns l1) by exact Hl1.
  rewrite Hl.
  destruct (N.ltb_spec (len (p ++ c :: l1 ++ e ++ q))
              (len p + 1 + len l1 + len e)); [lia|].
  replace (p ++ c :: l1 ++ e ++ q) with ((p ++ c :: l1) ++ e ++ q)
    by (rewrite <- app_assoc; reflexivity).
  replace (len p + 1 + len l1) with (len (p ++ c :: l1))
    by (rewrite len_app, len_cons; lia).
  rewrite slice_app_mid.
  now rewrite (decode_int_string_checked_returns e) by exact He.
Qed.

Lemma encode_with_double_length_checked_returns (n : N) :
  n < 10 ^ max_str_digits ->
  encode_with_double_length_checked n
  = Returned (encode_with_double_length n).
Proof.
  intros H. pose proof (len_encode_int_limit n H) as H9.
  pose proof (len_encode_int_small _ H9) as H10.
  unfold encode_with_double_length_checked.
  rewrite (encode_int_checked_returns n) by exact H.
  rewrite (encode_int_checked_returns (len (encode_int n)))
    by (apply below_limit; eapply N.lt_le_trans; [exact H9|];
        apply N.pow_le_mono_r; discriminate).
  rewrite (encode_int_checked_returns
             (len (encode_int (len (encode_int n)))))
    by (apply below_limit; eapply N.lt_le_trans; [exact H10|];
        discriminate).
  reflexivity.
Qed.

(** Beyond the limit the double-prefixed writer raises. *)
Lemma encode_with_double_length_over_limit (n : N) :
  10 ^ max_str_digits <= n -> encode_with_double_length_checked n = Raised.
Proof.
  intros H. unfold encode_with_double_length_checked.
  now rewrite encode_int_checked_raises.
Qed.

(** C2 (amended). For every prefix [p]: the single form round-trips for
    every [n < 10^9] (at most nine digits); in the double form, for every
    [n < 10^4300] (at most 4300 digits, the interpreter's limit for a
    conversion) the writer returns and the reader returns [n]; each reader
    moves the cursor from [len p] to [len p] plus the length of the
    written encoding. *)
Theorem read_length_prefixed_roundtrip (p : pystr) (n : N) :
  (n < 10 ^ 9 ->
   read_int (p ++ encode_with_length n) (len p)
   = (n, len p + len (encode_with_length n)))
  /\ (n < 10 ^ max_str_digits ->
      encode_with_double_length_checked n
      = Returned (encode_with_double_length n)
      /\ read_int2_checked (p ++ encode_with_double_length n) (len p)
         = Returned (n, len p + len (encode_with_double_length n))).
Proof.
  split; intros H.
  - pose proof (read_int_encode p [] n H) as E.
    now rewrite app_nil_r in E.
  - split; [now apply encode_with_double_length_checked_returns|].
    pose proof (len_encode_int_limit n H) as H9.
    destruct (encode_with_double_length_shape n H9)
      as (c & l1 & -> & Hc & Hl).
    pose proof (read_int2_checked_at p c l1 (encode_int n) [] Hc Hl) as E.
    rewrite app_nil_r in E. rewrite E.
    + rewrite decode_int_string_encode_int, len_cons, len_app.
      do 2 f_equal. lia.
    + assert (len l1 < 10).
      { rewrite <- Hc. apply (decode_char_at_bound [c] 0). }
      pose proof max_str_digits_small.
      assert (10 <= max_str_digits) by discriminate. lia.
    + rewrite len_encode_int. now apply len_str_limit.
Qed.

Lemma read_length_prefixed_roundtrip_witness :
  read_int (lit "xy" ++ encode_with_length 999999999) (len (lit "xy"))
  = (999999999, len (lit "xy") + len (encode_with_length 999999999))
  /\ encode_with_double_length_checked 123456789012
     = Returned (encode_with_double_length 123456789012)
  /\ read_int2_checked (lit "xy" ++ encode_with_double_length 123456789012)
       (len (lit "xy"))
     = Returned
         (123456789012,
          len (lit "xy") + len (encode_with_double_length 123456789012)).
Proof.
  destruct (read_length_prefixed_roundtrip (lit "xy") 999999999) as [H1 _].
  destruct (read_length_prefixed_roundtrip (lit "xy") 123456789012)
    as [_ H2].
  split; [apply H1; reflexivity|apply H2; in_range].
Defined.

(** ** The bare-integer codec within the limit *)

(** A string of more than 4300 alphabet letters is not decoded: the
    conversion of its digits raises. *)
Lemma decode_int_string_checked_raises (s : pystr) :
  Forall (fun c => In c LETTER_LIST) s ->
  max_str_digits < len s ->
  decode_int_string_checked s = Raised.
Proof.
  intros Hs H. destruct (letters_digits s Hs) as (ds & -> & Hds).
  unfold decode_int_string_checked.
  destruct (map digit_to_letter ds) as [|c0 s0] eqn:Em.
  - exfalso. change (len (@nil ascii)) with 0 in H. lia.
  - rewrite <- Em, (decode_loop_letters ds [] Hds). cbn [app].
    unfold len in H. rewrite <- Em, length_map in H.
    destruct ds as [|d ds]; [discriminate Em|].
    unfold int_checked.
    destruct (N.ltb_spec max_str_digits (len (d :: ds)));
      [reflexivity|unfold len in *; lia].
Qed.

(** X1. A leading zero letter is ignored by the decoder: for every string
    [s] of fewer than 4300 characters, [decode_int_string ("m" + s)] and
    [decode_int_string s] return the same value; so decoding is not
    injective on strings.  (With 4300 alphabet letters in [s], the
    conversion of ["m" + s] has 4301 digits and raises, by the lemma
    above.) *)
Theorem decode_int_string_leading_m (s : pystr) :
  len s < max_str_digits ->
  exists v,
    decode_int_string_checked s = Returned v
    /\ decode_int_string_checked ("m"%char :: s) = Returned v.
Proof.
  intros H. exists (decode_int_string s).
  split; [apply decode_int_string_checked_returns; lia|].
  rewrite decode_int_string_checked_returns by (rewrite len_cons; lia).
  now rewrite decode_int_string_cons_m.
Qed.

Lemma decode_int_string_leading_m_witness :
  exists v,
    decode_int_string_checked (lit "ymqo") = Returned v
    /\ decode_int_string_checked ("m"%char :: lit "ymqo") = Returned v.
Proof. apply (decode_int_string_leading_m (lit "ymqo")). reflexivity. Defined.

(** X2. Every encoding is canonical: for every [n < 10^4300] (within the
    interpreter's limit), [encode_int n] returns a string that is not
    empty, is made of letters of the alphabet only, and starts with the
    zero letter ["m"] only when [n] is 0 (and the string is ["m"]). *)
Theorem encode_int_canonical (n : N) :
  n < 10 ^ max_str_digits ->
  exists e,
    encode_int_checked n = Returned e
    /\ canonical e
    /\ (forall s', e = "m"%char :: s' -> n = 0).
Proof.
  intros H. exists (encode_int n).
  split; [now apply encode_int_checked_returns|].
  apply encode_int_is_canonical.
Qed.

Lemma encode_int_canonical_witness :
  exists e,
    encode_int_checked 1040 = Returned e
    /\ canonical e
    /\ (forall s', e = "m"%char :: s' -> 1040 = 0).
Proof. apply (encode_int_canonical 1040). in_range. Defined.

(** X3. The other round trip: on a canonical string (alphabet letters, not
    empty, no leading ["m"] unless it is ["m"] itself) of at most 4300
    characters, [decode_int_string] returns a value whose encoding is the
    string again. *)
Theorem encode_decode_canonical (s : pystr) :
  canonical s -> len s <= max_str_digits ->
  exists n,
    decode_int_string_checked s = Returned n
    /\ encode_int_checked n = Returned s.
Proof.
  intros Hc H. exists (decode_int_string s).
  split; [now apply decode_int_string_checked_returns|].
  pose proof (encode_int_decode_int_string s Hc) as E.
  rewrite encode_int_checked_len; rewrite E; [reflexivity|exact H].
Qed.

Lemma encode_decode_canonical_witness :
  exists n,
    decode_int_string_checked (lit "ymqo") = Returned n
    /\ encode_int_checked n = Returned (lit "ymqo").
Proof.
  apply (encode_decode_canonical (lit "ymqo")).
  - split; [discriminate|]. split.
    + repeat constructor; cbn; tauto.
    + intros s' E. discriminate E.
  - discriminate.
Defined.
